(** * Wa-Tor: a shallow embedding of the grid model, the population
    initializer, the step engine, the main loop and the command line.

    Source files embedded here:
    - entity.go, cell.go, config.go : the data model;
    - world.go      : [NewWorld], [wrap], [Neighbors], [Populate];
    - simulation.go : [newEmptyWorldLike], [countEntities], [StepWorld],
                      [stepFish], [stepShark], [drawWorld], [RunSimulation]
                      (the variant without goroutines);
    - main.go       : [main];
    - simulation.go, the variant with goroutines : [StepWorld], [stepFish],
                      [stepShark], in the module [Goroutines].

    Conventions.  Go's [int] is a 64-bit two's complement integer: values are
    in [Z] and every addition and subtraction of the source is written with
    the wrap-around of [GoInt].  A run-time panic (index out of range,
    [Intn] on a non-positive bound, [make] with a negative length, a division
    by zero) is the result [None].  The pseudo-random generator is the stream
    of its draws.  Standard output is the text written to it.  Memory is not
    modelled: [make] returns for every length that is not negative, whereas
    the runtime refuses a slice of more than [maxAlloc] bytes and aborts when
    memory runs out.  The worlds of the theorems are worlds that exist in
    memory; where a statement says which sizes a function accepts, it bounds
    them by that limit. *)

From Stdlib Require Import ZArith Lia String Ascii DecimalString.
From stdpp Require Import base tactics option list numbers.

Open Scope Z_scope.

(** ** Machine integers *)

Module GoInt.

Definition int_min : Z := - 2 ^ 63.
Definition int_max : Z := 2 ^ 63 - 1.

Definition wrap_int (z : Z) : Z := (z + 2 ^ 63) `mod` 2 ^ 64 - 2 ^ 63.

Definition is_int (z : Z) : Prop := int_min <= z <= int_max.

Definition add (a b : Z) : Z := wrap_int (a + b).
Definition sub (a b : Z) : Z := wrap_int (a - b).

End GoInt.

(** ** Data model (entity.go, cell.go, world.go, config.go) *)

Inductive Entity : Type := Empty | Fish | Shark.

#[global] Instance Entity_eq_dec : EqDecision Entity.
Proof. solve_decision. Defined.

(** The field [Entity] of the source is [entity] here: the type has the
    name. *)
Record Cell : Type := mkCell {
  entity : Entity;
  BreedTimer : Z;
  Energy : Z;
}.

#[global] Instance Cell_eq_dec : EqDecision Cell.
Proof. solve_decision. Defined.

(** The zero value of [Cell], as [make] allocates it. *)
Definition zeroCell : Cell := mkCell Empty 0 0.

Record World : Type := mkWorld {
  Size : Z;
  Cells : list (list Cell);
  FishBreed : Z;
  SharkBreed : Z;
  Starve : Z;
}.

Module Cfg.
Record Config : Type := mkConfig {
  NumShark : Z;
  NumFish : Z;
  FishBreed : Z;
  SharkBreed : Z;
  Starve : Z;
  GridSize : Z;
  Threads : Z;
  Chronons : Z;
  DrawEvery : Z;
  BenchFile : string;
}.
End Cfg.
Abbreviation Config := Cfg.Config.

(** ** The random source

    A [*rand.Rand] is the infinite stream of the raw values it will draw.
    [Intn n] consumes one of them and reduces it into [0, n); it panics when
    [n <= 0]. *)

Definition Rand : Type := nat -> Z.

Definition advance (rnd : Rand) : Rand := fun k => rnd (S k).

Definition Intn (rnd : Rand) (n : Z) : option (Z * Rand) :=
  if decide (0 < n) then Some (rnd 0%nat `mod` n, advance rnd) else None.

(** A finite tape of draws, continued with zeros. *)
Definition tape (l : list Z) : Rand := fun k => nth k l 0.

(** ** Slices *)

(** [s[i]]: panics when [i] is out of range. *)
Definition index {A : Type} (l : list A) (i : Z) : option A :=
  if decide (0 <= i) then l !! Z.to_nat i else None.

(** [w.Cells[row][col]] *)
Definition cell_at (w : World) (row col : Z) : option Cell :=
  cells ← index (Cells w) row; index cells col.

Definition with_cells (w : World) (cs : list (list Cell)) : World :=
  {| Size := Size w; Cells := cs; FishBreed := FishBreed w;
     SharkBreed := SharkBreed w; Starve := Starve w |}.

(** [w.Cells[row][col] = v] *)
Definition assign (w : World) (row col : Z) (v : Cell) : option World :=
  cells ← index (Cells w) row;
  _ ← index cells col;
  Some (with_cells w (<[Z.to_nat row := <[Z.to_nat col := v]> cells]> (Cells w))).

(** [for x := range l { s = body x s }], stopping at the first panic. *)
Fixpoint forM {S A : Type} (body : A -> S -> option S) (l : list A) (s : S)
  : option S :=
  match l with
  | [] => Some s
  | x :: l' => s' ← body x s; forM body l' s'
  end.

(** ** world.go *)

(** [make([][]Cell, n)] followed by [make([]Cell, n)] for every row.  The
    panic on a negative length is the result [None]; the panic of the runtime
    on a length beyond the limit of its allocator is not modelled. *)
Definition makeCells (n : Z) : option (list (list Cell)) :=
  if decide (0 <= n)
  then Some (replicate (Z.to_nat n) (replicate (Z.to_nat n) zeroCell))
  else None.

Definition NewWorld (cfg : Config) : option World :=
  cells ← makeCells (Cfg.GridSize cfg);
  Some {| Size := Cfg.GridSize cfg; Cells := cells;
          FishBreed := Cfg.FishBreed cfg; SharkBreed := Cfg.SharkBreed cfg;
          Starve := Cfg.Starve cfg |}.

Definition wrap (w : World) (i : Z) : Z :=
  if decide (i < 0) then GoInt.add i (Size w)
  else if decide (i >= Size w) then GoInt.sub i (Size w)
  else i.

Definition Neighbors (w : World) (row col : Z) : list (Z * Z) :=
  [ (wrap w (GoInt.sub row 1), col);    (* North *)
    (wrap w (GoInt.add row 1), col);    (* South *)
    (row, wrap w (GoInt.sub col 1));    (* West *)
    (row, wrap w (GoInt.add col 1)) ].  (* East *)

(** The coordinates in the order the two nested loops of [Populate] append
    them. *)
Definition all_positions (size : Z) : list (Z * Z) :=
  row ← seqZ 0 size; col ← seqZ 0 size; [(row, col)].

(** [positions[i], positions[j] = positions[j], positions[i]] *)
Definition swap {A : Type} (l : list A) (i j : nat) : option (list A) :=
  x ← l !! i; y ← l !! j; Some (<[j := x]> (<[i := y]> l)).

(** [rand.Shuffle(n, swap)] of math/rand: for [i] from [n - 1] down to [1],
    draw [j] in [0, i] and swap the elements at [i] and [j]. *)
Fixpoint shuffle_down {A : Type} (i : nat) (l : list A) (rnd : Rand)
  : option (list A * Rand) :=
  match i with
  | O => Some (l, rnd)
  | S i' =>
      '(j, rnd') ← Intn rnd (Z.of_nat i + 1);
      l' ← swap l i (Z.to_nat j);
      shuffle_down i' l' rnd'
  end.

Definition Shuffle {A : Type} (l : list A) (rnd : Rand) : option (list A * Rand) :=
  shuffle_down (length l - 1) l rnd.

(** The shark loop of [Populate].  [positions] is what is left of the
    shuffled slice from [index] on; the result carries the rest along for the
    fish loop.  The three field assignments of the source set all three
    fields of the cell; [shark < numShark] rules out an overflow of
    [shark++]. *)
Fixpoint placeSharks (w : World) (shark numShark : Z) (positions : list (Z * Z))
  : option (World * list (Z * Z)) :=
  match positions with
  | [] => Some (w, [])
  | (r, c) :: rest =>
      if decide (shark < numShark) then
        _ ← cell_at w r c;
        w' ← assign w r c {| entity := Shark; BreedTimer := 0; Energy := Starve w |};
        placeSharks w' (shark + 1) numShark rest
      else Some (w, positions)
  end.

(** The fish loop of [Populate]: a cell is taken only when it is [Empty];
    its [Energy] field is not assigned. *)
Fixpoint placeFish (w : World) (fish numFish : Z) (positions : list (Z * Z))
  : option World :=
  match positions with
  | [] => Some w
  | (r, c) :: rest =>
      if decide (fish < numFish) then
        old ← cell_at w r c;
        w' ← (if decide (entity old = Empty)
              then assign w r c {| entity := Fish; BreedTimer := 0; Energy := Energy old |}
              else Some w);
        placeFish w' (fish + 1) numFish rest
      else Some w
  end.

(** [Populate] draws from the global source of math/rand, passed here as
    [rnd].  The capacity [w.Size * w.Size] given to [make] does not show in
    the value of [positions]; the panic of the runtime on a capacity beyond
    the limit of its allocator is not modelled. *)
Definition Populate (w : World) (numFish numShark : Z) (rnd : Rand)
  : option (World * Rand) :=
  '(positions, rnd') ← Shuffle (all_positions (Size w)) rnd;
  '(w1, rest) ← placeSharks w 0 numShark positions;
  w2 ← placeFish w1 0 numFish rest;
  Some (w2, rnd').

(** ** simulation.go *)

Definition newEmptyWorldLike (w : World) : option World :=
  cells ← makeCells (Size w);
  Some (with_cells w cells).

(** [countEntities]: the two nested loops, [count++] with Go's addition. *)
Definition countEntities (w : World) (e : Entity) : option Z :=
  forM (fun row =>
    forM (fun col count =>
      c ← cell_at w row col;
      Some (if decide (entity c = e) then GoInt.add count 1 else count))
      (seqZ 0 (Size w)))
    (seqZ 0 (Size w)) 0.

(** What a rule decides for one occupant.  Every constructor is one group of
    assignments to [next.Cells] in [stepFish] and [stepShark]:
    - [Dies]: the early [return] of a starved shark, nothing is assigned;
    - [Stays c]: [next.Cells[row][col] = c];
    - [Moves nr nc c]: [next.Cells[nr][nc] = c];
    - [Breeds nr nc child parent]: [next.Cells[row][col] = child] and then
      [next.Cells[nr][nc] = parent]. *)
Inductive Outcome : Type :=
  | Dies
  | Stays (self : Cell)
  | Moves (nr nc : Z) (self : Cell)
  | Breeds (nr nc : Z) (child parent : Cell).

(** The assignments of an outcome, in the order the source performs them. *)
Definition writes_of (row col : Z) (o : Outcome) : list (Z * Z * Cell) :=
  match o with
  | Dies => []
  | Stays c => [(row, col, c)]
  | Moves nr nc c => [(nr, nc, c)]
  | Breeds nr nc child parent => [(row, col, child); (nr, nc, parent)]
  end.

Definition commit (next : World) (row col : Z) (o : Outcome) : option World :=
  forM (fun '(r, c, v) nxt => assign nxt r c v) (writes_of row col o) next.

(** The candidate loops of [stepFish] and [stepShark]:
    [if current.Cells[nr][nc].Entity == want && next.Cells[nr][nc].Entity == Empty]
    appends [(nr, nc)].  The right operand of [&&] is evaluated only when the
    left one holds. *)
Fixpoint candidates (want : Entity) (current next : World)
    (neighbors : list (Z * Z)) : option (list (Z * Z)) :=
  match neighbors with
  | [] => Some []
  | (nr, nc) :: rest =>
      c ← cell_at current nr nc;
      keep ← (if decide (entity c = want)
              then n ← cell_at next nr nc; Some (bool_decide (entity n = Empty))
              else Some false);
      found ← candidates want current next rest;
      Some (if keep : bool then (nr, nc) :: found else found)
  end.

(** [targets[rnd.Intn(len(targets))]] *)
Definition pick (targets : list (Z * Z)) (rnd : Rand) : option (Z * Z * Rand) :=
  '(k, rnd') ← Intn rnd (Z.of_nat (length targets));
  '(nr, nc) ← index targets k;
  Some (nr, nc, rnd').

Definition fishRule (current next : World) (row col : Z) (cfg : Config)
    (rnd : Rand) : option (Outcome * Rand) :=
  cell ← cell_at current row col;
  let neighbors := Neighbors current row col in
  emptySpots ← candidates Empty current next neighbors;
  if decide (length emptySpots = 0%nat) then
    Some (Stays {| entity := Fish; BreedTimer := GoInt.add (BreedTimer cell) 1;
                   Energy := 0 |}, rnd)
  else
    '(nr, nc, rnd') ← pick emptySpots rnd;
    if decide (GoInt.add (BreedTimer cell) 1 >= Cfg.FishBreed cfg) then
      Some (Breeds nr nc {| entity := Fish; BreedTimer := 0; Energy := 0 |}
                         {| entity := Fish; BreedTimer := 0; Energy := 0 |}, rnd')
    else
      Some (Moves nr nc {| entity := Fish;
                           BreedTimer := GoInt.add (BreedTimer cell) 1;
                           Energy := 0 |}, rnd').

Definition sharkRule (current next : World) (row col : Z) (cfg : Config)
    (rnd : Rand) : option (Outcome * Rand) :=
  cell ← cell_at current row col;
  let newEnergy := GoInt.sub (Energy cell) 1 in
  if decide (newEnergy <= 0) then Some (Dies, rnd)
  else
    let neighbors := Neighbors current row col in
    fishTarget ← candidates Fish current next neighbors;
    if decide (0 < length fishTarget)%nat then
      '(nr, nc, rnd') ← pick fishTarget rnd;
      if decide (GoInt.add (BreedTimer cell) 1 >= Cfg.SharkBreed cfg) then
        Some (Breeds nr nc
                {| entity := Shark; BreedTimer := 0; Energy := Cfg.Starve cfg |}
                {| entity := Shark; BreedTimer := 0; Energy := Cfg.Starve cfg |},
              rnd')
      else
        Some (Moves nr nc
                {| entity := Shark; BreedTimer := GoInt.add (BreedTimer cell) 1;
                   Energy := Cfg.Starve cfg |}, rnd')
    else
      emptyTarget ← candidates Empty current next neighbors;
      if decide (0 < length emptyTarget)%nat then
        '(nr, nc, rnd') ← pick emptyTarget rnd;
        if decide (GoInt.add (BreedTimer cell) 1 >= Cfg.SharkBreed cfg) then
          Some (Breeds nr nc
                  {| entity := Shark; BreedTimer := 0; Energy := Cfg.Starve cfg |}
                  {| entity := Shark; BreedTimer := 0; Energy := newEnergy |},
                rnd')
        else
          Some (Moves nr nc
                  {| entity := Shark; BreedTimer := GoInt.add (BreedTimer cell) 1;
                     Energy := newEnergy |}, rnd')
      else
        Some (Stays {| entity := Shark;
                       BreedTimer := GoInt.add (BreedTimer cell) 1;
                       Energy := newEnergy |}, rnd).

(** [stepFish] and [stepShark] mutate [next] and advance [rnd]; the outcome
    is returned along with them for the record of the step. *)
Definition stepFish (current next : World) (row col : Z) (cfg : Config)
    (rnd : Rand) : option (World * Rand * Outcome) :=
  '(o, rnd') ← fishRule current next row col cfg rnd;
  next' ← commit next row col o;
  Some (next', rnd', o).

Definition stepShark (current next : World) (row col : Z) (cfg : Config)
    (rnd : Rand) : option (World * Rand * Outcome) :=
  '(o, rnd') ← sharkRule current next row col cfg rnd;
  next' ← commit next row col o;
  Some (next', rnd', o).

(** One rule evaluation of a step: where, and what was decided. *)
Definition Event : Type := Z * Z * Outcome.

(** The state of the loops of [StepWorld]: the grid under construction, the
    random source, and the record of the rule evaluations so far. *)
Definition Staging : Type := World * Rand * list Event.

(** The body of the inner loop of [StepWorld]. *)
Definition visit (w : World) (cfg : Config) (row col : Z) (st : Staging)
  : option Staging :=
  let '(next, rnd, events) := st in
  n ← cell_at next row col;
  if decide (entity n ≠ Empty) then Some st   (* prevent double-processing *)
  else
    cell ← cell_at w row col;
    match entity cell with
    | Fish =>
        '(next', rnd', o) ← stepFish w next row col cfg rnd;
        Some (next', rnd', events ++ [(row, col, o)])
    | Shark =>
        '(next', rnd', o) ← stepShark w next row col cfg rnd;
        Some (next', rnd', events ++ [(row, col, o)])
    | Empty => Some st
    end.

Definition StepWorld_run (w : World) (cfg : Config) (rnd : Rand)
  : option Staging :=
  next ← newEmptyWorldLike w;
  forM (fun row => forM (fun col => visit w cfg row col) (seqZ 0 (Size w)))
       (seqZ 0 (Size w)) (next, rnd, []).

Definition StepWorld (w : World) (cfg : Config) (rnd : Rand)
  : option (World * Rand) :=
  '(next, rnd', _) ← StepWorld_run w cfg rnd;
  Some (next, rnd').

(** ** Standard output and the ways a computation ends *)

(** How a computation that prints ends: it returns, it panics, it calls
    [os.Exit], or, for a loop that is run with fuel, the fuel ran out before
    the loop was left. *)
Inductive Ending (A : Type) : Type :=
  | Returns (a : A)
  | Panics
  | Exits (code : Z)
  | Pending.

Arguments Returns {A} a.
Arguments Panics {A}.
Arguments Exits {A} code.
Arguments Pending {A}.

(** The text written to standard output, and the ending.  What was printed
    before a panic or an exit stays printed. *)
Definition Proc (A : Type) : Type := string * Ending A.

#[global] Instance Proc_ret : MRet Proc := fun A a => (EmptyString, Returns a).

#[global] Instance Proc_bind : MBind Proc := fun A B f m =>
  match m.2 with
  | Returns a => ((m.1 ++ (f a).1)%string, (f a).2)
  | Panics => (m.1, Panics)
  | Exits code => (m.1, Exits code)
  | Pending => (m.1, Pending)
  end.

(** A computation of the grid model inside a printing one. *)
Definition lift {A : Type} (o : option A) : Proc A :=
  match o with
  | Some a => mret a
  | None => (EmptyString, Panics)
  end.

Definition newline : string := String (ascii_of_nat 10) EmptyString.

(** [fmt.Print(s)] and [fmt.Println(s)] *)
Definition Print (s : string) : Proc unit := (s, Returns tt).
Definition Println (s : string) : Proc unit := ((s ++ newline)%string, Returns tt).

(** [os.Exit(code)] *)
Definition Exit {A : Type} (code : Z) : Proc A := (EmptyString, Exits code).

(** The verb [%d]. *)
Definition itoa (z : Z) : string := NilZero.string_of_int (Z.to_int z).

(** [for _, x := range l { body x }] *)
Fixpoint forP {A : Type} (body : A -> Proc unit) (l : list A) : Proc unit :=
  match l with
  | [] => mret tt
  | x :: l' => _ ← body x; forP body l'
  end.

(** ** simulation.go: drawing and the main loop *)

Definition glyph (e : Entity) : string :=
  match e with
  | Empty => "."
  | Fish => "F"
  | Shark => "S"
  end.

(** The arguments of the last [Printf], the two calls of [countEntities],
    are evaluated after the grid is printed. *)
Definition drawWorld (w : World) (chronon : Z) : Proc unit :=
  _ ← Print ("Chronon: " ++ itoa chronon ++ newline);
  _ ← forP (fun row =>
         _ ← forP (fun col =>
                cell ← lift (cell_at w row col);
                Print (glyph (entity cell)))
              (seqZ 0 (Size w));
         Println EmptyString)
       (seqZ 0 (Size w));
  fish ← lift (countEntities w Fish);
  sharks ← lift (countEntities w Shark);
  _ ← Print ("Fish: " ++ itoa fish ++ "  Sharks: " ++ itoa sharks ++ newline);
  Println EmptyString.

(** The loop of [RunSimulation].  [fuel] bounds the number of chronons that
    are simulated; the world and the chronon at the [break] are returned for
    the statements about the run. *)
Fixpoint RunSimulation_loop (fuel : nat) (cfg : Config) (w : World)
    (rnd : Rand) (chronon : Z) : Proc (World * Z) :=
  match fuel with
  | O => (EmptyString, Pending)
  | S fuel' =>
      let chronon := GoInt.add chronon 1 in
      '(w, rnd) ← lift (StepWorld w cfg rnd);
      _ ← (if decide (Cfg.DrawEvery cfg > 0 /\
                      Z.rem chronon (Cfg.DrawEvery cfg) = 0)
           then drawWorld w chronon else mret tt);
      fish ← lift (countEntities w Fish);
      if decide (fish = 0) then
        _ ← Println "All fish extinct. Simulation ending."; mret (w, chronon)
      else
        sharks ← lift (countEntities w Shark);
        if decide (sharks = 0) then
          _ ← Println "All sharks extinct. Simulation ending."; mret (w, chronon)
        else if decide (Cfg.Chronons cfg > 0 /\ chronon >= Cfg.Chronons cfg) then
          _ ← Println "Reached chronon limit."; mret (w, chronon)
        else RunSimulation_loop fuel' cfg w rnd chronon
  end.

(** [rnd] is the source that [RunSimulation] seeds from the clock. *)
Definition RunSimulation (fuel : nat) (cfg : Config) (w : World) (rnd : Rand)
  : Proc (World * Z) :=
  RunSimulation_loop fuel cfg w rnd 0.

(** ** main.go *)

(** The verb [%+v] on a [Config]. *)
Definition show_Config (cfg : Config) : string :=
  ("{NumShark:" ++ itoa (Cfg.NumShark cfg) ++
   " NumFish:" ++ itoa (Cfg.NumFish cfg) ++
   " FishBreed:" ++ itoa (Cfg.FishBreed cfg) ++
   " SharkBreed:" ++ itoa (Cfg.SharkBreed cfg) ++
   " Starve:" ++ itoa (Cfg.Starve cfg) ++
   " GridSize:" ++ itoa (Cfg.GridSize cfg) ++
   " Threads:" ++ itoa (Cfg.Threads cfg) ++
   " Chronons:" ++ itoa (Cfg.Chronons cfg) ++
   " DrawEvery:" ++ itoa (Cfg.DrawEvery cfg) ++
   " BenchFile:" ++ Cfg.BenchFile cfg ++ "}")%string.

(** [fmt.Println(msg); os.Exit(1)] *)
Definition die {A : Type} (msg : string) : Proc A :=
  _ ← Println msg; Exit 1.

(** [if bad { fmt.Println(msg); os.Exit(1) }] *)
Definition check (bad : Prop) `{Decision bad} (msg : string) : Proc unit :=
  if decide bad then die msg else mret tt.

Section main.

(** [strconv.Atoi]; [None] is a non-nil [err]. *)
Variable Atoi : string -> option Z.

(** [n, err := strconv.Atoi(args[i])], with the exit on [err != nil]. *)
Definition argument (args : list string) (i : nat) (msg : string) : Proc Z :=
  s ← lift (args !! i);
  match Atoi s with
  | Some n => mret n
  | None => die msg
  end.

(** [main] after [flag.Parse()]: the values of the three flags and the
    positional arguments are given.  [global] is the global source of
    math/rand, which [Populate] draws from, [rnd] the source that
    [RunSimulation] seeds from the clock, and [fuel] bounds the chronons. *)
Definition main (chrononsFlag drawFlag : Z) (benchFlag : string)
    (args : list string) (global rnd : Rand) (fuel : nat) : Proc unit :=
  _ ← check (length args < 7)%nat
        "Usage: wa-tor NumShark NumFish FishBreed SharkBreed Starve GridSize Threads";
  numShark ← argument args 0 "Error: NumShark must be an integer.";
  numFish ← argument args 1 "Error: NumFish must be an integer.";
  fishBreed ← argument args 2 "Error: FishBreed must be an integer.";
  sharkBreed ← argument args 3 "Error: SharkBreed must be an integer.";
  starve ← argument args 4 "Error: Starve must be an integer.";
  gridSize ← argument args 5 "Error: GridSize must be an integer.";
  threads ← argument args 6 "Error: Threads must be an integer.";
  _ ← check (numShark < 0) "Error: NumShark must be 0 or greater.";
  _ ← check (numFish < 0) "Error: NumFish must be 0 or greater.";
  _ ← check (fishBreed <= 0) "Error: FishBreed must be greater than 0.";
  _ ← check (sharkBreed <= 0) "Error: SharkBreed must be greater than 0.";
  _ ← check (starve <= 0) "Error: Starve must be greater than 0.";
  _ ← check (gridSize <= 1) "Error: GridSize must be greater than 1.";
  _ ← check (threads < 1) "Error: Threads must be 1 or greater.";
  let cfg := {| Cfg.NumShark := numShark; Cfg.NumFish := numFish;
                Cfg.FishBreed := fishBreed; Cfg.SharkBreed := sharkBreed;
                Cfg.Starve := starve; Cfg.GridSize := gridSize;
                Cfg.Threads := threads; Cfg.Chronons := chrononsFlag;
                Cfg.DrawEvery := drawFlag; Cfg.BenchFile := benchFlag |} in
  _ ← Print ("Loaded configuration: " ++ show_Config cfg ++ newline);
  world ← lift (NewWorld cfg);
  '(world, _) ← lift (Populate world (Cfg.NumFish cfg) (Cfg.NumShark cfg) global);
  _ ← RunSimulation fuel cfg world rnd;
  mret tt.

End main.

(** ** The variant with goroutines (the simulation.go that uses sync)

    [StepWorld] splits the rows among [cfg.Threads] goroutines.  The rules
    read the current world only, and every group of assignments to [next] is
    made with the mutex held.  The names of this variant are in the module
    [Goroutines]. *)

Module Goroutines.

(** The candidate loops: [if current.Cells[nr][nc].Entity == want]. *)
Fixpoint spots (want : Entity) (current : World) (neighbors : list (Z * Z))
  : option (list (Z * Z)) :=
  match neighbors with
  | [] => Some []
  | (nr, nc) :: rest =>
      c ← cell_at current nr nc;
      found ← spots want current rest;
      Some (if decide (entity c = want) then (nr, nc) :: found else found)
  end.

Definition fishRule (current : World) (row col : Z) (cfg : Config)
    (rnd : Rand) : option (Outcome * Rand) :=
  cell ← cell_at current row col;
  let neighbors := Neighbors current row col in
  emptySpots ← spots Empty current neighbors;
  if decide (length emptySpots = 0%nat) then
    Some (Stays {| entity := Fish; BreedTimer := GoInt.add (BreedTimer cell) 1;
                   Energy := 0 |}, rnd)
  else
    '(nr, nc, rnd') ← pick emptySpots rnd;
    if decide (GoInt.add (BreedTimer cell) 1 >= Cfg.FishBreed cfg) then
      Some (Breeds nr nc {| entity := Fish; BreedTimer := 0; Energy := 0 |}
                         {| entity := Fish; BreedTimer := 0; Energy := 0 |}, rnd')
    else
      Some (Moves nr nc {| entity := Fish;
                           BreedTimer := GoInt.add (BreedTimer cell) 1;
                           Energy := 0 |}, rnd').

(** [/ 2] is Go's division, which truncates: [Z.quot]. *)
Definition sharkRule (current : World) (row col : Z) (cfg : Config)
    (rnd : Rand) : option (Outcome * Rand) :=
  cell ← cell_at current row col;
  let newEnergy := GoInt.sub (Energy cell) 1 in
  if decide (newEnergy <= 0) then Some (Dies, rnd)
  else
    let neighbors := Neighbors current row col in
    fishTargets ← spots Fish current neighbors;
    if decide (0 < length fishTargets)%nat then
      '(nr, nc, rnd') ← pick fishTargets rnd;
      let gainedEnergy := Cfg.Starve cfg in
      if decide (GoInt.add (BreedTimer cell) 1 >= Cfg.SharkBreed cfg) then
        Some (Breeds nr nc
                {| entity := Shark; BreedTimer := 0;
                   Energy := Z.quot gainedEnergy 2 |}
                {| entity := Shark; BreedTimer := 0; Energy := gainedEnergy |},
              rnd')
      else
        Some (Moves nr nc
                {| entity := Shark; BreedTimer := GoInt.add (BreedTimer cell) 1;
                   Energy := gainedEnergy |}, rnd')
    else
      emptyTargets ← spots Empty current neighbors;
      if decide (0 < length emptyTargets)%nat then
        '(nr, nc, rnd') ← pick emptyTargets rnd;
        if decide (GoInt.add (BreedTimer cell) 1 >= Cfg.SharkBreed cfg) then
          Some (Breeds nr nc
                  {| entity := Shark; BreedTimer := 0;
                     Energy := Z.quot newEnergy 2 |}
                  {| entity := Shark; BreedTimer := 0; Energy := newEnergy |},
                rnd')
        else
          Some (Moves nr nc
                  {| entity := Shark; BreedTimer := GoInt.add (BreedTimer cell) 1;
                     Energy := newEnergy |}, rnd')
      else
        Some (Stays {| entity := Shark;
                       BreedTimer := GoInt.add (BreedTimer cell) 1;
                       Energy := newEnergy |}, rnd).

(** The number of goroutines: [cfg.Threads], at least 1 and at most
    [w.Size]. *)
Definition threads_of (size threads : Z) : Z :=
  let threads := if decide (threads < 1) then 1 else threads in
  if decide (threads > size) then size else threads.

(** The loop that starts the goroutines: the arguments [(start, end)] of the
    goroutine of every [t]. *)
Fixpoint spans (ts : list Z) (startRow rowsPerThread remainder : Z)
  : list (Z * Z) :=
  match ts with
  | [] => []
  | t :: ts' =>
      let extra := if decide (t < remainder) then 1 else 0 in
      let endRow := GoInt.add (GoInt.add startRow rowsPerThread) extra in
      (startRow, endRow) :: spans ts' endRow rowsPerThread remainder
  end.

(** The rows of the goroutines.  [w.Size / threads] panics when [threads]
    is 0; Go's [/] and [%] truncate. *)
Definition rowRanges (size threads : Z) : option (list (Z * Z)) :=
  let threads := threads_of size threads in
  if decide (threads = 0) then None
  else
    let rowsPerThread := Z.quot size threads in
    let remainder := Z.rem size threads in
    Some (spans (seqZ 0 threads) 0 rowsPerThread remainder).

(** The body of the inner loop of a goroutine: the rule of the occupant is
    evaluated on [w], and its assignments wait in the log of the
    goroutine. *)
Definition visit (w : World) (cfg : Config) (row col : Z)
    (st : Rand * list Event) : option (Rand * list Event) :=
  let '(rnd, log) := st in
  cell ← cell_at w row col;
  match entity cell with
  | Empty => Some st
  | Fish =>
      '(o, rnd') ← fishRule w row col cfg rnd;
      Some (rnd', log ++ [(row, col, o)])
  | Shark =>
      '(o, rnd') ← sharkRule w row col cfg rnd;
      Some (rnd', log ++ [(row, col, o)])
  end.

(** One goroutine: the rows from [start] to [end - 1], with the source
    [localRnd] of its own.  The result is the groups of assignments it makes
    with the mutex held, in the order it makes them. *)
Definition goroutine (w : World) (cfg : Config) (localRnd : Rand)
    (range : Z * Z) : option (list Event) :=
  st ← forM (fun row => forM (fun col => visit w cfg row col) (seqZ 0 (Size w)))
            (seqZ range.1 (range.2 - range.1)) (localRnd, []);
  Some st.2.

(** The orders in which the goroutines can take the mutex: every log is
    gone through in its own order. *)
Inductive interleaving {A : Type} : list (list A) -> list A -> Prop :=
  | interleaving_done logs :
      Forall (fun log => log = []) logs -> interleaving logs []
  | interleaving_next logs (t : nat) x log merged :
      logs !! t = Some (x :: log) ->
      interleaving (<[t := log]> logs) merged ->
      interleaving logs (x :: merged).

(** The logs of the goroutines of one step.  [sources t] is the source that
    goroutine [t] seeds from the clock. *)
Definition logs_of (w : World) (cfg : Config) (sources : nat -> Rand)
  : option (World * list (list Event)) :=
  next ← newEmptyWorldLike w;
  ranges ← rowRanges (Size w) (Cfg.Threads cfg);
  logs ← mapM (fun '(t, range) => goroutine w cfg (sources t) range)
              (imap (fun t range => (t, range)) ranges);
  Some (next, logs).

(** The assignments of the logs, in the order [merged]. *)
Definition write_all (next : World) (merged : list Event) : option World :=
  forM (fun '(row, col, o) nxt => commit nxt row col o) merged next.

(** [StepWorld w cfg sources result]: a step can end with [result], which is
    [None] for a panic.  The parameter [rnd] of the source is not used. *)
Inductive StepWorld (w : World) (cfg : Config) (sources : nat -> Rand)
  : option World -> Prop :=
  | StepWorld_panics :
      logs_of w cfg sources = None -> StepWorld w cfg sources None
  | StepWorld_merges next logs merged :
      logs_of w cfg sources = Some (next, logs) ->
      interleaving logs merged ->
      StepWorld w cfg sources (write_all next merged).

End Goroutines.

(** * Specification vocabulary *)

(** ** Grids *)

(** A grid of [Size w] rows of [Size w] cells, as [NewWorld] builds it. *)
Definition square (w : World) : Prop :=
  0 <= Size w <= GoInt.int_max /\
  length (Cells w) = Z.to_nat (Size w) /\
  Forall (fun row => length row = Z.to_nat (Size w)) (Cells w).

(** The limit of the allocator of the Go runtime on the 64-bit platforms with
    48 address bits: [make] panics when the slice would take more bytes. *)
Definition maxAlloc : Z := 2 ^ 48.

(** A side whose grid fits the address space: the cells take 24 bytes each,
    and so do the slice headers of the rows; a coordinate of [Populate] takes
    16.  No [make] of the program is refused for such a side. *)
Definition allocatable (size : Z) : Prop :=
  0 <= size /\ 24 * (size * size) <= maxAlloc.

Definition in_grid (w : World) (p : Z * Z) : Prop :=
  (0 <= p.1 < Size w) /\ (0 <= p.2 < Size w).

(** The two grids of a step: same side, and the coordinate is inside. *)
Definition staged (current next : World) (row col : Z) : Prop :=
  square current /\ square next /\ Size next = Size current /\
  in_grid current (row, col).

(** The grid under construction has the shape of [w]. *)
Definition shaped (w : World) (st : Staging) : Prop :=
  square st.1.1 /\ Size st.1.1 = Size w.

(** The cell of [w] at [p] holds entity [e]. *)
Definition holds (w : World) (e : Entity) (p : Z * Z) : Prop :=
  exists c, cell_at w p.1 p.2 = Some c /\ entity c = e.

#[global] Instance holds_dec (w : World) (e : Entity) (p : Z * Z) :
  Decision (holds w e p).
Proof.
  unfold holds. destruct (cell_at w p.1 p.2) as [c|].
  - destruct (decide (entity c = e)) as [Heq|Hne].
    + left. eauto.
    + right. intros (c' & [= <-] & Hc). done.
  - right. intros (c' & [=] & _).
Defined.

Definition occupied (w : World) (p : Z * Z) : Prop :=
  holds w Fish p \/ holds w Shark p.

(** The number of cells of [w] that hold [e]: what the two loops of
    [countEntities] count. *)
Definition census (w : World) (e : Entity) : nat :=
  length (filter (holds w e) (all_positions (Size w))).

Definition organisms (w : World) : nat := (census w Fish + census w Shark)%nat.

(** ** Rules and their outcomes *)

(** A neighbour is a candidate when it holds [want] in the current grid and
    nothing has been written to it in the next grid. *)
Definition free (want : Entity) (current next : World) (p : Z * Z) : Prop :=
  holds current want p /\ holds next Empty p.

#[global] Instance free_dec want current next p :
  Decision (free want current next p).
Proof. unfold free. apply _. Defined.

(** The element that [pick] selects. *)
Definition chosen (targets : list (Z * Z)) (rnd : Rand) : Z * Z :=
  nth (Z.to_nat (rnd 0%nat `mod` Z.of_nat (length targets))) targets (0, 0).

(** What [fishRule] returns, branch by branch. *)
Definition fish_decision (current next : World) (row col : Z) (cfg : Config)
    (rnd : Rand) (cell : Cell) (o : Outcome) (rnd' : Rand) : Prop :=
  let emptySpots := filter (free Empty current next) (Neighbors current row col) in
  let timer := GoInt.add (BreedTimer cell) 1 in
  if decide (emptySpots = []) then
    o = Stays (mkCell Fish timer 0) /\ rnd' = rnd
  else
    rnd' = advance rnd /\
    o = let '(nr, nc) := chosen emptySpots rnd in
        if decide (timer >= Cfg.FishBreed cfg)
        then Breeds nr nc (mkCell Fish 0 0) (mkCell Fish 0 0)
        else Moves nr nc (mkCell Fish timer 0).

(** What [sharkRule] returns, branch by branch. *)
Definition shark_decision (current next : World) (row col : Z) (cfg : Config)
    (rnd : Rand) (cell : Cell) (o : Outcome) (rnd' : Rand) : Prop :=
  let fishTarget := filter (free Fish current next) (Neighbors current row col) in
  let emptyTarget := filter (free Empty current next) (Neighbors current row col) in
  let timer := GoInt.add (BreedTimer cell) 1 in
  let newEnergy := GoInt.sub (Energy cell) 1 in
  if decide (newEnergy <= 0) then o = Dies /\ rnd' = rnd
  else if decide (fishTarget <> []) then
    rnd' = advance rnd /\
    o = let '(nr, nc) := chosen fishTarget rnd in
        if decide (timer >= Cfg.SharkBreed cfg)
        then Breeds nr nc (mkCell Shark 0 (Cfg.Starve cfg))
                          (mkCell Shark 0 (Cfg.Starve cfg))
        else Moves nr nc (mkCell Shark timer (Cfg.Starve cfg))
  else if decide (emptyTarget <> []) then
    rnd' = advance rnd /\
    o = let '(nr, nc) := chosen emptyTarget rnd in
        if decide (timer >= Cfg.SharkBreed cfg)
        then Breeds nr nc (mkCell Shark 0 (Cfg.Starve cfg))
                          (mkCell Shark 0 newEnergy)
        else Moves nr nc (mkCell Shark timer newEnergy)
  else o = Stays (mkCell Shark timer newEnergy) /\ rnd' = rnd.

Definition destination (o : Outcome) : option (Z * Z) :=
  match o with
  | Moves nr nc _ | Breeds nr nc _ _ => Some (nr, nc)
  | Dies | Stays _ => None
  end.

#[global] Instance Outcome_eq_dec : EqDecision Outcome.
Proof. solve_decision. Defined.

Definition is_breed (o : Outcome) : Prop :=
  match o with Breeds _ _ _ _ => True | _ => False end.

#[global] Instance is_breed_dec o : Decision (is_breed o).
Proof. destruct o; simpl; apply _. Defined.

(** The cell that a sequence of assignments leaves at [p], if any of them
    targets [p]: the last one wins. *)
Fixpoint written (ws : list (Z * Z * Cell)) (p : Z * Z) : option Cell :=
  match ws with
  | [] => None
  | (r, c, v) :: ws' =>
      match written ws' p with
      | Some v' => Some v'
      | None => if decide (p = (r, c)) then Some v else None
      end
  end.

(** An outcome whose writes all land on [Empty] cells of [next], with cells
    of entity [e]. *)
Definition lands (next : World) (row col : Z) (e : Entity) (o : Outcome) : Prop :=
  Forall (fun '(_, _, v) => entity v = e) (writes_of row col o) /\
  (o <> Dies -> holds next Empty (row, col)) /\
  (forall p, destination o = Some p -> holds next Empty p /\ p <> (row, col)).

(** The breed threshold of a species. *)
Definition threshold (cfg : Config) (e : Entity) : Z :=
  match e with
  | Fish => Cfg.FishBreed cfg
  | Shark => Cfg.SharkBreed cfg
  | Empty => 0
  end.

(** The timer rule for the writes of one event of an occupant [cell]: a
    breeding writes timer 0 twice and its incremented timer had reached the
    threshold; anything else writes the incremented timer, which is not 0. *)
Definition timer_rule (cfg : Config) (cell : Cell) (o : Outcome)
    (ws : list (Z * Z * Cell)) : Prop :=
  let timer := GoInt.add (BreedTimer cell) 1 in
  Forall (fun '(_, _, v) =>
            entity v = entity cell /\
            if decide (BreedTimer v = 0)
            then is_breed o /\ timer >= threshold cfg (entity cell)
            else ~ is_breed o /\ BreedTimer v = timer) ws.

(** ** The record of a step *)

(** An assignment that refuses to replace a [Fish] or a [Shark]. *)
Definition claim (next : World) (row col : Z) (v : Cell) : option World :=
  old ← cell_at next row col;
  if decide (entity old = Empty) then assign next row col v else None.

Definition commit_claiming (next : World) (row col : Z) (o : Outcome)
  : option World :=
  forM (fun '(r, c, v) nxt => claim nxt r c v) (writes_of row col o) next.

(** The whole record of a step, replayed with [claim] for every write. *)
Definition replay_claiming (next : World) (events : list Event) : option World :=
  forM (fun '(row, col, o) nxt => commit_claiming nxt row col o) events next.

(** The events of a step whose occupant is written into the next grid, and
    those that leave an offspring behind. *)
Definition survivors (events : list Event) : nat :=
  length (filter (fun ev : Event => ev.2 <> Dies) events).

Definition births (events : list Event) : nat :=
  length (filter (fun ev : Event => is_breed ev.2) events).

(** One iteration of the inner loop: the cell is skipped because something
    was already written there, or because it is [Empty] in [w], or one of the
    two rules runs and its outcome is committed and recorded. *)
Inductive visited (w : World) (cfg : Config) (row col : Z)
  : Staging -> Staging -> Prop :=
  | visited_written st :
      ~ holds st.1.1 Empty (row, col) -> visited w cfg row col st st
  | visited_empty st :
      holds w Empty (row, col) -> visited w cfg row col st st
  | visited_fish next rnd events cell o rnd' next' :
      staged w next row col ->
      holds next Empty (row, col) ->
      cell_at w row col = Some cell -> entity cell = Fish ->
      fish_decision w next row col cfg rnd cell o rnd' ->
      commit next row col o = Some next' ->
      visited w cfg row col (next, rnd, events)
                            (next', rnd', events ++ [(row, col, o)])
  | visited_shark next rnd events cell o rnd' next' :
      staged w next row col ->
      holds next Empty (row, col) ->
      cell_at w row col = Some cell -> entity cell = Shark ->
      shark_decision w next row col cfg rnd cell o rnd' ->
      commit next row col o = Some next' ->
      visited w cfg row col (next, rnd, events)
                            (next', rnd', events ++ [(row, col, o)]).

(** The iterations over a list of coordinates, in order. *)
Inductive run (w : World) (cfg : Config)
  : list (Z * Z) -> Staging -> Staging -> Prop :=
  | run_done st : run w cfg [] st st
  | run_visit row col ps st st' st'' :
      visited w cfg row col st st' -> run w cfg ps st' st'' ->
      run w cfg ((row, col) :: ps) st st''.

(** What one iteration of the loop adds to the record and to the grid. *)
Definition accounted (w : World) (ps : list (Z * Z)) (st st' : Staging) : Prop :=
  exists new : list Event,
    st'.2 = st.2 ++ new /\
    replay_claiming st.1.1 new = Some st'.1.1 /\
    organisms st'.1.1 = (organisms st.1.1 + survivors new + births new)%nat /\
    (length new <= length (filter (occupied w) ps))%nat /\
    shaped w st'.

(** An event of the record is justified when it is the decision of the rule
    of the occupant of its cell, taken against some next grid in which that
    cell was still [Empty]. *)
Definition justified (w : World) (cfg : Config) (ev : Event) : Prop :=
  let '(row, col, o) := ev in
  exists next rnd rnd' cell,
    staged w next row col /\ holds next Empty (row, col) /\
    cell_at w row col = Some cell /\
    ((entity cell = Fish /\ fish_decision w next row col cfg rnd cell o rnd') \/
     (entity cell = Shark /\ shark_decision w next row col cfg rnd cell o rnd')).

(** Every organism of the grid under construction is the value of a write
    of a recorded event. *)
Definition recorded (st : Staging) : Prop :=
  forall r c v, cell_at st.1.1 r c = Some v -> entity v <> Empty ->
    exists row col o, (row, col, o) ∈ st.2 /\ (r, c, v) ∈ writes_of row col o.

(** ** Runs of the simulation *)

(** The worlds of a run: [NewWorld] and [Populate], then any number of
    steps, whatever the random sources draw. *)
Inductive reachable (cfg : Config) : World -> Prop :=
  | reachable_populated w0 numFish numShark rnd w rnd' :
      NewWorld cfg = Some w0 ->
      Populate w0 numFish numShark rnd = Some (w, rnd') ->
      reachable cfg w
  | reachable_stepped w rnd w' rnd' :
      reachable cfg w ->
      StepWorld w cfg rnd = Some (w', rnd') ->
      reachable cfg w'.

(** Every shark has a positive energy, at most [cfg.Starve]. *)
Definition healthy (cfg : Config) (w : World) : Prop :=
  forall row col cell, cell_at w row col = Some cell -> entity cell = Shark ->
    0 < Energy cell <= Cfg.Starve cfg.

(** Two random sources that draw the same first [n] values: the same seed,
    as far as [n] draws can tell. *)
Definition same_prefix (n : nat) (r1 r2 : Rand) : Prop :=
  forall k, (k < n)%nat -> r1 k = r2 k.

(** Two configurations with the same rule parameters.  The other fields,
    [Threads] among them, are free. *)
Definition same_rules (cfg1 cfg2 : Config) : Prop :=
  Cfg.FishBreed cfg1 = Cfg.FishBreed cfg2 /\
  Cfg.SharkBreed cfg1 = Cfg.SharkBreed cfg2 /\
  Cfg.Starve cfg1 = Cfg.Starve cfg2.

(** Two runs of a computation that returns a value and a random source, one
    from the source [r1] and one from [r2], are the same run: both panic, or
    both return the same value after the same number of draws, [budget] at
    most. *)
Definition replayed {A : Type} (budget : nat) (r1 r2 : Rand)
    (x y : option (A * Rand)) : Prop :=
  match x, y with
  | Some (a, r1'), Some (b, r2') =>
      a = b /\
      exists m, (m <= budget)%nat /\
                r1' = Nat.iter m advance r1 /\ r2' = Nat.iter m advance r2
  | None, None => True
  | _, _ => False
  end.

(** The same for the state of the loops of [StepWorld]: the grid under
    construction and the record. *)
Definition replayed_staging (budget : nat) (r1 r2 : Rand)
    (x y : option Staging) : Prop :=
  replayed budget r1 r2
    ((fun st : Staging => (st.1.1, st.2, st.1.2)) <$> x)
    ((fun st : Staging => (st.1.1, st.2, st.1.2)) <$> y).

(** ** Scenarios *)

Definition fish (timer : Z) : Cell := mkCell Fish timer 0.
Definition shark (timer energy : Z) : Cell := mkCell Shark timer energy.

(** FishBreed 5, SharkBreed 5, Starve 6, one thread. *)
Definition cfg_slow (size : Z) : Config :=
  {| Cfg.NumShark := 0; Cfg.NumFish := 0; Cfg.FishBreed := 5;
     Cfg.SharkBreed := 5; Cfg.Starve := 6; Cfg.GridSize := size;
     Cfg.Threads := 1; Cfg.Chronons := 0; Cfg.DrawEvery := 0;
     Cfg.BenchFile := EmptyString |}.

Definition grid (size : Z) (cells : list (list Cell)) : World :=
  {| Size := size; Cells := cells; FishBreed := 5; SharkBreed := 5; Starve := 6 |}.

(** Three fish around the only empty cell of a 2 x 2 grid. *)
Definition crowded_pond : World :=
  grid 2 [ [fish 0; zeroCell];
           [fish 0; fish 0] ].

(** The next grid when [StepWorld] reaches the fish at (1, 1): the fish of
    (0, 0) has moved to (0, 1) and the fish of (1, 0) has stayed. *)
Definition crowded_pond_staging : World :=
  grid 2 [ [zeroCell; fish 1];
           [fish 1; zeroCell] ].

(** A shark about to breed, with a fish to its north. *)
Definition hunting_ground : World :=
  grid 3 [ [zeroCell; fish 0; zeroCell];
           [zeroCell; shark 4 3; zeroCell];
           [zeroCell; zeroCell; zeroCell] ].

(** A shark about to breed, alone. *)
Definition open_water : World :=
  grid 3 [ [zeroCell; zeroCell; zeroCell];
           [zeroCell; shark 4 5; zeroCell];
           [zeroCell; zeroCell; zeroCell] ].

Definition empty_grid (size : Z) : World :=
  grid size (replicate (Z.to_nat size) (replicate (Z.to_nat size) zeroCell)).

(** ** Tactics *)

(** Runs the [Some] at the head of a sequence of binds. *)
Ltac bind_step := cbn [mbind option_bind].

Tactic Notation "bind_step" "in" hyp(H) := cbn [mbind option_bind] in H.

(** Closes a [Forall] over an explicit list of writes. *)
Ltac each_write := repeat first [apply Forall_nil | constructor; [done|]].

(** Proves [square] and [staged] on a closed grid. *)
Ltac closed_grid :=
  repeat match goal with
         | |- staged _ _ _ _ => unfold staged
         | |- square _ => unfold square
         | |- in_grid _ _ => unfold in_grid
         | |- _ /\ _ => split
         | |- Forall _ _ => repeat constructor
         end;
  try (unfold GoInt.int_max; simpl; lia); try reflexivity.

(** ** Species of a step *)

(** The events of the record about the cells that hold [e] in [w]. *)
Definition events_of (w : World) (e : Entity) (events : list Event) : list Event :=
  filter (fun ev : Event => holds w e (ev.1.1, ev.1.2)) events.

(** The events whose occupant dies, and those whose occupant moves. *)
Definition deaths (events : list Event) : nat :=
  length (filter (fun ev : Event => ev.2 = Dies) events).

Definition moves (events : list Event) : nat :=
  length (filter (fun ev : Event => is_Some (destination ev.2)) events).

(** The random source after the rule that decided [o]: one value is drawn
    when the occupant moves. *)
Definition drawn (o : Outcome) (rnd : Rand) : Rand :=
  match destination o with Some _ => advance rnd | None => rnd end.

(** An iteration of the loop of [StepWorld] in which the rule of an occupant
    of species [e] decides [o]: the cell was still [Empty] in the next grid,
    the writes of [o] land on [Empty] cells, one value is drawn when the
    occupant moves, only a shark dies, and the destination held nothing in
    [w], or a fish when a shark moves there. *)
Definition ruled (w : World) (row col : Z) (e : Entity) (st st' : Staging)
    (o : Outcome) : Prop :=
  (e = Fish \/ e = Shark) /\
  holds w e (row, col) /\
  holds st.1.1 Empty (row, col) /\
  square st.1.1 /\
  lands st.1.1 row col e o /\
  commit st.1.1 row col o = Some st'.1.1 /\
  st'.2 = st.2 ++ [(row, col, o)] /\
  st'.1.2 = drawn o st.1.2 /\
  (o = Dies -> e = Shark) /\
  (forall p, destination o = Some p ->
     holds w Empty p \/ (e = Shark /\ holds w Fish p)).

(** What the iterations over [ps] add for the species [e]: the new events,
    the census of [e] in the next grid, at most one event per cell of [ps]
    that holds [e] in [w], and one draw per move; every event is about a
    fish or a shark of [w], and only sharks die. *)
Definition ledger (w : World) (e : Entity) (ps : list (Z * Z))
    (st st' : Staging) : Prop :=
  exists new : list Event,
    st'.2 = st.2 ++ new /\
    census st'.1.1 e =
      (census st.1.1 e + survivors (events_of w e new) + births (events_of w e new))%nat /\
    (length (events_of w e new) <= length (filter (holds w e) ps))%nat /\
    st'.1.2 = Nat.iter (moves new) advance st.1.2 /\
    Forall (fun ev : Event =>
              occupied w (ev.1.1, ev.1.2) /\
              (ev.2 = Dies -> holds w Shark (ev.1.1, ev.1.2))) new.

(** The worlds of a run after [n] chronons. *)
Inductive after (cfg : Config) : nat -> World -> Prop :=
  | after_populate w0 numFish numShark rnd w rnd' :
      NewWorld cfg = Some w0 ->
      Populate w0 numFish numShark rnd = Some (w, rnd') ->
      after cfg 0 w
  | after_step n w rnd w' rnd' :
      after cfg n w ->
      StepWorld w cfg rnd = Some (w', rnd') ->
      after cfg (S n) w'.

(** ** What is printed *)

(** The glyphs of one row of the grid, then of all rows, each closed by a
    newline. *)
Definition row_text (cells : list Cell) : string :=
  foldr (fun c s => (glyph (entity c) ++ s)%string) EmptyString cells.

Definition picture (w : World) : string :=
  foldr (fun cells s => ((row_text cells ++ newline) ++ s)%string) EmptyString
        (Cells w).

(** The frame of chronon [chronon]: the headline, the picture, the two
    counts and an empty line. *)
Definition frame (w : World) (chronon : Z) : string :=
  ("Chronon: " ++ itoa chronon ++ newline ++
   picture w ++
   "Fish: " ++ itoa (Z.of_nat (census w Fish)) ++
   "  Sharks: " ++ itoa (Z.of_nat (census w Shark)) ++ newline ++
   newline)%string.

(** ** Runs of [RunSimulation] *)

(** The worlds of the first [n] chronons from [w], one per chronon. *)
Fixpoint history (cfg : Config) (n : nat) (w : World) (rnd : Rand)
  : option (list World) :=
  match n with
  | O => Some []
  | S n' =>
      '(w1, rnd1) ← StepWorld w cfg rnd;
      ws ← history cfg n' w1 rnd1;
      Some (w1 :: ws)
  end.

(** A frame is due at the positive multiples of [cfg.DrawEvery]. *)
Definition due (cfg : Config) (chronon : Z) : Prop :=
  0 < Cfg.DrawEvery cfg /\ chronon `mod` Cfg.DrawEvery cfg = 0.

#[global] Instance due_dec cfg chronon : Decision (due cfg chronon).
Proof. unfold due. apply _. Defined.

(** The frames of the worlds [ws], the first of which is at chronon
    [chronon]. *)
Fixpoint frames (cfg : Config) (chronon : Z) (ws : list World) : string :=
  match ws with
  | [] => EmptyString
  | w :: ws' =>
      ((if decide (due cfg chronon) then frame w chronon else EmptyString) ++
       frames cfg (chronon + 1) ws')%string
  end.

(** Why the simulation stops at [w] in chronon [chronon], if it does. *)
Inductive Verdict : Type := FishExtinct | SharksExtinct | LimitReached.

Definition sentence (v : Verdict) : string :=
  match v with
  | FishExtinct => "All fish extinct. Simulation ending."
  | SharksExtinct => "All sharks extinct. Simulation ending."
  | LimitReached => "Reached chronon limit."
  end.

Definition verdict (cfg : Config) (w : World) (chronon : Z) : option Verdict :=
  if decide (census w Fish = 0%nat) then Some FishExtinct
  else if decide (census w Shark = 0%nat) then Some SharksExtinct
  else if decide (0 < Cfg.Chronons cfg <= chronon) then Some LimitReached
  else None.

(** The rules of [cfg_slow] on a grid of side [size], with a chronon limit
    and a drawing period. *)
Definition cfg_run (size chronons draw : Z) : Config :=
  {| Cfg.NumShark := 0; Cfg.NumFish := 0; Cfg.FishBreed := 5;
     Cfg.SharkBreed := 5; Cfg.Starve := 6; Cfg.GridSize := size;
     Cfg.Threads := 1; Cfg.Chronons := chronons; Cfg.DrawEvery := draw;
     Cfg.BenchFile := EmptyString |}.

(** ** The command line *)

(** The bounds that [main] puts on the seven integers, in the order of the
    command line: NumShark NumFish FishBreed SharkBreed Starve GridSize
    Threads. *)
Definition within_bounds (l : list Z) : Prop :=
  match l with
  | [numShark; numFish; fishBreed; sharkBreed; starve; gridSize; threads] =>
      0 <= numShark /\ 0 <= numFish /\ 0 < fishBreed /\ 0 < sharkBreed /\
      0 < starve /\ 1 < gridSize /\ 1 <= threads
  | _ => False
  end.

(** There are seven positional arguments or more, [Atoi] reads the first
    seven, and their values are within the bounds. *)
Definition accepted (Atoi : string -> option Z) (args : list string) : Prop :=
  exists l, mapM Atoi (take 7 args) = Some l /\ within_bounds l.

(** What [main] can say before it gives up. *)
Definition complaints : list string :=
  [ "Usage: wa-tor NumShark NumFish FishBreed SharkBreed Starve GridSize Threads";
    "Error: NumShark must be an integer.";
    "Error: NumFish must be an integer.";
    "Error: FishBreed must be an integer.";
    "Error: SharkBreed must be an integer.";
    "Error: Starve must be an integer.";
    "Error: GridSize must be an integer.";
    "Error: Threads must be an integer.";
    "Error: NumShark must be 0 or greater.";
    "Error: NumFish must be 0 or greater.";
    "Error: FishBreed must be greater than 0.";
    "Error: SharkBreed must be greater than 0.";
    "Error: Starve must be greater than 0.";
    "Error: GridSize must be greater than 1.";
    "Error: Threads must be 1 or greater." ]%string.

(** Finds the complaint that a run of [main] ends with. *)
Ltac complain :=
  eexists; split; [|reflexivity]; unfold complaints; repeat constructor.

(** [Atoi] for the scenarios: decimal digits, after a minus sign or not,
    within the range of [int]. *)
Definition read_decimal (s : string) : option Z :=
  d ← NilEmpty.int_of_string s;
  let n := Z.of_int d in
  if decide (GoInt.int_min <= n <= GoInt.int_max) then Some n else None.

(** ** The variant with goroutines *)

(** An outcome of the single-threaded shark rule with the offspring of the
    variant: when a shark breeds, the cell it leaves behind gets half the
    energy of the parent. *)
Definition halved (o : Outcome) : Outcome :=
  match o with
  | Breeds nr nc child parent =>
      Breeds nr nc
        {| entity := entity child; BreedTimer := BreedTimer child;
           Energy := Z.quot (Energy parent) 2 |}
        parent
  | _ => o
  end.

(** The coordinates that the events assign. *)
Definition targets (events : list Event) : list (Z * Z) :=
  ev ← events; (fun x : Z * Z * Cell => x.1) <$> writes_of ev.1.1 ev.1.2 ev.2.

(** The rules of [cfg_slow] with [threads] goroutines. *)
Definition cfg_threads (size threads : Z) : Config :=
  {| Cfg.NumShark := 0; Cfg.NumFish := 0; Cfg.FishBreed := 5;
     Cfg.SharkBreed := 5; Cfg.Starve := 6; Cfg.GridSize := size;
     Cfg.Threads := threads; Cfg.Chronons := 0; Cfg.DrawEvery := 0;
     Cfg.BenchFile := EmptyString |}.

(** * Properties *)

(** ** Machine integers *)

Lemma wrap_int_id (z : Z) : GoInt.is_int z -> GoInt.wrap_int z = z.
Proof.
  unfold GoInt.is_int, GoInt.wrap_int, GoInt.int_min, GoInt.int_max.
  intros H. rewrite Z.mod_small; lia.
Qed.

Lemma wrap_int_range (z : Z) : GoInt.is_int (GoInt.wrap_int z).
Proof.
  unfold GoInt.is_int, GoInt.wrap_int, GoInt.int_min, GoInt.int_max.
  pose proof (Z.mod_pos_bound (z + 2 ^ 63) (2 ^ 64)). lia.
Qed.

Lemma add_exact (a b : Z) : GoInt.is_int (a + b) -> GoInt.add a b = a + b.
Proof. apply wrap_int_id. Qed.

Lemma sub_exact (a b : Z) : GoInt.is_int (a - b) -> GoInt.sub a b = a - b.
Proof. apply wrap_int_id. Qed.

(** Incrementing a non-negative [int] never gives zero, also when it wraps. *)
Lemma add_1_nonzero (a : Z) : 0 <= a <= GoInt.int_max -> GoInt.add a 1 <> 0.
Proof.
  intros H. destruct (decide (a = GoInt.int_max)) as [->|].
  - vm_compute. discriminate.
  - rewrite add_exact; [lia|].
    unfold GoInt.is_int, GoInt.int_min, GoInt.int_max in *. lia.
Qed.

(** ** Grids *)

Lemma index_Some {A : Type} (l : list A) (i : Z) (x : A) :
  index l i = Some x <-> 0 <= i /\ l !! Z.to_nat i = Some x.
Proof.
  unfold index. destruct (decide (0 <= i)); [tauto|].
  split; [done | intros [? _]; lia].
Qed.

Lemma index_in_range {A : Type} (l : list A) (i : Z) :
  is_Some (index l i) <-> 0 <= i < Z.of_nat (length l).
Proof.
  unfold index. case_decide.
  - rewrite lookup_lt_is_Some. lia.
  - split; [intros [? ?]; discriminate | lia].
Qed.

Lemma cell_at_Some (w : World) (row col : Z) (x : Cell) :
  cell_at w row col = Some x <->
  exists cells, index (Cells w) row = Some cells /\ index cells col = Some x.
Proof.
  unfold cell_at. destruct (index (Cells w) row) as [cells|]; simpl.
  - split; [eauto | intros (? & [= <-] & ?); done].
  - split; [done | intros (? & [=] & _)].
Qed.

Lemma square_row (w : World) (row : Z) (cells : list Cell) :
  square w -> index (Cells w) row = Some cells ->
  length cells = Z.to_nat (Size w).
Proof.
  intros (_ & _ & Hrows) [_ Hl]%index_Some.
  eapply Forall_lookup_1 in Hrows; eauto.
Qed.

Lemma cell_at_in_grid (w : World) (row col : Z) :
  square w -> is_Some (cell_at w row col) <-> in_grid w (row, col).
Proof.
  intros Hsq. unfold in_grid; simpl. split.
  - intros [x (cells & Hr & Hc)%cell_at_Some].
    pose proof (square_row _ _ _ Hsq Hr) as Hlen.
    assert (is_Some (index (Cells w) row)) as Hr'%index_in_range by eauto.
    assert (is_Some (index cells col)) as Hc'%index_in_range by eauto.
    destruct Hsq as (? & Hl & _). lia.
  - intros [Hr Hc].
    destruct (proj2 (index_in_range (Cells w) row)) as [cells Hcells].
    { destruct Hsq as (? & Hl & _). lia. }
    pose proof (square_row _ _ _ Hsq Hcells) as Hlen.
    destruct (proj2 (index_in_range cells col)) as [x Hx]; [lia|].
    exists x. apply cell_at_Some. eauto.
Qed.

Lemma cell_at_assign (w w' : World) (row col : Z) (v : Cell) :
  assign w row col v = Some w' ->
  cell_at w' row col = Some v /\
  (forall r c, (r, c) <> (row, col) -> cell_at w' r c = cell_at w r c).
Proof.
  unfold assign. intros H.
  destruct (index (Cells w) row) as [cells|] eqn:Hr; simpl in H; [|done].
  destruct (index cells col) as [old|] eqn:Hc; simpl in H; [|done].
  injection H as <-.
  apply index_Some in Hr as [Hr0 Hr], Hc as [Hc0 Hc].
  split.
  - apply cell_at_Some. exists (<[Z.to_nat col := v]> cells). split.
    + apply index_Some. split; [done|]. simpl.
      apply list_lookup_insert_eq. by eapply lookup_lt_Some.
    + apply index_Some. split; [done|].
      apply list_lookup_insert_eq. by eapply lookup_lt_Some.
  - intros r c Hne. unfold cell_at, index; simpl.
    destruct (decide (0 <= r)); [|done].
    destruct (decide (Z.to_nat row = Z.to_nat r)) as [Heq|Hneq].
    + assert (r = row) as -> by lia.
      rewrite list_lookup_insert_eq by (by eapply lookup_lt_Some).
      rewrite Hr. simpl.
      destruct (decide (0 <= c)); [|done].
      rewrite list_lookup_insert_ne; [done|].
      intros Heq'. apply Hne. f_equal. lia.
    + by rewrite list_lookup_insert_ne.
Qed.

Lemma assign_shape (w w' : World) (row col : Z) (v : Cell) :
  assign w row col v = Some w' ->
  Size w' = Size w /\ FishBreed w' = FishBreed w /\
  SharkBreed w' = SharkBreed w /\ Starve w' = Starve w /\
  (square w -> square w').
Proof.
  unfold assign. intros H.
  destruct (index (Cells w) row) as [cells|] eqn:Hr; simpl in H; [|done].
  destruct (index cells col) as [old|] eqn:Hc; simpl in H; [|done].
  injection H as <-. unfold with_cells, square; cbn [Size Cells FishBreed SharkBreed Starve].
  split_and!; try done.
  intros Hsq. pose proof (square_row _ _ _ Hsq Hr) as Hlen.
  destruct Hsq as (Hs & Hl & Hrows). split_and!; try lia.
  - by rewrite length_insert.
  - apply Forall_insert; [done|]. by rewrite length_insert.
Qed.

Lemma assign_is_Some (w : World) (row col : Z) (v : Cell) :
  is_Some (cell_at w row col) -> is_Some (assign w row col v).
Proof.
  intros [x (cells & Hr & Hc)%cell_at_Some]. unfold assign.
  rewrite Hr; simpl. rewrite Hc; simpl. eauto.
Qed.

(** ** Toroidal neighbourhood *)

Lemma wrap_one_step (w : World) (i : Z) :
  1 <= Size w <= GoInt.int_max -> -1 <= i <= Size w ->
  wrap w i = (if decide (i < 0) then i + Size w
              else if decide (i >= Size w) then i - Size w else i) /\
  0 <= wrap w i < Size w.
Proof.
  intros Hs Hi. unfold wrap.
  assert (GoInt.int_max = 2 ^ 63 - 1) as Hmax by reflexivity.
  repeat case_decide.
  - rewrite add_exact; [lia|]. unfold GoInt.is_int, GoInt.int_min. lia.
  - rewrite sub_exact; [lia|]. unfold GoInt.is_int, GoInt.int_min. lia.
  - lia.
Qed.

Lemma Neighbors_mod (w : World) (row col : Z) :
  1 <= Size w <= GoInt.int_max -> 0 <= row < Size w -> 0 <= col < Size w ->
  Neighbors w row col =
    [ ((row - 1) `mod` Size w, col); ((row + 1) `mod` Size w, col);
      (row, (col - 1) `mod` Size w); (row, (col + 1) `mod` Size w) ].
Proof.
  intros Hs Hr Hc. unfold Neighbors.
  assert (GoInt.int_max = 2 ^ 63 - 1) as Hmax by reflexivity.
  assert (forall i, 0 <= i < Size w ->
            wrap w (GoInt.sub i 1) = (i - 1) `mod` Size w /\
            wrap w (GoInt.add i 1) = (i + 1) `mod` Size w) as Hw.
  { intros i Hi.
    rewrite sub_exact, add_exact
      by (unfold GoInt.is_int, GoInt.int_min; lia).
    destruct (wrap_one_step w (i - 1)) as [-> _]; [lia..|].
    destruct (wrap_one_step w (i + 1)) as [-> _]; [lia..|].
    split; repeat case_decide; try lia.
    - apply Z.mod_unique with (q := -1); lia.
    - symmetry. apply Z.mod_small; lia.
    - apply Z.mod_unique with (q := 1); lia.
    - symmetry. apply Z.mod_small; lia. }
  destruct (Hw row Hr) as [-> ->]. destruct (Hw col Hc) as [-> ->]. done.
Qed.

Lemma Neighbors_in_grid (w : World) (row col : Z) :
  1 <= Size w <= GoInt.int_max -> in_grid w (row, col) ->
  Forall (in_grid w) (Neighbors w row col).
Proof.
  intros Hs [Hr Hc]; simpl in *. rewrite Neighbors_mod by done.
  pose proof (Z.mod_pos_bound (row - 1) (Size w)).
  pose proof (Z.mod_pos_bound (row + 1) (Size w)).
  pose proof (Z.mod_pos_bound (col - 1) (Size w)).
  pose proof (Z.mod_pos_bound (col + 1) (Size w)).
  repeat constructor; simpl; lia.
Qed.

(** C7.  On a grid of side at least two, [Neighbors] of an in-range
    coordinate is the list North, South, West, East of the four wrapped
    orthogonal neighbours, all of them inside the grid; row [0] has row
    [size - 1] to its north and row [size - 1] has row [0] to its south, and
    likewise for the columns; [wrap] brings an index at most one step out of
    range back into [0, size) by adding or subtracting [size] once. *)
Theorem Neighbors_toroidal (w : World) (row col : Z) :
  2 <= Size w -> GoInt.is_int (Size w) ->
  0 <= row < Size w -> 0 <= col < Size w ->
  Neighbors w row col =
    [ ((row - 1) `mod` Size w, col); ((row + 1) `mod` Size w, col);
      (row, (col - 1) `mod` Size w); (row, (col + 1) `mod` Size w) ] /\
  length (Neighbors w row col) = 4%nat /\
  Forall (fun p => 0 <= p.1 < Size w /\ 0 <= p.2 < Size w) (Neighbors w row col) /\
  (row = 0 -> Neighbors w row col !! 0%nat = Some (Size w - 1, col)) /\
  (row = Size w - 1 -> Neighbors w row col !! 1%nat = Some (0, col)) /\
  (col = 0 -> Neighbors w row col !! 2%nat = Some (row, Size w - 1)) /\
  (col = Size w - 1 -> Neighbors w row col !! 3%nat = Some (row, 0)) /\
  (forall i, -1 <= i <= Size w ->
     0 <= wrap w i < Size w /\
     wrap w i = (if decide (i < 0) then i + Size w
                 else if decide (i >= Size w) then i - Size w else i)).
Proof.
  intros Hs [_ Hmax] Hr Hc.
  assert (1 <= Size w <= GoInt.int_max) as Hs' by lia.
  split_and!.
  - by apply Neighbors_mod.
  - done.
  - by apply (Neighbors_in_grid w row col).
  - intros ->. rewrite Neighbors_mod by done. simpl. do 2 f_equal.
    symmetry. apply Z.mod_unique with (q := -1); lia.
  - intros ->. rewrite Neighbors_mod by done. simpl. do 2 f_equal.
    symmetry. apply Z.mod_unique with (q := 1); lia.
  - intros ->. rewrite Neighbors_mod by done. simpl. do 2 f_equal.
    symmetry. apply Z.mod_unique with (q := -1); lia.
  - intros ->. rewrite Neighbors_mod by done. simpl. do 2 f_equal.
    symmetry. apply Z.mod_unique with (q := 1); lia.
  - intros i Hi. destruct (wrap_one_step w i Hs' Hi) as [? ?]. done.
Qed.

Lemma Neighbors_toroidal_witness :
  let w := mkWorld 3 (replicate 3 (replicate 3 zeroCell)) 3 5 4 in
  Neighbors w 0 2 = [(2, 2); (1, 2); (0, 1); (0, 0)] /\
  Neighbors w 0 2 !! 0%nat = Some (2, 2) /\
  Neighbors w 0 2 !! 3%nat = Some (0, 0).
Proof.
  intros w.
  destruct (Neighbors_toroidal w 0 2) as (H1 & _ & _ & H2 & _ & _ & H3 & _).
  - simpl; lia.
  - unfold GoInt.is_int, GoInt.int_min, GoInt.int_max; simpl; lia.
  - simpl; lia.
  - simpl; lia.
  - split_and!.
    + exact H1.
    + exact (H2 eq_refl).
    + exact (H3 eq_refl).
Defined.

(** ** The rules *)

Lemma candidates_filter (want : Entity) (current next : World)
    (neighbors : list (Z * Z)) :
  square current -> square next -> Size next = Size current ->
  Forall (in_grid current) neighbors ->
  candidates want current next neighbors =
    Some (filter (free want current next) neighbors).
Proof.
  intros Hc Hn Hsz. induction 1 as [|[nr nc] rest Hp _ IH]; [done|].
  assert (is_Some (cell_at current nr nc)) as [c Hcell].
  { by apply cell_at_in_grid. }
  assert (is_Some (cell_at next nr nc)) as [n Hnext].
  { apply cell_at_in_grid; [done|]. unfold in_grid in *. by rewrite Hsz. }
  cbn [candidates]. rewrite Hcell, IH. simpl.
  destruct (decide (entity c = want)) as [Hw|Hw]; simpl.
  - rewrite Hnext. simpl. case_bool_decide as He; simpl.
    + rewrite filter_cons_True; [done|].
      split; eexists; eauto.
    + rewrite filter_cons_False; [done|].
      intros [_ (n' & Hn' & He')]. simpl in Hn'. congruence.
  - rewrite filter_cons_False; [done|].
    intros [(c' & Hc' & He') _]. simpl in Hc'. congruence.
Qed.

Lemma pick_chosen (targets : list (Z * Z)) (rnd : Rand) :
  targets <> [] ->
  pick targets rnd = Some (chosen targets rnd, advance rnd) /\
  chosen targets rnd ∈ targets.
Proof.
  intros Hne. unfold pick, Intn, chosen.
  assert (0 < Z.of_nat (length targets)) as Hlen.
  { destruct targets; [done|]. simpl. lia. }
  pose proof (Z.mod_pos_bound (rnd 0%nat) _ Hlen) as Hk.
  set (k := rnd 0%nat `mod` Z.of_nat (length targets)) in *.
  rewrite decide_True by done. simpl.
  destruct (lookup_lt_is_Some_2 targets (Z.to_nat k)) as [[nr nc] Hl]; [lia|].
  unfold index. rewrite decide_True by lia. rewrite Hl. simpl.
  rewrite (nth_lookup_Some _ _ _ _ Hl). split; [done|].
  by eapply list_elem_of_lookup_2.
Qed.

Lemma chosen_free (want : Entity) (current next : World)
    (neighbors : list (Z * Z)) (rnd : Rand) :
  filter (free want current next) neighbors <> [] ->
  chosen (filter (free want current next) neighbors) rnd ∈ neighbors /\
  free want current next (chosen (filter (free want current next) neighbors) rnd).
Proof.
  intros Hne. destruct (pick_chosen _ rnd Hne) as [_ Hin].
  apply list_elem_of_filter in Hin. tauto.
Qed.

Lemma staged_neighbors current next row col :
  staged current next row col ->
  Forall (in_grid current) (Neighbors current row col).
Proof.
  intros (Hc & _ & _ & Hin). apply Neighbors_in_grid; [|done].
  destruct Hc as (? & _). unfold in_grid in Hin; simpl in Hin. lia.
Qed.

Lemma length_zero_iff_nil' {A} (l : list A) : length l = 0%nat <-> l = [].
Proof. destruct l; naive_solver. Qed.

Lemma fishRule_decision current next row col cfg rnd cell :
  staged current next row col ->
  cell_at current row col = Some cell ->
  exists o rnd', fishRule current next row col cfg rnd = Some (o, rnd') /\
                 fish_decision current next row col cfg rnd cell o rnd'.
Proof.
  intros Hst Hcell. pose proof (staged_neighbors _ _ _ _ Hst) as Hnb.
  destruct Hst as (Hc & Hn & Hsz & Hin).
  unfold fishRule, fish_decision. rewrite Hcell. bind_step. cbv zeta.
  rewrite (candidates_filter Empty current next _ Hc Hn Hsz Hnb). bind_step.
  set (spots := filter (free Empty current next) (Neighbors current row col)).
  destruct (decide (length spots = 0%nat)) as [Hl|Hl];
    rewrite length_zero_iff_nil' in Hl.
  - do 2 eexists. split; [reflexivity|]. by rewrite decide_True.
  - destruct (pick_chosen spots rnd Hl) as [-> _].
    destruct (chosen spots rnd) as [nr nc]. bind_step.
    destruct (decide (GoInt.add (BreedTimer cell) 1 >= Cfg.FishBreed cfg));
      (do 2 eexists; split; [reflexivity|]);
      by rewrite (decide_False (P := spots = [])).
Qed.

Lemma sharkRule_decision current next row col cfg rnd cell :
  staged current next row col ->
  cell_at current row col = Some cell ->
  exists o rnd', sharkRule current next row col cfg rnd = Some (o, rnd') /\
                 shark_decision current next row col cfg rnd cell o rnd'.
Proof.
  intros Hst Hcell. pose proof (staged_neighbors _ _ _ _ Hst) as Hnb.
  destruct Hst as (Hc & Hn & Hsz & Hin).
  unfold sharkRule, shark_decision. rewrite Hcell. bind_step. cbv zeta.
  destruct (decide (GoInt.sub (Energy cell) 1 <= 0)); [eauto|].
  rewrite (candidates_filter Fish current next _ Hc Hn Hsz Hnb). bind_step.
  set (prey := filter (free Fish current next) (Neighbors current row col)).
  destruct (decide (0 < length prey)%nat) as [Hl|Hl].
  - assert (prey <> []) as Hne by (intros E; rewrite E in Hl; simpl in Hl; lia).
    destruct (pick_chosen prey rnd Hne) as [-> _].
    destruct (chosen prey rnd) as [nr nc]. bind_step.
    destruct (decide (GoInt.add (BreedTimer cell) 1 >= Cfg.SharkBreed cfg));
      (do 2 eexists; split; [reflexivity|]);
      by rewrite (decide_True (P := prey <> [])).
  - assert (prey = []) as Hnil by (destruct prey; [done | simpl in Hl; lia]).
    rewrite (candidates_filter Empty current next _ Hc Hn Hsz Hnb). bind_step.
    set (room := filter (free Empty current next) (Neighbors current row col)).
    destruct (decide (0 < length room)%nat) as [Hr|Hr].
    + assert (room <> []) as Hne by (intros E; rewrite E in Hr; simpl in Hr; lia).
      destruct (pick_chosen room rnd Hne) as [-> _].
      destruct (chosen room rnd) as [nr nc]. bind_step.
      destruct (decide (GoInt.add (BreedTimer cell) 1 >= Cfg.SharkBreed cfg));
        (do 2 eexists; split; [reflexivity|]);
        rewrite (decide_False (P := prey <> [])) by (intros E; done);
        by rewrite (decide_True (P := room <> [])).
    + assert (room = []) as Hrnil by (destruct room; [done | simpl in Hr; lia]).
      do 2 eexists. split; [reflexivity|].
      rewrite (decide_False (P := prey <> [])) by (intros E; done).
      by rewrite (decide_False (P := room <> [])) by (intros E; done).
Qed.

(** ** Counting organisms *)

Lemma elem_of_all_positions (size : Z) (p : Z * Z) :
  p ∈ all_positions size <-> (0 <= p.1 < size) /\ (0 <= p.2 < size).
Proof.
  unfold all_positions. rewrite list_elem_of_bind. split.
  - intros (r & (c & Hp & Hc%elem_of_seqZ)%list_elem_of_bind & Hr%elem_of_seqZ).
    apply list_elem_of_singleton in Hp as ->. simpl. lia.
  - intros [Hr Hc]. exists p.1. split; [|apply elem_of_seqZ; lia].
    apply list_elem_of_bind. exists p.2. split; [|apply elem_of_seqZ; lia].
    destruct p. apply list_elem_of_singleton. done.
Qed.

Lemma NoDup_all_positions (size : Z) : NoDup (all_positions size).
Proof.
  unfold all_positions. apply NoDup_bind; [| |apply NoDup_seqZ].
  - intros r1 r2 p _ _
      (c1 & ->%list_elem_of_singleton & _)%list_elem_of_bind
      (c2 & [= -> _]%list_elem_of_singleton & _)%list_elem_of_bind. done.
  - intros r _. apply NoDup_bind; [| |apply NoDup_seqZ].
    + intros c1 c2 p _ _ ->%list_elem_of_singleton [= ->]%list_elem_of_singleton.
      done.
    + intros c _. apply NoDup_singleton.
Qed.

Section filter_length.
Context {A : Type} (P Q : A -> Prop).
Context {decP : forall x, Decision (P x)} {decQ : forall x, Decision (Q x)}.

Lemma filter_length_agree (l : list A) :
  (forall x, x ∈ l -> P x <-> Q x) ->
  length (filter P l) = length (filter Q l).
Proof.
  induction l as [|x l IH]; intros H; [done|].
  rewrite !filter_cons.
  assert (P x <-> Q x) as Hx by (apply H; left).
  assert (length (filter P l) = length (filter Q l)) as Hl.
  { apply IH. intros y Hy. apply H. by right. }
  destruct (decide (P x)), (decide (Q x)); simpl; try tauto; lia.
Qed.

Lemma filter_length_gain (l : list A) (p : A) :
  NoDup l -> p ∈ l -> ~ P p -> Q p ->
  (forall x, x ∈ l -> x <> p -> P x <-> Q x) ->
  length (filter Q l) = S (length (filter P l)).
Proof.
  induction 1 as [|x l Hx Hnd IH]; intros Hin HP HQ Hrest.
  { by apply elem_of_nil in Hin. }
  rewrite !filter_cons. apply elem_of_cons in Hin as [<-|Hin].
  - rewrite (decide_True (P := Q p)), (decide_False (P := P p)) by done.
    simpl. f_equal.
    symmetry. apply filter_length_agree. intros y Hy. apply Hrest.
    + by right.
    + intros ->. done.
  - assert (x <> p) as Hne by (intros ->; done).
    assert (P x <-> Q x) as Hpx by (apply Hrest; [left|done]).
    assert (length (filter Q l) = S (length (filter P l))) as Hl.
    { apply IH; try done. intros y Hy. apply Hrest. by right. }
    destruct (decide (P x)), (decide (Q x)); simpl; try tauto; lia.
Qed.
End filter_length.

(** An assignment onto an [Empty] cell adds one to the census of the entity
    written and leaves the others alone. *)
Lemma census_assign (w w' : World) (row col : Z) (v : Cell) (e : Entity) :
  square w -> holds w Empty (row, col) ->
  assign w row col v = Some w' -> e <> Empty ->
  census w' e = (census w e + if decide (entity v = e) then 1 else 0)%nat.
Proof.
  intros Hsq (old & Hold & Hempty) Hw' He. simpl in Hold.
  destruct (assign_shape _ _ _ _ _ Hw') as (Hsz & _).
  destruct (cell_at_assign _ _ _ _ _ Hw') as [Hnew Hother].
  unfold census. rewrite Hsz.
  assert ((row, col) ∈ all_positions (Size w)) as Hin.
  { apply elem_of_all_positions. apply (cell_at_in_grid w row col Hsq). eauto. }
  assert (~ holds w e (row, col)) as Hnot.
  { intros (c & Hc & Hce). simpl in Hc. congruence. }
  assert (forall q, q <> (row, col) -> holds w e q <-> holds w' e q) as Hrest.
  { intros [r c] Hq. unfold holds. simpl. by rewrite (Hother r c Hq). }
  case_decide as Hv.
  - rewrite Nat.add_1_r.
    apply (filter_length_gain (holds w e) (holds w' e)) with (p := (row, col));
      auto using NoDup_all_positions.
    exists v. done.
  - rewrite Nat.add_0_r. apply filter_length_agree. intros q _.
    destruct (decide (q = (row, col))) as [->|Hq]; [|symmetry; by apply Hrest].
    split; [|done]. intros (c & Hc & Hce). simpl in Hc. congruence.
Qed.

Lemma holds_assign_other (w w' : World) (row col : Z) (v : Cell) (e : Entity)
    (p : Z * Z) :
  assign w row col v = Some w' -> p <> (row, col) ->
  holds w' e p <-> holds w e p.
Proof.
  intros Hw' Hp. destruct (cell_at_assign _ _ _ _ _ Hw') as [_ Hother].
  destruct p as [r c]. unfold holds. simpl. by rewrite (Hother r c Hp).
Qed.

(** ** Writes that never overwrite *)

Lemma claim_assign (next : World) (row col : Z) (v : Cell) :
  holds next Empty (row, col) -> claim next row col v = assign next row col v.
Proof.
  intros (old & Hold & He). simpl in Hold. unfold claim.
  rewrite Hold. bind_step. by rewrite decide_True.
Qed.

Lemma commit_lands (next : World) (row col : Z) (e : Entity) (o : Outcome) :
  square next -> e <> Empty -> lands next row col e o ->
  exists next',
    commit next row col o = Some next' /\
    commit_claiming next row col o = Some next' /\
    square next' /\ Size next' = Size next /\
    (forall e', e' <> Empty ->
       census next' e' =
       (census next e' +
        if decide (e' = e) then length (writes_of row col o) else 0)%nat) /\
    (forall p, holds next' Empty p -> holds next Empty p).
Proof.
  intros Hsq He (Hent & Horigin & Hdest).
  assert (forall r c v nxt, square nxt -> holds nxt Empty (r, c) ->
            exists nxt', assign nxt r c v = Some nxt' /\ square nxt' /\
                         Size nxt' = Size nxt) as Hassign.
  { intros r c v nxt Hsq' (old & Hold & _). simpl in Hold.
    destruct (assign_is_Some nxt r c v) as [nxt' Hnxt']; [eauto|].
    exists nxt'. destruct (assign_shape _ _ _ _ _ Hnxt') as (? & _ & _ & _ & ?).
    eauto. }
  assert (forall r c v nxt nxt' p, assign nxt r c v = Some nxt' ->
            entity v = e -> holds nxt' Empty p -> holds nxt Empty p) as Hkeep.
  { intros r c v nxt nxt' p Hnxt' Hv Hp.
    destruct (decide (p = (r, c))) as [->|Hne].
    - destruct (cell_at_assign _ _ _ _ _ Hnxt') as [Hnew _].
      destruct Hp as (x & Hx & Hxe). simpl in Hx. congruence.
    - by apply (holds_assign_other _ _ _ _ _ _ _ Hnxt' Hne). }
  unfold commit, commit_claiming.
  destruct o as [|self|nr nc self|nr nc child parent]; cbn [writes_of forM] in *.
  - exists next. split_and!; try done.
    intros e' _. case_decide; simpl; lia.
  - apply Forall_inv in Hent.
    specialize (Horigin ltac:(done)).
    destruct (Hassign row col self next Hsq Horigin) as (n1 & H1 & Hsq1 & Hsz1).
    exists n1. rewrite claim_assign, H1 by done. bind_step.
    split_and!; try done; [|by eauto].
    intros e' He'. rewrite (census_assign _ _ _ _ _ e' Hsq Horigin H1 He').
    rewrite Hent. destruct (decide (e = e')), (decide (e' = e)); simpl; congruence.
  - apply Forall_inv in Hent.
    destruct (Hdest (nr, nc) eq_refl) as [Hfree _].
    destruct (Hassign nr nc self next Hsq Hfree) as (n1 & H1 & Hsq1 & Hsz1).
    exists n1. rewrite claim_assign, H1 by done. bind_step.
    split_and!; try done; [|by eauto].
    intros e' He'. rewrite (census_assign _ _ _ _ _ e' Hsq Hfree H1 He').
    rewrite Hent. destruct (decide (e = e')), (decide (e' = e)); simpl; congruence.
  - pose proof (Forall_inv Hent) as Hchild.
    pose proof (Forall_inv (Forall_inv_tail Hent)) as Hparent.
    specialize (Horigin ltac:(done)).
    destruct (Hdest (nr, nc) eq_refl) as [Hfree Hne].
    destruct (Hassign row col child next Hsq Horigin) as (n1 & H1 & Hsq1 & Hsz1).
    assert (holds n1 Empty (nr, nc)) as Hfree1.
    { by apply (holds_assign_other _ _ _ _ _ _ _ H1 Hne). }
    destruct (Hassign nr nc parent n1 Hsq1 Hfree1) as (n2 & H2 & Hsq2 & Hsz2).
    exists n2. rewrite (claim_assign next), H1 by done. bind_step.
    rewrite (claim_assign n1), H2 by done. bind_step.
    split_and!; try done; [congruence| |by eauto].
    intros e' He'.
    rewrite (census_assign _ _ _ _ _ e' Hsq1 Hfree1 H2 He').
    rewrite (census_assign _ _ _ _ _ e' Hsq Horigin H1 He').
    rewrite Hchild, Hparent.
    destruct (decide (e = e')), (decide (e' = e)); simpl; try congruence; lia.
Qed.

(** ** The loops of [StepWorld] as a relation *)

Lemma fish_decision_lands current next row col cfg rnd cell o rnd' :
  cell_at current row col = Some cell -> entity cell = Fish ->
  holds next Empty (row, col) ->
  fish_decision current next row col cfg rnd cell o rnd' ->
  lands next row col Fish o /\
  (forall p, destination o = Some p ->
     p ∈ Neighbors current row col /\ free Empty current next p).
Proof.
  intros Hcell Hfish Horigin. unfold fish_decision. cbv zeta.
  set (spots := filter (free Empty current next) (Neighbors current row col)).
  case_decide as Hs.
  - intros [-> _]. split; [|done]. split_and!; [repeat constructor|done..].
  - intros [_ ->].
    destruct (chosen_free Empty current next _ rnd Hs) as [Hin Hfree].
    fold spots in Hin, Hfree. destruct (chosen spots rnd) as [nr nc].
    assert ((nr, nc) <> (row, col)) as Hne.
    { intros [= -> ->]. destruct Hfree as [(c & Hc & Hce) _].
      simpl in Hc. congruence. }
    case_decide; (split; [split_and!|]); try done.
    + repeat constructor.
    + intros p [= <-]. split; [apply Hfree|done].
    + intros p [= <-]. done.
    + repeat constructor.
    + intros p [= <-]. split; [apply Hfree|done].
    + intros p [= <-]. done.
Qed.

Lemma shark_decision_lands current next row col cfg rnd cell o rnd' :
  cell_at current row col = Some cell -> entity cell = Shark ->
  holds next Empty (row, col) ->
  shark_decision current next row col cfg rnd cell o rnd' ->
  lands next row col Shark o /\
  (forall p, destination o = Some p ->
     p ∈ Neighbors current row col /\
     (free Fish current next p \/ free Empty current next p)).
Proof.
  intros Hcell Hshark Horigin. unfold shark_decision. cbv zeta.
  set (prey := filter (free Fish current next) (Neighbors current row col)).
  set (room := filter (free Empty current next) (Neighbors current row col)).
  assert (forall want p, want <> Shark -> free want current next p ->
            p <> (row, col)) as Hne.
  { intros want p Hw [(c & Hc & Hce) _] ->. simpl in Hc. congruence. }
  case_decide as He; [|case_decide as Hp; [|case_decide as Hr]].
  - intros [-> _]. split; [|done]. split_and!; [constructor|done..].
  - intros [_ ->].
    destruct (chosen_free Fish current next _ rnd Hp) as [Hin Hfree].
    fold prey in Hin, Hfree. destruct (chosen prey rnd) as [nr nc].
    pose proof (Hne Fish _ ltac:(done) Hfree).
    case_decide; (split; [split_and!|]); try done.
    + repeat constructor.
    + intros p [= <-]. split; [apply Hfree|done].
    + intros p [= <-]. auto.
    + repeat constructor.
    + intros p [= <-]. split; [apply Hfree|done].
    + intros p [= <-]. auto.
  - intros [_ ->].
    destruct (chosen_free Empty current next _ rnd Hr) as [Hin Hfree].
    fold room in Hin, Hfree. destruct (chosen room rnd) as [nr nc].
    pose proof (Hne Empty _ ltac:(done) Hfree).
    case_decide; (split; [split_and!|]); try done.
    + repeat constructor.
    + intros p [= <-]. split; [apply Hfree|done].
    + intros p [= <-]. auto.
    + repeat constructor.
    + intros p [= <-]. split; [apply Hfree|done].
    + intros p [= <-]. auto.
  - intros [-> _]. split; [|done]. split_and!; [repeat constructor|done..].
Qed.

Lemma visit_visited (w : World) (cfg : Config) (row col : Z) (st : Staging) :
  square w -> shaped w st -> in_grid w (row, col) ->
  exists st', visit w cfg row col st = Some st' /\
              visited w cfg row col st st' /\ shaped w st'.
Proof.
  intros Hw [Hsq Hsz] Hin. destruct st as [[next rnd] events]. simpl in *.
  assert (staged w next row col) as Hst by done.
  assert (is_Some (cell_at next row col)) as [n Hn].
  { apply cell_at_in_grid; [done|]. unfold in_grid in *. by rewrite Hsz. }
  assert (is_Some (cell_at w row col)) as [cell Hcell].
  { by apply cell_at_in_grid. }
  unfold visit. rewrite Hn. bind_step.
  destruct (decide (entity n <> Empty)) as [Hfull|Hfree].
  { eexists. split; [done|]. split; [|done].
    apply visited_written. intros (n' & Hn' & He). simpl in *. congruence. }
  assert (holds next Empty (row, col)) as Hguard.
  { exists n. split; [done|]. by destruct (decide (entity n = Empty)). }
  rewrite Hcell. bind_step.
  destruct (entity cell) eqn:Hent.
  - eexists. split; [done|]. split; [|done].
    apply visited_empty. by exists cell.
  - destruct (fishRule_decision w next row col cfg rnd cell Hst Hcell)
      as (o & rnd' & Hrule & Hdec).
    destruct (fish_decision_lands _ _ _ _ _ _ _ _ _ Hcell Hent Hguard Hdec)
      as [Hlands _].
    destruct (commit_lands next row col Fish o Hsq ltac:(done) Hlands)
      as (next' & Hcommit & _ & Hsq' & Hsz' & _).
    unfold stepFish. rewrite Hrule. bind_step. rewrite Hcommit. bind_step.
    eexists. split; [done|]. split.
    + by eapply visited_fish.
    + split; simpl; [done|congruence].
  - destruct (sharkRule_decision w next row col cfg rnd cell Hst Hcell)
      as (o & rnd' & Hrule & Hdec).
    destruct (shark_decision_lands _ _ _ _ _ _ _ _ _ Hcell Hent Hguard Hdec)
      as [Hlands _].
    destruct (commit_lands next row col Shark o Hsq ltac:(done) Hlands)
      as (next' & Hcommit & _ & Hsq' & Hsz' & _).
    unfold stepShark. rewrite Hrule. bind_step. rewrite Hcommit. bind_step.
    eexists. split; [done|]. split.
    + by eapply visited_shark.
    + split; simpl; [done|congruence].
Qed.

Lemma forM_app {S A : Type} (body : A -> S -> option S) (l1 l2 : list A) (s : S) :
  forM body (l1 ++ l2) s = forM body l1 s ≫= forM body l2.
Proof.
  revert s. induction l1 as [|x l1 IH]; intros s; simpl; [done|].
  destruct (body x s); simpl; [apply IH|done].
Qed.

(** The two nested loops visit the coordinates of [all_positions] in order. *)
Lemma forM_product {S : Type} (body : Z -> Z -> S -> option S)
    (rows cols : list Z) (s : S) :
  forM (fun row => forM (fun col => body row col) cols) rows s =
  forM (fun p => body p.1 p.2) (row ← rows; col ← cols; [(row, col)]) s.
Proof.
  revert s. induction rows as [|row rows IH]; intros s; [done|].
  rewrite bind_cons, forM_app. cbn [forM].
  assert (forall cs t, forM (fun col => body row col) cs t =
            forM (fun p => body p.1 p.2) (col ← cs; [(row, col)]) t)
    as ->.
  { induction cs as [|c cs IHc]; intros t; [done|].
    cbn. destruct (body row c t); simpl; [apply IHc|done]. }
  destruct (forM _ (_ ≫= _) s); simpl; [apply IH|done].
Qed.

Lemma forM_nested {S : Type} (body : Z -> Z -> S -> option S) (size : Z) (s : S) :
  forM (fun row => forM (fun col => body row col) (seqZ 0 size)) (seqZ 0 size) s =
  forM (fun p => body p.1 p.2) (all_positions size) s.
Proof. apply forM_product. Qed.

Lemma forM_run (w : World) (cfg : Config) (ps : list (Z * Z)) (st : Staging) :
  square w -> shaped w st -> Forall (in_grid w) ps ->
  exists st', forM (fun p => visit w cfg p.1 p.2) ps st = Some st' /\
              run w cfg ps st st' /\ shaped w st'.
Proof.
  intros Hw Hst Hps. revert st Hst.
  induction Hps as [|[row col] ps Hp _ IH]; intros st Hst.
  - exists st. split; [done|]. split; [constructor|done].
  - destruct (visit_visited w cfg row col st Hw Hst Hp) as (st1 & Hv & Hvis & Hst1).
    destruct (IH st1 Hst1) as (st2 & Hrest & Hrun & Hst2).
    exists st2. cbn [forM]. simpl. rewrite Hv. bind_step.
    split; [done|]. split; [|done]. by econstructor.
Qed.

Lemma makeCells_square (w : World) (cells : list (list Cell)) :
  0 <= Size w <= GoInt.int_max ->
  makeCells (Size w) = Some cells ->
  square (with_cells w cells) /\
  (forall p, in_grid w p -> holds (with_cells w cells) Empty p).
Proof.
  intros Hs. unfold makeCells. rewrite decide_True by lia. intros [= <-].
  split.
  - unfold square, with_cells; simpl.
    split_and!; try lia.
    + by rewrite length_replicate.
    + apply Forall_replicate. by rewrite length_replicate.
  - intros [r c] [Hr Hc]; simpl in *. exists zeroCell. split; [|done].
    simpl. apply cell_at_Some. exists (replicate (Z.to_nat (Size w)) zeroCell).
    split; apply index_Some; (split; [lia|]); apply lookup_replicate_2; lia.
Qed.

(** [StepWorld] never panics on a square grid, and its result is that of
    the relation [run] from the empty grid over all coordinates. *)
Lemma StepWorld_run_total (w : World) (cfg : Config) (rnd : Rand) :
  square w ->
  exists next0 st,
    newEmptyWorldLike w = Some next0 /\
    StepWorld_run w cfg rnd = Some st /\
    StepWorld w cfg rnd = Some (st.1.1, st.1.2) /\
    run w cfg (all_positions (Size w)) (next0, rnd, []) st /\
    shaped w (next0, rnd, []) /\ shaped w st /\
    (forall p, in_grid w p -> holds next0 Empty p).
Proof.
  intros Hw. pose proof Hw as (Hs & _).
  unfold StepWorld, StepWorld_run, newEmptyWorldLike.
  destruct (makeCells (Size w)) as [cells|] eqn:Hcells.
  2: { unfold makeCells in Hcells. rewrite decide_True in Hcells by lia. done. }
  destruct (makeCells_square w cells Hs Hcells) as [Hsq Hempty].
  bind_step. rewrite forM_nested.
  destruct (forM_run w cfg (all_positions (Size w)) (with_cells w cells, rnd, []))
    as (st & Hst & Hrun & Hshape); [done|done| |].
  { apply list.Forall_forall. intros p Hp%elem_of_all_positions. exact Hp. }
  exists (with_cells w cells), st. rewrite Hst. bind_step.
  destruct st as [[next rnd'] events]. done.
Qed.

(** ** Accounting for the organisms of a step *)

Lemma holds_functional (w : World) (e1 e2 : Entity) (p : Z * Z) :
  holds w e1 p -> holds w e2 p -> e1 = e2.
Proof. intros (c1 & H1 & <-) (c2 & H2 & <-). congruence. Qed.

Lemma organisms_occupied (w : World) :
  organisms w = length (filter (occupied w) (all_positions (Size w))).
Proof.
  unfold organisms, census. induction (all_positions (Size w)) as [|p l IH]; [done|].
  rewrite !filter_cons.
  destruct (decide (holds w Fish p)) as [Hf|Hf],
           (decide (holds w Shark p)) as [Hs|Hs],
           (decide (occupied w p)) as [Ho|Ho];
    unfold occupied in Ho; simpl; try tauto; try lia.
  by pose proof (holds_functional _ _ _ _ Hf Hs).
Qed.

Lemma census_nobody (w : World) (e : Entity) :
  (forall p, in_grid w p -> ~ holds w e p) -> census w e = 0%nat.
Proof.
  intros H. unfold census.
  assert (Forall (fun p => ~ holds w e p) (all_positions (Size w))) as Hall.
  { apply list.Forall_forall. intros p Hp%elem_of_all_positions. by apply H. }
  induction Hall as [|p l Hp _ IH]; [done|].
  rewrite filter_cons_False by done. exact IH.
Qed.

(** The number of assignments of an outcome: one for the occupant unless it
    dies, one more for the offspring. *)
Lemma writes_of_length (row col : Z) (o : Outcome) :
  length (writes_of row col o) =
  ((if decide (o <> Dies) then 1 else 0) + (if decide (is_breed o) then 1 else 0))%nat.
Proof. by destruct o. Qed.

Lemma survivors_app (h1 h2 : list Event) :
  survivors (h1 ++ h2) = (survivors h1 + survivors h2)%nat.
Proof. unfold survivors. by rewrite list.filter_app, length_app. Qed.

Lemma births_app (h1 h2 : list Event) :
  births (h1 ++ h2) = (births h1 + births h2)%nat.
Proof. unfold births. by rewrite list.filter_app, length_app. Qed.

Lemma replay_claiming_app (next : World) (h1 h2 : list Event) :
  replay_claiming next (h1 ++ h2) =
  replay_claiming next h1 ≫= fun nxt => replay_claiming nxt h2.
Proof. unfold replay_claiming. apply forM_app. Qed.

Lemma committed_accounted (w : World) (row col : Z) (e : Entity)
    (next next' : World) (rnd rnd' : Rand) (events : list Event)
    (cell : Cell) (o : Outcome) (ps : list (Z * Z)) :
  shaped w (next, rnd, events) ->
  cell_at w row col = Some cell -> entity cell = e -> e <> Empty ->
  lands next row col e o ->
  commit next row col o = Some next' ->
  accounted w ((row, col) :: ps) (next, rnd, events)
            (next', rnd', events ++ [(row, col, o)]).
Proof.
  intros [Hsq Hsz] Hcell He Hne Hlands Hcommit. simpl in *.
  destruct (commit_lands next row col e o Hsq Hne Hlands)
    as (next'' & Hcommit' & Hclaim & Hsq' & Hsz' & Hcensus & _).
  assert (next'' = next') as -> by congruence.
  exists [(row, col, o)]. simpl. split_and!.
  - done.
  - unfold replay_claiming. cbn [forM]. rewrite Hclaim. done.
  - unfold organisms.
    rewrite (Hcensus Fish), (Hcensus Shark) by done.
    unfold survivors, births. rewrite !filter_cons, !filter_nil.
    destruct e; [done| |]; destruct o; cbn;
      repeat (case_decide; try done); simpl; lia.
  - rewrite filter_cons_True; [simpl; lia|].
    destruct e; [done|left|right]; by exists cell.
  - split; simpl; [done|congruence].
Qed.

Lemma visited_accounted (w : World) (cfg : Config) (row col : Z)
    (ps : list (Z * Z)) (st st' : Staging) :
  shaped w st -> visited w cfg row col st st' ->
  accounted w ((row, col) :: ps) st st'.
Proof.
  intros Hst Hv. destruct Hv as
    [st Hfull|st Hempty
    |next rnd events cell o rnd' next' Hstaged Hguard Hcell Hent Hdec Hcommit
    |next rnd events cell o rnd' next' Hstaged Hguard Hcell Hent Hdec Hcommit].
  - exists []. rewrite app_nil_r. unfold survivors, births. simpl.
    split_and!; try done; lia.
  - exists []. rewrite app_nil_r. unfold survivors, births. simpl.
    split_and!; try done; lia.
  - destruct (fish_decision_lands _ _ _ _ _ _ _ _ _ Hcell Hent Hguard Hdec)
      as [Hlands _].
    by eapply committed_accounted.
  - destruct (shark_decision_lands _ _ _ _ _ _ _ _ _ Hcell Hent Hguard Hdec)
      as [Hlands _].
    by eapply committed_accounted.
Qed.

Lemma run_accounted (w : World) (cfg : Config) (ps : list (Z * Z))
    (st st' : Staging) :
  shaped w st -> run w cfg ps st st' -> accounted w ps st st'.
Proof.
  intros Hst Hrun. induction Hrun as [st|row col ps st st1 st2 Hv Hrun IH].
  - exists []. rewrite app_nil_r. unfold survivors, births. simpl.
    split_and!; try done; lia.
  - destruct (visited_accounted w cfg row col [] st st1 Hst Hv)
      as (new1 & Hev1 & Hrep1 & Horg1 & Hlen1 & Hst1).
    destruct (IH Hst1) as (new2 & Hev2 & Hrep2 & Horg2 & Hlen2 & Hst2).
    exists (new1 ++ new2). split_and!.
    + rewrite Hev2, Hev1. by rewrite app_assoc.
    + rewrite replay_claiming_app, Hrep1. done.
    + rewrite Horg2, Horg1, survivors_app, births_app. lia.
    + rewrite length_app. rewrite filter_cons, filter_nil in Hlen1.
      rewrite filter_cons.
      destruct (decide (occupied w (row, col))); simpl in *; lia.
    + done.
Qed.

Lemma survivors_le_length (h : list Event) : (survivors h <= length h)%nat.
Proof. apply length_filter. Qed.

(** C2.  On every square grid a step returns, and replaying the record of
    its rule evaluations with a write that refuses to replace a [Fish] or a
    [Shark] rebuilds the same next grid: no assignment landed on an occupied
    cell.  The organisms of the next grid are the occupants that were
    written plus one offspring for every breeding; the occupants written are
    at most the organisms of the current grid, so the next total is at most
    the current total plus the number of breedings. *)
Theorem StepWorld_no_overwrite (w : World) (cfg : Config) (rnd : Rand) :
  square w ->
  exists next0 next rnd' events,
    newEmptyWorldLike w = Some next0 /\
    StepWorld_run w cfg rnd = Some (next, rnd', events) /\
    StepWorld w cfg rnd = Some (next, rnd') /\
    replay_claiming next0 events = Some next /\
    organisms next = (survivors events + births events)%nat /\
    (survivors events <= organisms w)%nat /\
    (organisms next <= organisms w + births events)%nat.
Proof.
  intros Hw.
  destruct (StepWorld_run_total w cfg rnd Hw)
    as (next0 & [[next rnd'] events] & Hnew & Hrun & Hstep & Hrel & Hst0 & _ & Hempty).
  destruct (run_accounted w cfg _ _ _ Hst0 Hrel)
    as (new & Hev & Hrep & Horg & Hlen & _).
  simpl in *. subst new.
  assert (organisms next0 = 0%nat) as Hzero.
  { destruct Hst0 as [_ Hsz]. simpl in Hsz. unfold organisms.
    rewrite !census_nobody; [done| |].
    - intros p Hp Hs. unfold in_grid in Hp. rewrite Hsz in Hp.
      by pose proof (holds_functional _ _ _ _ Hs (Hempty p Hp)).
    - intros p Hp Hs. unfold in_grid in Hp. rewrite Hsz in Hp.
      by pose proof (holds_functional _ _ _ _ Hs (Hempty p Hp)). }
  rewrite <- organisms_occupied in Hlen.
  pose proof (survivors_le_length events).
  exists next0, next, rnd', events. split_and!; try done; lia.
Qed.

(** ** What a rule writes *)

Lemma forM_assign_cell_at (ws : list (Z * Z * Cell)) (next next' : World) :
  forM (fun '(r, c, v) nxt => assign nxt r c v) ws next = Some next' ->
  forall r c, cell_at next' r c =
              match written ws (r, c) with
              | Some v => Some v
              | None => cell_at next r c
              end.
Proof.
  revert next. induction ws as [|[[r0 c0] v0] ws IH]; intros next H r c.
  - simpl in H. by injection H as <-.
  - cbn [forM] in H.
    destruct (assign next r0 c0 v0) as [n1|] eqn:H1; [|done].
    bind_step in H. rewrite (IH n1 H r c). cbn [written].
    destruct (written ws (r, c)); [done|].
    destruct (cell_at_assign _ _ _ _ _ H1) as [Hnew Hother].
    case_decide as Hp.
    + by injection Hp as -> ->.
    + by apply Hother.
Qed.

Lemma commit_cell_at (next next' : World) (row col : Z) (o : Outcome) :
  commit next row col o = Some next' ->
  forall r c, cell_at next' r c =
              match written (writes_of row col o) (r, c) with
              | Some v => Some v
              | None => cell_at next r c
              end.
Proof. apply forM_assign_cell_at. Qed.

Lemma commit_is_Some (next : World) (row col : Z) (o : Outcome) :
  square next ->
  Forall (fun '(r, c, _) => in_grid next (r, c)) (writes_of row col o) ->
  is_Some (commit next row col o).
Proof.
  unfold commit. generalize (writes_of row col o) as ws. intros ws.
  revert next. induction ws as [|[[r c] v] ws IH]; intros next Hsq Hws.
  - by eexists.
  - pose proof (Forall_inv Hws) as Hin. pose proof (Forall_inv_tail Hws) as Hrest.
    destruct (assign_is_Some next r c v) as [n1 H1].
    { by apply cell_at_in_grid. }
    destruct (assign_shape _ _ _ _ _ H1) as (Hsz & _ & _ & _ & Hsq1).
    cbn [forM]. rewrite H1. bind_step. apply IH; [by apply Hsq1|].
    eapply list.Forall_impl; [exact Hrest|]. intros [[r' c'] v'].
    unfold in_grid. by rewrite Hsz.
Qed.

Lemma in_grid_same_size (w w' : World) (p : Z * Z) :
  Size w' = Size w -> in_grid w p -> in_grid w' p.
Proof. unfold in_grid. by intros ->. Qed.

Lemma free_in_grid (want : Entity) (current next : World) (p : Z * Z) :
  square next -> free want current next p -> in_grid next p.
Proof.
  intros Hsq [_ (n & Hn & _)]. destruct p as [r c].
  apply cell_at_in_grid; [done|]. eauto.
Qed.

(** [stepFish] on grids of the same side never panics; its outcome is the
    one [fish_decision] describes. *)
Lemma stepFish_total current next row col cfg rnd cell :
  staged current next row col ->
  cell_at current row col = Some cell ->
  exists next' rnd' o,
    stepFish current next row col cfg rnd = Some (next', rnd', o) /\
    fish_decision current next row col cfg rnd cell o rnd' /\
    commit next row col o = Some next'.
Proof.
  intros Hst Hcell.
  destruct (fishRule_decision current next row col cfg rnd cell Hst Hcell)
    as (o & rnd' & Hrule & Hdec).
  destruct Hst as (Hc & Hn & Hsz & Hin).
  destruct (commit_is_Some next row col o Hn) as [next' Hcommit].
  { pose proof (in_grid_same_size current next (row, col) Hsz Hin) as Hin'.
    revert Hdec. unfold fish_decision. cbv zeta.
    set (spots := filter (free Empty current next) (Neighbors current row col)).
    case_decide as Hs.
    - intros [-> _]. each_write.
    - intros [_ ->].
      destruct (chosen_free Empty current next _ rnd Hs) as [_ Hfree].
      fold spots in Hfree. apply (free_in_grid _ _ _ _ Hn) in Hfree.
      destruct (chosen spots rnd) as [nr nc].
      case_decide; each_write. }
  exists next', rnd', o. unfold stepFish. rewrite Hrule. bind_step.
  rewrite Hcommit. done.
Qed.

Lemma stepShark_total current next row col cfg rnd cell :
  staged current next row col ->
  cell_at current row col = Some cell ->
  exists next' rnd' o,
    stepShark current next row col cfg rnd = Some (next', rnd', o) /\
    shark_decision current next row col cfg rnd cell o rnd' /\
    commit next row col o = Some next'.
Proof.
  intros Hst Hcell.
  destruct (sharkRule_decision current next row col cfg rnd cell Hst Hcell)
    as (o & rnd' & Hrule & Hdec).
  destruct Hst as (Hc & Hn & Hsz & Hin).
  destruct (commit_is_Some next row col o Hn) as [next' Hcommit].
  { pose proof (in_grid_same_size current next (row, col) Hsz Hin) as Hin'.
    revert Hdec. unfold shark_decision. cbv zeta.
    set (prey := filter (free Fish current next) (Neighbors current row col)).
    set (room := filter (free Empty current next) (Neighbors current row col)).
    case_decide as He; [|case_decide as Hp; [|case_decide as Hr]].
    - intros [-> _]. each_write.
    - intros [_ ->].
      destruct (chosen_free Fish current next _ rnd Hp) as [_ Hfree].
      fold prey in Hfree. apply (free_in_grid _ _ _ _ Hn) in Hfree.
      destruct (chosen prey rnd) as [nr nc].
      case_decide; each_write.
    - intros [_ ->].
      destruct (chosen_free Empty current next _ rnd Hr) as [_ Hfree].
      fold room in Hfree. apply (free_in_grid _ _ _ _ Hn) in Hfree.
      destruct (chosen room rnd) as [nr nc].
      case_decide; each_write.
    - intros [-> _]. each_write. }
  exists next', rnd', o. unfold stepShark. rewrite Hrule. bind_step.
  rewrite Hcommit. done.
Qed.

(** C9.  The three candidate loops keep exactly the neighbours that hold the
    wanted entity in the current grid and are still [Empty] in the next
    grid.  A fish with no such neighbour stays in place; a shark with no such
    fish neighbour falls through to the empty neighbours, and with none of
    those either stays in place.  Whatever destination a rule picks is a
    neighbour that is still [Empty] in the next grid. *)
Theorem candidates_unclaimed current next row col cfg rnd cell :
  staged current next row col ->
  cell_at current row col = Some cell ->
  let neighbors := Neighbors current row col in
  let timer := GoInt.add (BreedTimer cell) 1 in
  let newEnergy := GoInt.sub (Energy cell) 1 in
  (forall want,
     candidates want current next neighbors =
       Some (filter (fun p => holds current want p /\ holds next Empty p) neighbors)) /\
  (exists next' rnd' o,
     stepFish current next row col cfg rnd = Some (next', rnd', o) /\
     (filter (free Empty current next) neighbors = [] ->
        o = Stays (mkCell Fish timer 0)) /\
     (forall p, destination o = Some p ->
        p ∈ neighbors /\ holds current Empty p /\ holds next Empty p)) /\
  (exists next' rnd' o,
     stepShark current next row col cfg rnd = Some (next', rnd', o) /\
     (0 < newEnergy -> filter (free Fish current next) neighbors = [] ->
        forall p, destination o = Some p -> holds current Empty p) /\
     (0 < newEnergy -> filter (free Fish current next) neighbors = [] ->
        filter (free Empty current next) neighbors = [] ->
        o = Stays (mkCell Shark timer newEnergy)) /\
     (forall p, destination o = Some p ->
        p ∈ neighbors /\ (holds current Fish p \/ holds current Empty p) /\
        holds next Empty p)).
Proof.
  intros Hst Hcell neighbors timer newEnergy. split_and!.
  - intros want. destruct Hst as (Hc & Hn & Hsz & Hin).
    apply candidates_filter; try done.
    apply Neighbors_in_grid; [|done].
    destruct Hc as (? & _). unfold in_grid in Hin; simpl in Hin. lia.
  - destruct (stepFish_total current next row col cfg rnd cell Hst Hcell)
      as (next' & rnd' & o & Hstep & Hdec & _).
    exists next', rnd', o. split; [done|].
    revert Hdec. unfold fish_decision. cbv zeta. fold neighbors timer.
    set (spots := filter (free Empty current next) neighbors).
    case_decide as Hs.
    + intros [-> _]. done.
    + intros [_ ->]. split; [done|].
      destruct (chosen_free Empty current next _ rnd Hs) as [Hin [Hcur Hnxt]].
      fold neighbors spots in Hin, Hcur, Hnxt.
      destruct (chosen spots rnd) as [nr nc].
      case_decide; intros p [= <-]; done.
  - destruct (stepShark_total current next row col cfg rnd cell Hst Hcell)
      as (next' & rnd' & o & Hstep & Hdec & _).
    exists next', rnd', o. split; [done|].
    revert Hdec. unfold shark_decision. cbv zeta. fold neighbors timer newEnergy.
    set (prey := filter (free Fish current next) neighbors).
    set (room := filter (free Empty current next) neighbors).
    case_decide as He; [|case_decide as Hp; [|case_decide as Hr]].
    + intros [-> _]. split_and!; [lia|lia|done].
    + intros [_ ->].
      destruct (chosen_free Fish current next _ rnd Hp) as [Hin [Hcur Hnxt]].
      fold neighbors prey in Hin, Hcur, Hnxt.
      destruct (chosen prey rnd) as [nr nc].
      split_and!; [done|done|].
      case_decide; intros p [= <-]; auto.
    + intros [_ ->].
      destruct (chosen_free Empty current next _ rnd Hr) as [Hin [Hcur Hnxt]].
      fold neighbors room in Hin, Hcur, Hnxt.
      destruct (chosen room rnd) as [nr nc].
      split_and!; [|done|].
      * intros _ _. case_decide; intros p [= <-]; done.
      * case_decide; intros p [= <-]; auto.
    + intros [-> _]. done.
Qed.

(** ** The fish rule *)

(** C3, as amended.  The move candidates of a fish are the neighbours that
    are [Empty] in the current grid and still [Empty] in the next grid.  With
    no candidate the fish is written at its own coordinate with its breed
    timer incremented.  Otherwise the candidate at the index drawn from the
    random source is the destination, which differs from the origin; if the
    incremented timer reaches [FishBreed], a fish with timer 0 is written at
    the origin and then at the destination, else a fish with the incremented
    timer is written at the destination only.  Every other cell of the next
    grid is as it was. *)
Theorem stepFish_rule current next row col cfg rnd cell :
  staged current next row col ->
  cell_at current row col = Some cell -> entity cell = Fish ->
  let emptySpots :=
    filter (fun p => holds current Empty p /\ holds next Empty p)
           (Neighbors current row col) in
  let timer := GoInt.add (BreedTimer cell) 1 in
  exists next' rnd' o,
    stepFish current next row col cfg rnd = Some (next', rnd', o) /\
    (forall r c, cell_at next' r c =
                 match written (writes_of row col o) (r, c) with
                 | Some v => Some v
                 | None => cell_at next r c
                 end) /\
    if decide (emptySpots = []) then
      rnd' = rnd /\ writes_of row col o = [(row, col, mkCell Fish timer 0)]
    else
      exists nr nc,
        emptySpots !! Z.to_nat (rnd 0%nat `mod` Z.of_nat (length emptySpots))
          = Some (nr, nc) /\
        (nr, nc) <> (row, col) /\
        rnd' = advance rnd /\
        writes_of row col o =
          if decide (timer >= Cfg.FishBreed cfg)
          then [(row, col, mkCell Fish 0 0); (nr, nc, mkCell Fish 0 0)]
          else [(nr, nc, mkCell Fish timer 0)].
Proof.
  intros Hst Hcell Hfish emptySpots timer.
  destruct (stepFish_total current next row col cfg rnd cell Hst Hcell)
    as (next' & rnd' & o & Hstep & Hdec & Hcommit).
  exists next', rnd', o. split; [done|]. split; [by apply commit_cell_at|].
  revert Hdec. unfold fish_decision. cbv zeta.
  change (filter (free Empty current next) (Neighbors current row col))
    with emptySpots.
  fold timer. case_decide as Hs.
  - intros [-> ->]. done.
  - intros [-> ->].
    destruct (pick_chosen emptySpots rnd Hs) as [Hpick Hin].
    assert (emptySpots !! Z.to_nat (rnd 0%nat `mod` Z.of_nat (length emptySpots))
            = Some (chosen emptySpots rnd)) as Hlook.
    { unfold chosen.
      assert (0 < Z.of_nat (length emptySpots)) as Hlen.
      { destruct emptySpots; [done|]. simpl. lia. }
      pose proof (Z.mod_pos_bound (rnd 0%nat) _ Hlen).
      destruct (nth_lookup_or_length emptySpots
                  (Z.to_nat (rnd 0%nat `mod` Z.of_nat (length emptySpots))) (0, 0));
        [done|lia]. }
    apply list_elem_of_filter in Hin as [[(c & Hc & Hce) _] _].
    destruct (chosen emptySpots rnd) as [nr nc]. exists nr, nc.
    split_and!; try done.
    + intros [= -> ->]. simpl in Hc. congruence.
    + by case_decide.
Qed.

Lemma stepFish_rule_witness :
  staged crowded_pond (empty_grid 2) 0 0 /\
  exists next' rnd' o,
    stepFish crowded_pond (empty_grid 2) 0 0 (cfg_slow 2) (tape [3]) =
      Some (next', rnd', o) /\
    cell_at next' 0 1 = Some (fish 1) /\ cell_at next' 0 0 = Some zeroCell.
Proof.
  assert (staged crowded_pond (empty_grid 2) 0 0) as Hst by closed_grid.
  split; [exact Hst|].
  destruct (stepFish_rule crowded_pond (empty_grid 2) 0 0 (cfg_slow 2) (tape [3])
              (fish 0) Hst eq_refl eq_refl)
    as (next' & rnd' & o & Hstep & Hcells & _).
  exists next', rnd', o. split; [exact Hstep|].
  unfold stepFish in Hstep. vm_compute in Hstep.
  injection Hstep as <- _ <-. split; reflexivity.
Defined.

(** C3, as stated, fails: in [crowded_pond] the fish at (1, 1) has the
    neighbour (0, 1), [Empty] in the current grid, and yet it is written at
    its own coordinate, in [stepFish] and in the whole step alike. *)
Lemma stepFish_current_candidates_counterexample :
  filter (holds crowded_pond Empty) (Neighbors crowded_pond 1 1)
    = [(0, 1); (0, 1)] /\
  (exists next',
     stepFish crowded_pond crowded_pond_staging 1 1 (cfg_slow 2) (tape [])
       = Some (next', tape [], Stays (fish 1))) /\
  (exists next' rnd',
     StepWorld_run crowded_pond (cfg_slow 2) (tape []) =
       Some (next', rnd',
             [ (0, 0, Moves 0 1 (fish 1));
               (1, 0, Stays (fish 1));
               (1, 1, Stays (fish 1)) ])).
Proof.
  split_and!.
  - reflexivity.
  - eexists. vm_compute. reflexivity.
  - do 2 eexists. vm_compute. reflexivity.
Qed.

(** Whenever a shark breeds, the offspring left at the origin gets the full
    [cfg.Starve], in the eating branch and in the moving branch alike. *)
Lemma shark_offspring_full_energy current next row col cfg rnd cell o rnd' :
  shark_decision current next row col cfg rnd cell o rnd' ->
  forall nr nc child parent, o = Breeds nr nc child parent ->
    child = mkCell Shark 0 (Cfg.Starve cfg) /\
    BreedTimer parent = 0 /\
    (Energy parent = Cfg.Starve cfg \/
     Energy parent = GoInt.sub (Energy cell) 1).
Proof.
  unfold shark_decision. cbv zeta.
  case_decide; [by intros [-> _]|].
  case_decide; [|case_decide; [|by intros [-> _]]]; intros [_ ->];
    destruct (chosen _ rnd) as [r c]; case_decide; intros nr nc child parent;
    intros [= <- <- <- <-]; simpl; auto.
Qed.

(** C1 at two inputs.  In [hunting_ground] the shark at (1, 1) eats the fish
    to its north and breeds: the offspring written at the origin has energy
    [6 = cfg.Starve], not [cfg.Starve / 2 = 3].  In [open_water] the shark
    moves north without eating and breeds: its new energy is 4, the parent is
    written with energy 4 and the offspring with energy 6, not [4 / 2 = 2].
    Parents and breed timers are as C1 states them. *)
Lemma stepShark_offspring_energy :
  (exists next' rnd',
     stepShark hunting_ground (empty_grid 3) 1 1 (cfg_slow 3) (tape []) =
       Some (next', rnd', Breeds 0 1 (shark 0 6) (shark 0 6)) /\
     cell_at next' 1 1 = Some (shark 0 6) /\
     cell_at next' 0 1 = Some (shark 0 6)) /\
  (exists next' rnd',
     stepShark open_water (empty_grid 3) 1 1 (cfg_slow 3) (tape []) =
       Some (next', rnd', Breeds 0 1 (shark 0 6) (shark 0 4)) /\
     cell_at next' 1 1 = Some (shark 0 6) /\
     cell_at next' 0 1 = Some (shark 0 4)) /\
  Cfg.Starve (cfg_slow 3) `div` 2 = 3 /\
  GoInt.sub 5 1 `div` 2 = 2.
Proof.
  split_and!.
  - do 2 eexists. split; [vm_compute; reflexivity|]. split; reflexivity.
  - do 2 eexists. split; [vm_compute; reflexivity|]. split; reflexivity.
  - reflexivity.
  - reflexivity.
Qed.

Lemma candidates_unclaimed_witness :
  staged crowded_pond crowded_pond_staging 1 1 /\
  exists next' rnd' o,
    stepFish crowded_pond crowded_pond_staging 1 1 (cfg_slow 2) (tape [])
      = Some (next', rnd', o) /\
    o = Stays (fish 1).
Proof.
  assert (staged crowded_pond crowded_pond_staging 1 1) as Hst by closed_grid.
  split; [exact Hst|].
  destruct (candidates_unclaimed crowded_pond crowded_pond_staging 1 1
              (cfg_slow 2) (tape []) (fish 0) Hst eq_refl)
    as (_ & (next' & rnd' & o & Hstep & Hstays & _) & _).
  exists next', rnd', o. split; [exact Hstep|].
  apply Hstays. reflexivity.
Defined.

Lemma StepWorld_no_overwrite_witness :
  square crowded_pond /\
  exists next rnd' events,
    StepWorld_run crowded_pond (cfg_slow 2) (tape []) = Some (next, rnd', events) /\
    organisms next = (survivors events + births events)%nat /\
    (organisms next <= organisms crowded_pond + births events)%nat.
Proof.
  assert (square crowded_pond) as Hsq by closed_grid.
  split; [exact Hsq|].
  destruct (StepWorld_no_overwrite crowded_pond (cfg_slow 2) (tape []) Hsq)
    as (next0 & next & rnd' & events & _ & Hrun & _ & _ & Horg & _ & Hle).
  exists next, rnd', events. split; [exact Hrun|]. split; [exact Horg|exact Hle].
Defined.

(** ** The record of a step *)

Lemma written_elem (ws : list (Z * Z * Cell)) (p : Z * Z) (v : Cell) :
  written ws p = Some v -> (p.1, p.2, v) ∈ ws.
Proof.
  induction ws as [|[[r c] v0] ws IH]; [done|]. cbn [written].
  destruct (written ws p) as [v'|].
  - intros [= ->]. right. by apply IH.
  - case_decide as Hp; [|done]. intros [= ->]. subst p. left.
Qed.

Lemma run_invariant (w : World) (cfg : Config) (I : Staging -> Prop) :
  (forall row col st st',
     shaped w st -> I st -> visited w cfg row col st st' -> I st') ->
  forall ps st st', shaped w st -> I st -> run w cfg ps st st' -> I st'.
Proof.
  intros Hstep ps st st' Hst HI Hrun.
  induction Hrun as [st|row col ps st st1 st2 Hv Hrun IH]; [done|].
  destruct (visited_accounted w cfg row col [] st st1 Hst Hv)
    as (_ & _ & _ & _ & _ & Hst1).
  apply IH; [done|]. by apply (Hstep row col st st1).
Qed.

Lemma visited_record (w : World) (cfg : Config) (row col : Z) (st st' : Staging) :
  Forall (justified w cfg) st.2 /\ recorded st ->
  visited w cfg row col st st' ->
  Forall (justified w cfg) st'.2 /\ recorded st'.
Proof.
  intros [Hj Hrec] Hv. destruct Hv as
    [st Hfull|st Hempty
    |next rnd events cell o rnd' next' Hstaged Hguard Hcell Hent Hdec Hcommit
    |next rnd events cell o rnd' next' Hstaged Hguard Hcell Hent Hdec Hcommit];
    [done|done| |]; simpl in *.
  - split.
    + apply Forall_app. split; [done|]. apply Forall_singleton.
      exists next, rnd, rnd', cell. split_and!; [done..|by left].
    + intros r c v Hv Hne. simpl in *.
      rewrite (commit_cell_at _ _ _ _ _ Hcommit) in Hv.
      destruct (written (writes_of row col o) (r, c)) as [v'|] eqn:Hw.
      * injection Hv as ->. apply written_elem in Hw.
        exists row, col, o. split; [|done]. apply elem_of_app. right. left.
      * destruct (Hrec r c v Hv Hne) as (row' & col' & o' & Hin & Hw').
        exists row', col', o'. split; [|done]. apply elem_of_app. by left.
  - split.
    + apply Forall_app. split; [done|]. apply Forall_singleton.
      exists next, rnd, rnd', cell. split_and!; [done..|by right].
    + intros r c v Hv Hne. simpl in *.
      rewrite (commit_cell_at _ _ _ _ _ Hcommit) in Hv.
      destruct (written (writes_of row col o) (r, c)) as [v'|] eqn:Hw.
      * injection Hv as ->. apply written_elem in Hw.
        exists row, col, o. split; [|done]. apply elem_of_app. right. left.
      * destruct (Hrec r c v Hv Hne) as (row' & col' & o' & Hin & Hw').
        exists row', col', o'. split; [|done]. apply elem_of_app. by left.
Qed.

(** Every event recorded by a step is justified, and the organisms of the
    next grid are the values written by those events. *)
Lemma StepWorld_run_record (w : World) (cfg : Config) (rnd : Rand)
    (next : World) (rnd' : Rand) (events : list Event) :
  square w ->
  StepWorld_run w cfg rnd = Some (next, rnd', events) ->
  shaped w (next, rnd', events) /\
  Forall (justified w cfg) events /\
  recorded (next, rnd', events).
Proof.
  intros Hw Hrun.
  destruct (StepWorld_run_total w cfg rnd Hw)
    as (next0 & st & Hnew & Hrun' & _ & Hrel & Hst0 & Hst & Hempty).
  rewrite Hrun in Hrun'. injection Hrun' as <-.
  split; [done|].
  assert (forall row col st st',
            shaped w st -> Forall (justified w cfg) st.2 /\ recorded st ->
            visited w cfg row col st st' ->
            Forall (justified w cfg) st'.2 /\ recorded st') as Hstep.
  { intros row col st st' _. apply visited_record. }
  refine (run_invariant w cfg
            (fun st => Forall (justified w cfg) st.2 /\ recorded st)
            Hstep _ _ _ Hst0 _ Hrel).
  split; [constructor|].
  intros r c v Hv Hne. simpl in *. exfalso.
  assert (in_grid next0 (r, c)) as Hin.
  { apply cell_at_in_grid; [apply Hst0|]. eauto. }
  destruct Hst0 as [_ Hsz]. simpl in Hsz.
  destruct (Hempty (r, c)) as (v' & Hv' & He).
  { unfold in_grid in *. by rewrite <- Hsz. }
  simpl in Hv'. congruence.
Qed.

Lemma fish_decision_timer current next row col cfg rnd cell o rnd' :
  entity cell = Fish -> 0 <= BreedTimer cell <= GoInt.int_max ->
  fish_decision current next row col cfg rnd cell o rnd' ->
  timer_rule cfg cell o (writes_of row col o).
Proof.
  intros Hent Hbt. pose proof (add_1_nonzero _ Hbt) as Hnz.
  unfold fish_decision, timer_rule. cbv zeta. rewrite Hent. simpl.
  case_decide.
  - intros [-> _]. simpl. constructor; [|constructor].
    split; [done|]. simpl. case_decide; [done|tauto].
  - intros [_ ->]. destruct (chosen _ rnd) as [nr nc].
    case_decide; simpl; repeat (constructor; [split; [done|]|]);
      try apply Forall_nil; simpl; try case_decide; try done; tauto.
Qed.

Lemma shark_decision_timer current next row col cfg rnd cell o rnd' :
  entity cell = Shark -> 0 <= BreedTimer cell <= GoInt.int_max ->
  shark_decision current next row col cfg rnd cell o rnd' ->
  timer_rule cfg cell o (writes_of row col o).
Proof.
  intros Hent Hbt. pose proof (add_1_nonzero _ Hbt) as Hnz.
  unfold shark_decision, timer_rule. cbv zeta. rewrite Hent. simpl.
  case_decide; [intros [-> _]; constructor|].
  case_decide; [|case_decide].
  - intros [_ ->]. destruct (chosen _ rnd) as [nr nc].
    case_decide; simpl; repeat (constructor; [split; [done|]|]);
      try apply Forall_nil; simpl; try case_decide; try done; tauto.
  - intros [_ ->]. destruct (chosen _ rnd) as [nr nc].
    case_decide; simpl; repeat (constructor; [split; [done|]|]);
      try apply Forall_nil; simpl; try case_decide; try done; tauto.
  - intros [-> _]. simpl. constructor; [|constructor].
    split; [done|]. simpl. case_decide; [done|tauto].
Qed.

(** C8.  In a step from a square grid whose occupants have a breed timer in
    [0, int_max], every organism of the next grid is a write of a recorded
    event, and the writes of every event obey the timer rule for the
    occupant the event is about: a cell written with timer 0 comes from a
    breeding, for which the old timer plus one had reached the threshold of
    the species, and every other cell written carries the old timer plus
    one. *)
Theorem breeding_resets_timer (w : World) (cfg : Config) (rnd : Rand)
    (next : World) (rnd' : Rand) (events : list Event) :
  square w ->
  (forall row col cell, cell_at w row col = Some cell -> entity cell <> Empty ->
     0 <= BreedTimer cell <= GoInt.int_max) ->
  StepWorld_run w cfg rnd = Some (next, rnd', events) ->
  (forall r c v, cell_at next r c = Some v -> entity v <> Empty ->
     exists row col o, (row, col, o) ∈ events /\ (r, c, v) ∈ writes_of row col o) /\
  Forall (fun '(row, col, o) =>
            exists cell, cell_at w row col = Some cell /\ entity cell <> Empty /\
                         timer_rule cfg cell o (writes_of row col o))
         events.
Proof.
  intros Hw Htimers Hrun.
  destruct (StepWorld_run_record w cfg rnd next rnd' events Hw Hrun)
    as (_ & Hj & Hrec).
  split; [exact Hrec|].
  eapply list.Forall_impl; [exact Hj|].
  intros [[row col] o] (nxt & r & r' & cell & _ & _ & Hcell & Hdec).
  exists cell. split; [done|].
  destruct Hdec as [[Hent Hdec]|[Hent Hdec]].
  - split; [congruence|].
    eapply fish_decision_timer; eauto. apply (Htimers row col); congruence.
  - split; [congruence|].
    eapply shark_decision_timer; eauto. apply (Htimers row col); congruence.
Qed.

Lemma breeding_resets_timer_witness :
  square crowded_pond /\
  exists next rnd' events,
    StepWorld_run crowded_pond (cfg_slow 2) (tape []) = Some (next, rnd', events) /\
    Forall (fun '(row, col, o) =>
              exists cell, cell_at crowded_pond row col = Some cell /\
                           entity cell <> Empty /\
                           timer_rule (cfg_slow 2) cell o (writes_of row col o))
           events.
Proof.
  assert (square crowded_pond) as Hsq by closed_grid.
  split; [exact Hsq|].
  destruct (StepWorld_run_total crowded_pond (cfg_slow 2) (tape []) Hsq)
    as (_ & [[next rnd'] events] & _ & Hrun & _).
  exists next, rnd', events. split; [exact Hrun|].
  refine (proj2 (breeding_resets_timer crowded_pond (cfg_slow 2) (tape [])
                   next rnd' events Hsq _ Hrun)).
  intros row col cell Hcell Hne.
  assert (row = 0 /\ col = 0 \/ row = 0 /\ col = 1 \/
          row = 1 /\ col = 0 \/ row = 1 /\ col = 1) as Hcase.
  { assert (in_grid crowded_pond (row, col)) as [Hr Hc].
    { apply cell_at_in_grid; [exact Hsq|]. eauto. }
    simpl in Hr, Hc. lia. }
  destruct Hcase as [[-> ->]|[[-> ->]|[[-> ->]|[-> ->]]]];
    vm_compute in Hcell; injection Hcell as <-; vm_compute; split; discriminate.
Defined.

(** ** Populate *)

Lemma swap_Permutation {A : Type} (l : list A) (i j : nat) :
  (i < length l)%nat -> (j < length l)%nat ->
  exists l', swap l i j = Some l' /\ l' ≡ₚ l.
Proof.
  intros [x Hx]%lookup_lt_is_Some_2 [y Hy]%lookup_lt_is_Some_2.
  unfold swap. rewrite Hx, Hy. bind_step. eexists. split; [done|].
  by apply Permutation_insert_swap.
Qed.

Lemma shuffle_down_Permutation {A : Type} (i : nat) (l : list A) (rnd : Rand) :
  (i < length l)%nat ->
  exists l' rnd', shuffle_down i l rnd = Some (l', rnd') /\ l' ≡ₚ l.
Proof.
  revert l rnd. induction i as [|i IH]; intros l rnd Hi.
  - by exists l, rnd.
  - cbn [shuffle_down]. unfold Intn. rewrite decide_True by lia. bind_step.
    assert (0 < Z.of_nat (S i) + 1) as Hpos by lia.
    pose proof (Z.mod_pos_bound (rnd 0%nat) _ Hpos) as Hj.
    destruct (swap_Permutation l (S i) (Z.to_nat (rnd 0%nat `mod` (Z.of_nat (S i) + 1))))
      as (l1 & -> & Hperm); [lia..|].
    bind_step.
    destruct (IH l1 (advance rnd)) as (l2 & rnd2 & Hrec & Hperm2).
    { rewrite Hperm. lia. }
    exists l2, rnd2. split; [done|]. by rewrite Hperm2.
Qed.

Lemma Shuffle_Permutation {A : Type} (l : list A) (rnd : Rand) :
  exists l' rnd', Shuffle l rnd = Some (l', rnd') /\ l' ≡ₚ l.
Proof.
  unfold Shuffle. destruct l as [|x l].
  - by exists [], rnd.
  - apply shuffle_down_Permutation. simpl. lia.
Qed.

Lemma product_length (rows cols : list Z) :
  length (row ← rows; col ← cols; [(row, col)]) = (length rows * length cols)%nat.
Proof.
  induction rows as [|row rows IH]; [done|].
  rewrite bind_cons, length_app, IH. simpl. f_equal.
  clear. induction cols as [|c cols IH]; [done|].
  rewrite bind_cons, length_app, IH. done.
Qed.

Lemma all_positions_length (size : Z) :
  length (all_positions size) = (Z.to_nat size * Z.to_nat size)%nat.
Proof. unfold all_positions. by rewrite product_length, length_seqZ. Qed.

(** The shark loop takes the first [min (numShark - shark) (len positions)]
    coordinates. *)
Lemma placeSharks_spec (w : World) (shark numShark : Z) (ps : list (Z * Z)) :
  square w -> Forall (in_grid w) ps -> NoDup ps ->
  let k := (Z.to_nat (numShark - shark) `min` length ps)%nat in
  exists w',
    placeSharks w shark numShark ps = Some (w', drop k ps) /\
    square w' /\ Size w' = Size w /\ Starve w' = Starve w /\
    (forall p, p ∈ take k ps ->
       cell_at w' p.1 p.2 = Some (mkCell Shark 0 (Starve w))) /\
    (forall r c, (r, c) ∉ take k ps -> cell_at w' r c = cell_at w r c).
Proof.
  intros Hsq Hin Hnd. revert w shark Hsq Hin.
  induction Hnd as [|[r c] ps Hfresh Hnd IH]; intros w shark Hsq Hin k.
  - exists w. subst k. rewrite Nat.min_0_r. simpl. split_and!; try done.
    intros p Hp. by apply elem_of_nil in Hp.
  - pose proof (Forall_inv Hin) as Hp. pose proof (Forall_inv_tail Hin) as Hps.
    cbn [placeSharks]. destruct (decide (shark < numShark)) as [Hlt|Hge].
    + assert (is_Some (cell_at w r c)) as [old Hold] by (by apply cell_at_in_grid).
      rewrite Hold. bind_step.
      destruct (assign_is_Some w r c (mkCell Shark 0 (Starve w))) as [w1 H1]; [eauto|].
      rewrite H1. bind_step.
      destruct (assign_shape _ _ _ _ _ H1) as (Hsz1 & _ & _ & Hst1 & Hsq1).
      destruct (cell_at_assign _ _ _ _ _ H1) as [Hnew Hother].
      destruct (IH w1 (shark + 1) (Hsq1 Hsq)) as (w' & Hrec & Hsq' & Hsz' & Hst' & Htaken & Hrest).
      { eapply list.Forall_impl; [exact Hps|]. intros q. by apply in_grid_same_size. }
      assert (k = S (Z.to_nat (numShark - (shark + 1)) `min` length ps)) as ->.
      { subst k. simpl length. lia. }
      set (k' := (Z.to_nat (numShark - (shark + 1)) `min` length ps)%nat) in *.
      exists w'. cbn [drop take]. split_and!; try congruence.
      * intros p [->|Hp']%elem_of_cons.
        -- simpl. rewrite Hrest; [done|].
           intros Hmem. apply Hfresh. by eapply subseteq_take.
        -- rewrite Htaken by done. by rewrite Hst1.
      * intros r' c' Hnot. rewrite Hrest.
        -- apply Hother. intros [= -> ->]. apply Hnot. left.
        -- intros Hmem. apply Hnot. by right.
    + assert (k = 0%nat) as -> by (subst k; lia).
      exists w. simpl. split_and!; try done.
      intros p Hp'. by apply elem_of_nil in Hp'.
Qed.

(** The fish loop does the same on coordinates that are all [Empty]. *)
Lemma placeFish_spec (w : World) (fish numFish : Z) (ps : list (Z * Z)) :
  square w -> Forall (in_grid w) ps -> NoDup ps ->
  (forall p, p ∈ ps -> holds w Empty p) ->
  let k := (Z.to_nat (numFish - fish) `min` length ps)%nat in
  exists w',
    placeFish w fish numFish ps = Some w' /\
    square w' /\ Size w' = Size w /\ Starve w' = Starve w /\
    (forall p, p ∈ take k ps ->
       exists v, cell_at w' p.1 p.2 = Some v /\
                 entity v = Fish /\ BreedTimer v = 0) /\
    (forall r c, (r, c) ∉ take k ps -> cell_at w' r c = cell_at w r c).
Proof.
  intros Hsq Hin Hnd. revert w fish Hsq Hin.
  induction Hnd as [|[r c] ps Hfresh Hnd IH]; intros w fish0 Hsq Hin Hempty k.
  - exists w. subst k. rewrite Nat.min_0_r. simpl. split_and!; try done.
    intros p Hp. by apply elem_of_nil in Hp.
  - pose proof (Forall_inv Hin) as Hp. pose proof (Forall_inv_tail Hin) as Hps.
    cbn [placeFish]. destruct (decide (fish0 < numFish)) as [Hlt|Hge].
    + destruct (Hempty (r, c)) as (old & Hold & Hoe); [left|]. simpl in Hold.
      rewrite Hold. bind_step. rewrite decide_True by done.
      destruct (assign_is_Some w r c (mkCell Fish 0 (Energy old))) as [w1 H1]; [eauto|].
      rewrite H1. bind_step.
      destruct (assign_shape _ _ _ _ _ H1) as (Hsz1 & _ & _ & Hst1 & Hsq1).
      destruct (cell_at_assign _ _ _ _ _ H1) as [Hnew Hother].
      destruct (IH w1 (fish0 + 1) (Hsq1 Hsq)) as (w' & Hrec & Hsq' & Hsz' & Hst' & Htaken & Hrest).
      { eapply list.Forall_impl; [exact Hps|]. intros q. by apply in_grid_same_size. }
      { intros q Hq. apply (holds_assign_other _ _ _ _ _ _ _ H1).
        - intros ->. done.
        - apply Hempty. by right. }
      assert (k = S (Z.to_nat (numFish - (fish0 + 1)) `min` length ps)) as ->.
      { subst k. simpl length. lia. }
      set (k' := (Z.to_nat (numFish - (fish0 + 1)) `min` length ps)%nat) in *.
      exists w'. cbn [drop take]. split_and!; try congruence.
      * intros p [->|Hp']%elem_of_cons.
        -- simpl. rewrite Hrest.
           ++ eexists. split; [exact Hnew|]. done.
           ++ intros Hmem. apply Hfresh. by eapply subseteq_take.
        -- by apply Htaken.
      * intros r' c' Hnot. rewrite Hrest.
        -- apply Hother. intros [= -> ->]. apply Hnot. left.
        -- intros Hmem. apply Hnot. by right.
    + assert (k = 0%nat) as -> by (subst k; lia).
      exists w. simpl. split_and!; try done.
      intros p Hp'. by apply elem_of_nil in Hp'.
Qed.

(** A complete description of [Populate] on an all-[Empty] square grid:
    the sharks are the first coordinates of the shuffled slice, the fish the
    following ones, and everything else is left as it was. *)
Lemma Populate_spec (w : World) (numFish numShark : Z) (rnd : Rand) :
  square w -> (forall p, in_grid w p -> holds w Empty p) ->
  exists w' rnd' positions,
    Populate w numFish numShark rnd = Some (w', rnd') /\
    positions ≡ₚ all_positions (Size w) /\
    square w' /\ Size w' = Size w /\ Starve w' = Starve w /\
    let ks := (Z.to_nat numShark `min` length positions)%nat in
    let kf := (Z.to_nat numFish `min` (length positions - ks))%nat in
    (forall p, p ∈ take ks positions ->
       cell_at w' p.1 p.2 = Some (mkCell Shark 0 (Starve w))) /\
    (forall p, p ∈ take kf (drop ks positions) ->
       exists v, cell_at w' p.1 p.2 = Some v /\
                 entity v = Fish /\ BreedTimer v = 0) /\
    (forall p, in_grid w p -> p ∉ take (ks + kf) positions -> holds w' Empty p).
Proof.
  intros Hsq Hempty. unfold Populate.
  destruct (Shuffle_Permutation (all_positions (Size w)) rnd)
    as (positions & rnd' & -> & Hperm).
  bind_step.
  assert (NoDup positions) as Hnd.
  { rewrite Hperm. apply NoDup_all_positions. }
  assert (Forall (in_grid w) positions) as Hin.
  { rewrite Hperm. apply list.Forall_forall.
    intros p Hp%elem_of_all_positions. exact Hp. }
  destruct (placeSharks_spec w 0 numShark positions Hsq Hin Hnd)
    as (w1 & -> & Hsq1 & Hsz1 & Hst1 & Hsharks & Hrest1).
  rewrite Z.sub_0_r in *.
  set (ks := (Z.to_nat numShark `min` length positions)%nat) in *.
  bind_step.
  assert (NoDup (take ks positions ++ drop ks positions)) as Hsplit.
  { by rewrite take_drop. }
  apply list.NoDup_app in Hsplit as (_ & Hdisj & Hnd2).
  destruct (placeFish_spec w1 0 numFish (drop ks positions) Hsq1)
    as (w2 & -> & Hsq2 & Hsz2 & Hst2 & Hfish & Hrest2); [| done | |].
  { apply Forall_drop. eapply list.Forall_impl; [exact Hin|].
    intros q. by apply in_grid_same_size. }
  { intros [r c] Hp. unfold holds. simpl. rewrite Hrest1.
    - apply (Hempty (r, c)). eapply (proj1 (list.Forall_forall _ _) Hin).
      by eapply (subseteq_drop ks).
    - intros Hmem. by apply (Hdisj _ Hmem). }
  rewrite Z.sub_0_r, length_drop in *.
  set (kf := (Z.to_nat numFish `min` (length positions - ks))%nat) in *.
  bind_step. exists w2, rnd', positions.
  split_and!; try done; try congruence.
  - intros [r c] Hp. simpl. rewrite Hrest2; [by apply (Hsharks (r, c))|].
    intros Hmem%subseteq_take. by apply (Hdisj _ Hp).
  - intros [r c] Hp Hnot. unfold holds. simpl.
    rewrite <- take_take_drop in Hnot. rewrite elem_of_app in Hnot.
    rewrite Hrest2 by tauto. rewrite Hrest1 by tauto. by apply (Hempty (r, c)).
Qed.

(** C6.  On an all-[Empty] square grid of side at least two and for
    non-negative counts, [Populate] returns without a panic; it places
    [min numShark size^2] sharks, each with energy [Starve] and breed
    timer 0, and then [min numFish (size^2 - sharks)] fish with breed
    timer 0, on distinct coordinates of the grid, and leaves every other cell
    [Empty]; the census of the result counts exactly these. *)
Theorem Populate_places (w : World) (numFish numShark : Z) (rnd : Rand) :
  square w -> 2 <= Size w ->
  (forall p, in_grid w p -> holds w Empty p) ->
  0 <= numShark -> 0 <= numFish ->
  exists w' rnd' sharks fish,
    Populate w numFish numShark rnd = Some (w', rnd') /\
    NoDup (sharks ++ fish) /\ Forall (in_grid w) (sharks ++ fish) /\
    Z.of_nat (length sharks) = Z.min numShark (Size w * Size w) /\
    Z.of_nat (length fish) =
      Z.min numFish (Size w * Size w - Z.of_nat (length sharks)) /\
    (forall p, p ∈ sharks ->
       cell_at w' p.1 p.2 = Some (mkCell Shark 0 (Starve w))) /\
    (forall p, p ∈ fish ->
       exists v, cell_at w' p.1 p.2 = Some v /\
                 entity v = Fish /\ BreedTimer v = 0) /\
    (forall p, in_grid w p -> p ∉ sharks ++ fish -> holds w' Empty p) /\
    census w' Shark = length sharks /\ census w' Fish = length fish.
Proof.
  intros Hsq Hsize Hempty Hns Hnf.
  destruct (Populate_spec w numFish numShark rnd Hsq Hempty)
    as (w' & rnd' & positions & Hpop & Hperm & Hsq' & Hsz' & Hst' & Hspec).
  cbv zeta in Hspec.
  assert (length positions = (Z.to_nat (Size w) * Z.to_nat (Size w))%nat) as Hlen.
  { by rewrite Hperm, all_positions_length. }
  set (ks := (Z.to_nat numShark `min` length positions)%nat) in *.
  set (kf := (Z.to_nat numFish `min` (length positions - ks))%nat) in *.
  destruct Hspec as (Hsharks & Hfish & Hothers).
  set (sharks := take ks positions) in *.
  set (fish := take kf (drop ks positions)) in *.
  assert (sharks ++ fish = take (ks + kf) positions) as Happ.
  { apply take_take_drop. }
  assert (NoDup positions) as Hnd.
  { rewrite Hperm. apply NoDup_all_positions. }
  assert (forall p, p ∈ positions <-> in_grid w p) as Hgrid.
  { intros p. rewrite Hperm. apply elem_of_all_positions. }
  assert (NoDup (sharks ++ fish)) as Hnd'.
  { rewrite Happ. eapply sublist_NoDup; [exact Hnd|]. apply sublist_take. }
  assert (forall e (l : list (Z * Z)),
            NoDup l -> (forall p, p ∈ l <-> in_grid w p /\ holds w' e p) ->
            census w' e = length l) as Hcensus.
  { intros e l Hl Hmem. unfold census. rewrite Hsz'. apply Permutation_length.
    apply NoDup_Permutation; [|done|].
    - apply list.NoDup_filter, NoDup_all_positions.
    - intros p. rewrite list_elem_of_filter, elem_of_all_positions, Hmem.
      unfold in_grid. tauto. }
  pose proof (proj1 (list.NoDup_app _ _) Hnd') as (Hnds & Hdisj & Hndf).
  assert (forall p, p ∈ sharks ++ fish -> in_grid w p) as Hin.
  { intros p Hp. apply Hgrid. rewrite Happ in Hp. by eapply subseteq_take. }
  exists w', rnd', sharks, fish. split_and!; try done.
  - by apply list.Forall_forall.
  - subst sharks. rewrite length_take. fold ks. subst ks. rewrite Hlen. nia.
  - subst fish sharks. rewrite !length_take, length_drop. fold ks kf.
    subst kf ks. rewrite Hlen. nia.
  - intros p Hp Hnot. apply Hothers; [done|]. by rewrite <- Happ.
  - apply Hcensus; [done|]. intros p. split.
    + intros Hp. split; [apply Hin, elem_of_app; by left|].
      eexists. split; [by apply Hsharks|done].
    + intros [Hp Hs]. destruct (decide (p ∈ sharks)) as [|Hns']; [done|].
      exfalso. destruct (decide (p ∈ fish)) as [Hf|Hnf'].
      * destruct (Hfish p Hf) as (v & Hv & Hve & _).
        assert (holds w' Fish p) as Hholds by (by exists v).
        by pose proof (holds_functional _ _ _ _ Hs Hholds).
      * assert (holds w' Empty p) as Hholds.
        { apply Hothers; [done|]. rewrite <- Happ, elem_of_app. tauto. }
        by pose proof (holds_functional _ _ _ _ Hs Hholds).
  - apply Hcensus; [done|]. intros p. split.
    + intros Hp. split; [apply Hin, elem_of_app; by right|].
      destruct (Hfish p Hp) as (v & Hv & Hve & _). by exists v.
    + intros [Hp Hs]. destruct (decide (p ∈ fish)) as [|Hnf']; [done|].
      exfalso. destruct (decide (p ∈ sharks)) as [Hsh|Hns'].
      * assert (holds w' Shark p) as Hholds.
        { eexists. split; [by apply Hsharks|done]. }
        by pose proof (holds_functional _ _ _ _ Hs Hholds).
      * assert (holds w' Empty p) as Hholds.
        { apply Hothers; [done|]. rewrite <- Happ, elem_of_app. tauto. }
        by pose proof (holds_functional _ _ _ _ Hs Hholds).
Qed.

Lemma empty_grid_empty (size : Z) :
  0 <= size <= GoInt.int_max ->
  square (empty_grid size) /\
  (forall p, in_grid (empty_grid size) p -> holds (empty_grid size) Empty p).
Proof.
  intros Hs. apply (makeCells_square (grid size [])); [done|].
  unfold makeCells. simpl. by rewrite decide_True by lia.
Qed.

Lemma Populate_places_witness :
  square (empty_grid 2) /\
  exists w' rnd',
    Populate (empty_grid 2) 9 3 (tape [3; 1; 2]) = Some (w', rnd') /\
    census w' Shark = 3%nat /\ census w' Fish = 1%nat.
Proof.
  destruct (empty_grid_empty 2) as [Hsq Hempty].
  { unfold GoInt.int_max. lia. }
  split; [exact Hsq|].
  destruct (Populate_places (empty_grid 2) 9 3 (tape [3; 1; 2]) Hsq)
    as (w' & rnd' & sharks & fish & Hpop & _ & _ & Hls & Hlf & _ & _ & _ & Hcs & Hcf).
  - simpl. lia.
  - exact Hempty.
  - lia.
  - lia.
  - exists w', rnd'. split; [exact Hpop|].
    rewrite Hcs, Hcf. simpl in Hls, Hlf. lia.
Defined.

(** ** Reachable worlds *)

Lemma wrap_int_le (z : Z) : 0 <= z -> GoInt.wrap_int z <= z.
Proof.
  intros Hz. unfold GoInt.wrap_int.
  pose proof (Z.mod_le (z + 2 ^ 63) (2 ^ 64)). lia.
Qed.

Lemma fish_decision_entity current next row col cfg rnd cell o rnd' :
  fish_decision current next row col cfg rnd cell o rnd' ->
  Forall (fun '(_, _, v) => entity v = Fish) (writes_of row col o).
Proof.
  unfold fish_decision. cbv zeta. case_decide.
  - intros [-> _]. each_write.
  - intros [_ ->]. destruct (chosen _ rnd) as [nr nc]. case_decide; each_write.
Qed.

Lemma shark_decision_energy current next row col cfg rnd cell o rnd' :
  0 < Cfg.Starve cfg -> 0 < Energy cell <= Cfg.Starve cfg ->
  shark_decision current next row col cfg rnd cell o rnd' ->
  Forall (fun '(_, _, v) => 0 < Energy v <= Cfg.Starve cfg) (writes_of row col o).
Proof.
  intros Hstarve Hcell. unfold shark_decision. cbv zeta.
  assert (GoInt.sub (Energy cell) 1 <= Cfg.Starve cfg) as Hle.
  { unfold GoInt.sub. pose proof (wrap_int_le (Energy cell - 1)). lia. }
  case_decide; [intros [-> _]; each_write|].
  case_decide; [|case_decide].
  - intros [_ ->]. destruct (chosen _ rnd) as [nr nc].
    case_decide; simpl; repeat (constructor; [simpl; lia|]); apply Forall_nil.
  - intros [_ ->]. destruct (chosen _ rnd) as [nr nc].
    case_decide; simpl; repeat (constructor; [simpl; lia|]); apply Forall_nil.
  - intros [-> _]. simpl. repeat (constructor; [simpl; lia|]). apply Forall_nil.
Qed.

Lemma NewWorld_empty (cfg : Config) (w0 : World) :
  Cfg.GridSize cfg <= GoInt.int_max ->
  NewWorld cfg = Some w0 ->
  square w0 /\ Starve w0 = Cfg.Starve cfg /\
  (forall p, in_grid w0 p -> holds w0 Empty p).
Proof.
  intros Hmax. unfold NewWorld.
  destruct (makeCells (Cfg.GridSize cfg)) as [cells|] eqn:Hcells; [|done].
  bind_step. intros [= <-].
  assert (0 <= Cfg.GridSize cfg) as Hpos.
  { unfold makeCells in Hcells. by case_decide. }
  set (w := {| Size := Cfg.GridSize cfg; Cells := []; FishBreed := Cfg.FishBreed cfg;
               SharkBreed := Cfg.SharkBreed cfg; Starve := Cfg.Starve cfg |}).
  destruct (makeCells_square w cells) as [Hsq Hempty]; [done..|].
  split_and!; done.
Qed.

Lemma Populate_healthy (cfg : Config) (w0 w : World) numFish numShark rnd rnd' :
  0 < Cfg.Starve cfg -> Cfg.GridSize cfg <= GoInt.int_max ->
  NewWorld cfg = Some w0 ->
  Populate w0 numFish numShark rnd = Some (w, rnd') ->
  square w /\ healthy cfg w.
Proof.
  intros Hstarve Hmax Hnew Hpop.
  destruct (NewWorld_empty cfg w0 Hmax Hnew) as (Hsq0 & Hst0 & Hempty).
  destruct (Populate_spec w0 numFish numShark rnd Hsq0 Hempty)
    as (w' & rnd'' & positions & Hpop' & Hperm & Hsq & Hsz & Hst & Hspec).
  rewrite Hpop in Hpop'. injection Hpop' as <- <-. split; [done|].
  cbv zeta in Hspec. destruct Hspec as (Hsharks & Hfish & Hothers).
  set (ks := (Z.to_nat numShark `min` length positions)%nat) in *.
  set (kf := (Z.to_nat numFish `min` (length positions - ks))%nat) in *.
  intros row col cell Hcell Hent.
  destruct (decide ((row, col) ∈ take ks positions)) as [Hs|Hns].
  { pose proof (Hsharks _ Hs) as Hs'. simpl in Hs'. rewrite Hs' in Hcell.
    injection Hcell as <-. simpl. lia. }
  exfalso. destruct (decide ((row, col) ∈ take kf (drop ks positions))) as [Hf|Hnf].
  { destruct (Hfish _ Hf) as (v & Hv & Hve & _). simpl in Hv. congruence. }
  destruct (Hothers (row, col)) as (v & Hv & Hve).
  - apply in_grid_same_size with (w := w); [done|].
    apply cell_at_in_grid; [done|]. eauto.
  - rewrite <- take_take_drop, elem_of_app. tauto.
  - simpl in Hv. congruence.
Qed.

Lemma StepWorld_healthy (cfg : Config) (w w' : World) (rnd rnd' : Rand) :
  0 < Cfg.Starve cfg -> square w -> healthy cfg w ->
  StepWorld w cfg rnd = Some (w', rnd') ->
  square w' /\ healthy cfg w'.
Proof.
  intros Hstarve Hsq Hhealthy Hstep. unfold StepWorld in Hstep.
  destruct (StepWorld_run w cfg rnd) as [[[next r] events]|] eqn:Hrun; [|done].
  bind_step in Hstep. injection Hstep as -> ->.
  destruct (StepWorld_run_record w cfg rnd w' rnd' events Hsq Hrun)
    as ([Hsq' _] & Hj & Hrec).
  split; [done|]. intros r c v Hv Hent.
  destruct (Hrec r c v Hv ltac:(congruence)) as (row & col & o & Hev & Hw).
  pose proof (proj1 (list.Forall_forall _ _) Hj _ Hev) as Hjust.
  destruct Hjust as (nxt & r0 & r1 & cell & _ & _ & Hcell & [[Hf Hdec]|[Hs Hdec]]).
  - apply fish_decision_entity in Hdec.
    pose proof (proj1 (list.Forall_forall _ _) Hdec _ Hw) as Hfish.
    simpl in Hfish. congruence.
  - apply shark_decision_energy in Hdec; [|done|by eapply Hhealthy].
    exact (proj1 (list.Forall_forall _ _) Hdec _ Hw).
Qed.

(** C10.  With [cfg.Starve > 0], every shark of every reachable world has an
    energy of at most [cfg.Starve] (and a positive one): [Populate] gives
    every shark [Starve], and a step writes a shark with [cfg.Starve] or with
    the positive result of decrementing the energy it had. *)
Theorem shark_energy_bounded (cfg : Config) (w : World) :
  0 < Cfg.Starve cfg -> GoInt.is_int (Cfg.GridSize cfg) ->
  reachable cfg w ->
  forall row col cell,
    cell_at w row col = Some cell -> entity cell = Shark ->
    0 < Energy cell <= Cfg.Starve cfg.
Proof.
  intros Hstarve [_ Hmax] Hreach.
  assert (square w /\ healthy cfg w) as [_ H]; [|exact H].
  induction Hreach as [w0 numFish numShark rnd w rnd' Hnew Hpop
                      |w rnd w' rnd' Hreach [Hsq Hh] Hstep].
  - by eapply Populate_healthy.
  - by eapply StepWorld_healthy.
Qed.

Lemma shark_energy_bounded_witness :
  exists w, reachable (cfg_slow 2) w /\
            forall row col cell,
              cell_at w row col = Some cell -> entity cell = Shark ->
              0 < Energy cell <= 6.
Proof.
  destruct (Populate (empty_grid 2) 1 2 (tape [3; 1; 2])) as [[w rnd']|] eqn:Hpop;
    [|vm_compute in Hpop; discriminate].
  destruct (StepWorld w (cfg_slow 2) (tape [1; 0; 2])) as [[w' rnd'']|] eqn:Hstep.
  2: { vm_compute in Hpop. injection Hpop as <- _. vm_compute in Hstep. discriminate. }
  assert (reachable (cfg_slow 2) w') as Hreach.
  { apply (reachable_stepped (cfg_slow 2) w (tape [1; 0; 2]) w' rnd''); [|exact Hstep].
    apply (reachable_populated (cfg_slow 2) (empty_grid 2) 1 2 (tape [3; 1; 2]) w rnd');
      [reflexivity|exact Hpop]. }
  exists w'. split; [exact Hreach|].
  apply (shark_energy_bounded (cfg_slow 2) w'); [reflexivity| |exact Hreach].
  unfold GoInt.is_int, GoInt.int_min, GoInt.int_max. simpl. lia.
Defined.

(** ** Determinism *)

Lemma iter_advance (m : nat) (rnd : Rand) (k : nat) :
  Nat.iter m advance rnd k = rnd (m + k)%nat.
Proof.
  revert k. induction m as [|m IH]; intros k; [done|].
  change (Nat.iter (S m) advance rnd k) with (Nat.iter m advance rnd (S k)).
  rewrite IH. f_equal. lia.
Qed.

Lemma same_prefix_le (n n' : nat) (r1 r2 : Rand) :
  (n' <= n)%nat -> same_prefix n r1 r2 -> same_prefix n' r1 r2.
Proof. intros Hle H k Hk. apply H. lia. Qed.

Lemma same_prefix_iter (n m : nat) (r1 r2 : Rand) :
  same_prefix (m + n) r1 r2 ->
  same_prefix n (Nat.iter m advance r1) (Nat.iter m advance r2).
Proof. intros H k Hk. rewrite !iter_advance. apply H. lia. Qed.

Lemma pick_replayed (targets : list (Z * Z)) (r1 r2 : Rand) :
  same_prefix 1 r1 r2 ->
  replayed 1 r1 r2 (pick targets r1) (pick targets r2).
Proof.
  intros H. unfold pick, Intn. case_decide; [|done]. simpl.
  rewrite <- (H 0%nat) by lia.
  destruct (index targets _) as [[nr nc]|]; simpl; [|done].
  split; [done|]. exists 1%nat. split; [lia|done].
Qed.

Lemma fishRule_replayed current next row col cfg1 cfg2 (r1 r2 : Rand) :
  same_rules cfg1 cfg2 -> same_prefix 1 r1 r2 ->
  replayed 1 r1 r2 (fishRule current next row col cfg1 r1)
                   (fishRule current next row col cfg2 r2).
Proof.
  intros (Hf & _ & _) H. unfold fishRule.
  destruct (cell_at current row col) as [cell|]; [|done]. bind_step. cbv zeta.
  destruct (candidates Empty current next _) as [spots|]; [|done]. bind_step.
  case_decide.
  { split; [done|]. exists 0%nat. split; [lia|done]. }
  pose proof (pick_replayed spots r1 r2 H) as Hpick.
  destruct (pick spots r1) as [[[nr nc] r1']|], (pick spots r2) as [[[nr2 nc2] r2']|];
    simpl in *; try done.
  destruct Hpick as [[= <- <-] Hm]. rewrite <- Hf.
  by case_decide.
Qed.

Lemma sharkRule_replayed current next row col cfg1 cfg2 (r1 r2 : Rand) :
  same_rules cfg1 cfg2 -> same_prefix 1 r1 r2 ->
  replayed 1 r1 r2 (sharkRule current next row col cfg1 r1)
                   (sharkRule current next row col cfg2 r2).
Proof.
  intros (_ & Hb & Hs) H. unfold sharkRule.
  destruct (cell_at current row col) as [cell|]; [|done]. bind_step. cbv zeta.
  case_decide.
  { split; [done|]. exists 0%nat. split; [lia|done]. }
  destruct (candidates Fish current next _) as [prey|]; [|done]. bind_step.
  case_decide.
  - pose proof (pick_replayed prey r1 r2 H) as Hpick.
    destruct (pick prey r1) as [[[nr nc] r1']|], (pick prey r2) as [[[nr2 nc2] r2']|];
      simpl in *; try done.
    destruct Hpick as [[= <- <-] Hm]. rewrite <- Hb, <- Hs.
    by case_decide.
  - destruct (candidates Empty current next _) as [room|]; [|done]. bind_step.
    case_decide.
    + pose proof (pick_replayed room r1 r2 H) as Hpick.
      destruct (pick room r1) as [[[nr nc] r1']|], (pick room r2) as [[[nr2 nc2] r2']|];
        simpl in *; try done.
      destruct Hpick as [[= <- <-] Hm]. rewrite <- Hb, <- Hs.
      by case_decide.
    + split; [done|]. exists 0%nat. split; [lia|done].
Qed.

(** An iteration of the loop draws at most once, and only at a cell that
    holds a fish or a shark in [w]. *)
Lemma visit_replayed (w : World) (cfg1 cfg2 : Config) (row col : Z)
    (next : World) (events : list Event) (r1 r2 : Rand) :
  let budget := if decide (occupied w (row, col)) then 1%nat else 0%nat in
  same_rules cfg1 cfg2 -> same_prefix budget r1 r2 ->
  replayed_staging budget r1 r2
    (visit w cfg1 row col (next, r1, events))
    (visit w cfg2 row col (next, r2, events)).
Proof.
  intros budget Hcfg H. unfold replayed_staging, visit.
  assert (replayed budget r1 r2
            (Some (next, events, r1)) (Some (next, events, r2))) as Hskip.
  { split; [done|]. exists 0%nat. split; [lia|done]. }
  destruct (cell_at next row col) as [n|]; [|done]. bind_step.
  case_decide; [exact Hskip|].
  destruct (cell_at w row col) as [cell|] eqn:Hcell; [|done]. bind_step.
  destruct (entity cell) eqn:Hent; [exact Hskip| |].
  - assert (budget = 1%nat) as ->.
    { unfold budget. rewrite decide_True; [done|]. left. by exists cell. }
    pose proof (fishRule_replayed w next row col cfg1 cfg2 r1 r2 Hcfg H) as Hrule.
    unfold stepFish.
    destruct (fishRule w next row col cfg1 r1) as [[o1 r1']|],
             (fishRule w next row col cfg2 r2) as [[o2 r2']|]; simpl in *; try done.
    destruct Hrule as [<- Hm].
    destruct (commit next row col o1) as [next'|]; simpl; [|done]. done.
  - assert (budget = 1%nat) as ->.
    { unfold budget. rewrite decide_True; [done|]. right. by exists cell. }
    pose proof (sharkRule_replayed w next row col cfg1 cfg2 r1 r2 Hcfg H) as Hrule.
    unfold stepShark.
    destruct (sharkRule w next row col cfg1 r1) as [[o1 r1']|],
             (sharkRule w next row col cfg2 r2) as [[o2 r2']|]; simpl in *; try done.
    destruct Hrule as [<- Hm].
    destruct (commit next row col o1) as [next'|]; simpl; [|done]. done.
Qed.

Lemma forM_visit_replayed (w : World) (cfg1 cfg2 : Config) (ps : list (Z * Z))
    (next : World) (events : list Event) (r1 r2 : Rand) :
  same_rules cfg1 cfg2 ->
  same_prefix (length (filter (occupied w) ps)) r1 r2 ->
  replayed_staging (length (filter (occupied w) ps)) r1 r2
    (forM (fun p => visit w cfg1 p.1 p.2) ps (next, r1, events))
    (forM (fun p => visit w cfg2 p.1 p.2) ps (next, r2, events)).
Proof.
  intros Hcfg. revert next events r1 r2.
  induction ps as [|[row col] ps IH]; intros next events r1 r2 H.
  { split; [done|]. exists 0%nat. split; [lia|done]. }
  rewrite filter_cons in *. cbn [forM]. cbv beta. cbn [fst snd].
  set (budget := if decide (occupied w (row, col)) then 1%nat else 0%nat).
  set (rest := length (filter (occupied w) ps)) in *.
  assert (length (if decide (occupied w (row, col))
                  then (row, col) :: filter (occupied w) ps
                  else filter (occupied w) ps) = (budget + rest)%nat) as Hlen.
  { unfold budget. by case_decide. }
  rewrite Hlen in *.
  pose proof (visit_replayed w cfg1 cfg2 row col next events r1 r2 Hcfg
                (same_prefix_le (budget + rest) budget r1 r2 ltac:(lia) H)) as Hvisit.
  fold budget in Hvisit. unfold replayed_staging in Hvisit.
  destruct (visit w cfg1 row col (next, r1, events)) as [[[n1 s1] e1]|],
           (visit w cfg2 row col (next, r2, events)) as [[[n2 s2] e2]|];
    simpl in Hvisit; try done.
  destruct Hvisit as [[= <- <-] (m & Hm & -> & ->)]. bind_step.
  pose proof (IH n1 e1 (Nat.iter m advance r1) (Nat.iter m advance r2)) as Hrest.
  fold rest in Hrest.
  specialize (Hrest (same_prefix_iter rest m r1 r2
                       (same_prefix_le (budget + rest) (m + rest) r1 r2 ltac:(lia) H))).
  unfold replayed_staging in *.
  destruct (forM (fun p => visit w cfg1 p.1 p.2) ps (n1, Nat.iter m advance r1, e1))
    as [[[n1' s1'] e1']|],
    (forM (fun p => visit w cfg2 p.1 p.2) ps (n1, Nat.iter m advance r2, e1))
    as [[[n2' s2'] e2']|];
    simpl in *; try done.
  destruct Hrest as [Heq (m' & Hm' & -> & ->)]. split; [done|].
  exists (m' + m)%nat. split; [lia|]. by rewrite !Nat.iter_add.
Qed.

Lemma StepWorld_run_replayed (w : World) (cfg1 cfg2 : Config) (r1 r2 : Rand) :
  same_rules cfg1 cfg2 -> same_prefix (organisms w) r1 r2 ->
  replayed_staging (organisms w) r1 r2
    (StepWorld_run w cfg1 r1) (StepWorld_run w cfg2 r2).
Proof.
  intros Hcfg H. unfold StepWorld_run.
  destruct (newEmptyWorldLike w) as [next|]; [|done]. bind_step.
  rewrite (forM_nested (visit w cfg1)), (forM_nested (visit w cfg2)).
  rewrite organisms_occupied in *. by apply forM_visit_replayed.
Qed.

(** C5.  The next generation is a function of the world, of the three rule
    parameters of the configuration and of the values that the step draws,
    which are at most as many as the world has fish and sharks.  From the
    same world, two runs of [StepWorld] whose configurations agree on
    [FishBreed], [SharkBreed] and [Starve] (the number of threads and every
    other field are not read) and whose sources draw the same values that
    far both panic, or both return the same next generation, cell for cell,
    after the same number of draws. *)
Theorem StepWorld_deterministic (w : World) (cfg1 cfg2 : Config)
    (rnd1 rnd2 : Rand) :
  Cfg.FishBreed cfg1 = Cfg.FishBreed cfg2 ->
  Cfg.SharkBreed cfg1 = Cfg.SharkBreed cfg2 ->
  Cfg.Starve cfg1 = Cfg.Starve cfg2 ->
  (forall k, (k < organisms w)%nat -> rnd1 k = rnd2 k) ->
  match StepWorld w cfg1 rnd1, StepWorld w cfg2 rnd2 with
  | Some (next1, rnd1'), Some (next2, rnd2') =>
      next1 = next2 /\
      exists m, (m <= organisms w)%nat /\
                (forall k, rnd1' k = rnd1 (m + k)%nat) /\
                (forall k, rnd2' k = rnd2 (m + k)%nat)
  | None, None => True
  | _, _ => False
  end.
Proof.
  intros Hf Hb Hs H.
  pose proof (StepWorld_run_replayed w cfg1 cfg2 rnd1 rnd2
                (conj Hf (conj Hb Hs)) H) as Hrun.
  unfold StepWorld, replayed_staging in *.
  destruct (StepWorld_run w cfg1 rnd1) as [[[n1 r1] e1]|],
           (StepWorld_run w cfg2 rnd2) as [[[n2 r2] e2]|]; simpl in *; try done.
  destruct Hrun as [[= <- _] (m & Hm & -> & ->)]. split; [done|].
  exists m. split; [done|]. split; intros k; apply iter_advance.
Qed.

Lemma StepWorld_deterministic_witness :
  exists next rnd1' rnd2',
    StepWorld crowded_pond (cfg_slow 2) (tape [7; 2; 1]) = Some (next, rnd1') /\
    StepWorld crowded_pond (cfg_threads 2 8) (tape [7; 2; 1; 4; 4]) =
      Some (next, rnd2').
Proof.
  pose proof (StepWorld_deterministic crowded_pond (cfg_slow 2) (cfg_threads 2 8)
                (tape [7; 2; 1]) (tape [7; 2; 1; 4; 4])
                eq_refl eq_refl eq_refl) as H.
  destruct (StepWorld crowded_pond (cfg_slow 2) (tape [7; 2; 1]))
    as [[n1 r1]|] eqn:H1; [|vm_compute in H1; discriminate].
  destruct (StepWorld crowded_pond (cfg_threads 2 8) (tape [7; 2; 1; 4; 4]))
    as [[n2 r2]|] eqn:H2; [|vm_compute in H2; discriminate].
  destruct H as [<- _].
  - intros [|[|[|k]]] Hk; try reflexivity. vm_compute in Hk. lia.
  - exists n1, r1, r2. split; reflexivity.
Defined.

(** ** [countEntities] *)

Lemma count_loop (w : World) (e : Entity) (ps : list (Z * Z)) (count : Z) :
  square w -> Forall (in_grid w) ps ->
  0 <= count -> count + Z.of_nat (length ps) <= GoInt.int_max ->
  forM (fun p n =>
          c ← cell_at w p.1 p.2;
          Some (if decide (entity c = e) then GoInt.add n 1 else n)) ps count =
  Some (count + Z.of_nat (length (filter (holds w e) ps))).
Proof.
  intros Hsq Hps. revert count.
  induction Hps as [|[r c] ps Hp _ IH]; intros count H0 Hmax.
  - simpl. f_equal. lia.
  - assert (is_Some (cell_at w r c)) as [v Hv] by (by apply cell_at_in_grid).
    cbn [forM]. simpl in Hmax |- *. rewrite Hv. bind_step.
    rewrite filter_cons. unfold GoInt.int_max in Hmax.
    destruct (decide (entity v = e)) as [He|He].
    + rewrite decide_True by (by exists v).
      rewrite add_exact by (unfold GoInt.is_int, GoInt.int_min, GoInt.int_max; lia).
      rewrite IH by (unfold GoInt.int_max; lia). f_equal. simpl. lia.
    + rewrite decide_False.
      * apply IH; [done|]. unfold GoInt.int_max. lia.
      * intros (v' & Hv' & He'). simpl in Hv'. congruence.
Qed.

(** On a square grid whose number of cells fits an [int], [countEntities]
    returns the census. *)
Lemma countEntities_census (w : World) (e : Entity) :
  square w -> Size w * Size w <= GoInt.int_max ->
  countEntities w e = Some (Z.of_nat (census w e)).
Proof.
  intros Hsq Hfit. unfold countEntities, census.
  rewrite (forM_nested (fun row col count =>
             c ← cell_at w row col;
             Some (if decide (entity c = e) then GoInt.add count 1 else count))).
  rewrite (count_loop w e); [done|done| |done|].
  - apply list.Forall_forall. intros p Hp%elem_of_all_positions. exact Hp.
  - rewrite all_positions_length. destruct Hsq as ([? ?] & _). nia.
Qed.

(** ** A starved shark in a whole step *)

Lemma written_None (ws : list (Z * Z * Cell)) (p : Z * Z) :
  Forall (fun '(r, c, _) => (r, c) <> p) ws -> written ws p = None.
Proof.
  induction 1 as [|[[r c] v] ws Hne _ IH]; [done|].
  cbn [written]. rewrite IH. by rewrite decide_False.
Qed.

(** The writes of an outcome go to the cell of the occupant or to the
    destination. *)
Lemma writes_of_targets (row col : Z) (o : Outcome) (p : Z * Z) :
  p <> (row, col) -> destination o <> Some p ->
  Forall (fun '(r, c, _) => (r, c) <> p) (writes_of row col o).
Proof.
  intros Horigin Hdest. destruct o as [|v|nr nc v|nr nc v1 v2]; simpl in *;
    repeat (constructor; [congruence|]); apply Forall_nil.
Qed.

Section starved.
Context (w : World) (cfg : Config) (row col : Z) (cell : Cell).
Hypothesis Hcell : cell_at w row col = Some cell.
Hypothesis Hshark : entity cell = Shark.
Hypothesis Hstarved : GoInt.sub (Energy cell) 1 <= 0.

(** Nothing is ever written to the cell of a starved shark: its own rule
    writes nothing, and the destinations of the others hold a fish or
    nothing in [w]. *)
Lemma visited_starved (r c : Z) (st st' : Staging) :
  holds st.1.1 Empty (row, col) ->
  visited w cfg r c st st' ->
  holds st'.1.1 Empty (row, col) /\
  (forall ev, ev ∈ st.2 -> ev ∈ st'.2) /\
  ((r, c) = (row, col) -> (row, col, Dies) ∈ st'.2).
Proof.
  intros Hfree Hv.
  assert (forall want p, want <> Shark -> holds w want p -> p <> (row, col)) as Hother.
  { intros want p Hw (v & Hv' & He) ->. simpl in Hv'. congruence. }
  destruct Hv as
    [st Hfull|st Hempty
    |next rnd events occupant o rnd' next' Hstaged Hguard Hocc Hent Hdec Hcommit
    |next rnd events occupant o rnd' next' Hstaged Hguard Hocc Hent Hdec Hcommit];
    simpl in *.
  - split_and!; [done|done|]. intros [= -> ->]. done.
  - split_and!; [done|done|]. intros [= -> ->].
    by pose proof (Hother Empty _ ltac:(done) Hempty).
  - destruct (fish_decision_lands _ _ _ _ _ _ _ _ _ Hocc Hent Hguard Hdec)
      as [_ Hdest].
    assert ((r, c) <> (row, col)) as Hne by (intros [= -> ->]; congruence).
    split_and!; [|intros ev Hev; apply elem_of_app; by left|done].
    destruct Hfree as (v & Hv & He). exists v. split; [|done]. simpl in *.
    rewrite (commit_cell_at _ _ _ _ _ Hcommit), written_None; [done|].
    apply writes_of_targets; [congruence|].
    intros Hd. destruct (Hdest _ Hd) as [_ [Hcur _]].
    by pose proof (Hother Empty _ ltac:(done) Hcur).
  - destruct (shark_decision_lands _ _ _ _ _ _ _ _ _ Hocc Hent Hguard Hdec)
      as [_ Hdest].
    destruct (decide ((r, c) = (row, col))) as [[= -> ->]|Hne].
    + assert (occupant = cell) as -> by congruence.
      assert (o = Dies) as ->.
      { revert Hdec. unfold shark_decision. cbv zeta.
        rewrite decide_True by done. by intros [-> _]. }
      unfold commit in Hcommit. simpl in Hcommit. injection Hcommit as <-.
      split_and!; [done|intros ev Hev; apply elem_of_app; by left|].
      intros _. apply elem_of_app. right. left.
    + split_and!; [|intros ev Hev; apply elem_of_app; by left|done].
      destruct Hfree as (v & Hv & He). exists v. split; [|done]. simpl in *.
      rewrite (commit_cell_at _ _ _ _ _ Hcommit), written_None; [done|].
      apply writes_of_targets; [congruence|].
      intros Hd. destruct (Hdest _ Hd) as [_ [[Hcur _]|[Hcur _]]].
      * by pose proof (Hother Fish _ ltac:(done) Hcur).
      * by pose proof (Hother Empty _ ltac:(done) Hcur).
Qed.

Lemma run_starved (ps : list (Z * Z)) (st st' : Staging) :
  holds st.1.1 Empty (row, col) ->
  run w cfg ps st st' ->
  holds st'.1.1 Empty (row, col) /\
  (forall ev, ev ∈ st.2 -> ev ∈ st'.2) /\
  ((row, col) ∈ ps -> (row, col, Dies) ∈ st'.2).
Proof.
  intros Hfree Hrun. induction Hrun as [st|r c ps st st1 st2 Hv Hrun IH].
  - split_and!; [done|done|]. intros H. by apply elem_of_nil in H.
  - destruct (visited_starved r c st st1 Hfree Hv) as (Hfree1 & Hgrow1 & Hhere).
    destruct (IH Hfree1) as (Hfree2 & Hgrow2 & Hlater).
    split_and!; [done|by auto|].
    intros [Heq|Hin]%elem_of_cons; [|by auto].
    apply Hgrow2, Hhere. done.
Qed.

End starved.

(** In a whole step, a shark whose energy after the decrement is not
    positive is recorded as dying, and its cell is [Empty] in the next
    generation. *)
Lemma starved_shark_absent (w : World) (cfg : Config) (rnd : Rand)
    (next : World) (rnd' : Rand) (events : list Event)
    (row col : Z) (cell : Cell) :
  square w ->
  StepWorld_run w cfg rnd = Some (next, rnd', events) ->
  cell_at w row col = Some cell -> entity cell = Shark ->
  GoInt.sub (Energy cell) 1 <= 0 ->
  holds next Empty (row, col) /\ (row, col, Dies) ∈ events.
Proof.
  intros Hw Hrun Hcell Hshark Hstarved.
  destruct (StepWorld_run_total w cfg rnd Hw)
    as (next0 & st & Hnew & Hrun' & _ & Hrel & Hst0 & Hst & Hempty).
  rewrite Hrun in Hrun'. injection Hrun' as <-.
  assert (in_grid w (row, col)) as Hin.
  { apply cell_at_in_grid; [done|]. eauto. }
  destruct (run_starved w cfg row col cell Hcell Hshark Hstarved
              (all_positions (Size w)) (next0, rnd, []) (next, rnd', events)
              (Hempty _ Hin) Hrel) as (Hfree & _ & Hdies).
  split; [done|]. apply Hdies. by apply elem_of_all_positions.
Qed.

(** C4.  A shark whose energy after the decrement is not positive writes
    nothing: [stepShark] returns the next grid and the random source as it
    got them, and in a whole step from its grid the shark is recorded as
    dying and its cell is [Empty] in the next generation.  A shark that
    survives, finds no fish to eat and does not breed is written into the
    next grid once, with its energy decremented by one (and its breed timer
    incremented): at its own coordinate when no neighbour is free, at the
    free neighbour that is drawn otherwise; no other cell of the next grid
    changes.  The decrement is the source's [cell.Energy - 1]; it is the
    mathematical one for every energy but the least [int]. *)
Theorem stepShark_energy current next row col cfg rnd cell :
  staged current next row col ->
  cell_at current row col = Some cell -> entity cell = Shark ->
  let newEnergy := GoInt.sub (Energy cell) 1 in
  exists next' rnd' o,
    stepShark current next row col cfg rnd = Some (next', rnd', o) /\
    (newEnergy <= 0 ->
       o = Dies /\ writes_of row col o = [] /\ next' = next /\ rnd' = rnd /\
       forall rnd0 final rnd1 events,
         StepWorld_run current cfg rnd0 = Some (final, rnd1, events) ->
         (row, col, Dies) ∈ events /\ holds final Empty (row, col)) /\
    (0 < newEnergy ->
     filter (free Fish current next) (Neighbors current row col) = [] ->
     ~ is_breed o ->
       let room := filter (free Empty current next) (Neighbors current row col) in
       let target := if decide (room = []) then (row, col) else chosen room rnd in
       let self := mkCell Shark (GoInt.add (BreedTimer cell) 1) newEnergy in
       writes_of row col o = [(target.1, target.2, self)] /\
       cell_at next' target.1 target.2 = Some self /\
       (forall r c, (r, c) <> target -> cell_at next' r c = cell_at next r c) /\
       rnd' = (if decide (room = []) then rnd else advance rnd)) /\
    (GoInt.int_min < Energy cell <= GoInt.int_max ->
       newEnergy = Energy cell - 1).
Proof.
  intros Hst Hcell Hshark newEnergy.
  destruct (stepShark_total current next row col cfg rnd cell Hst Hcell)
    as (next' & rnd' & o & Hstep & Hdec & Hcommit).
  exists next', rnd', o. split; [done|].
  pose proof (commit_cell_at next next' row col o Hcommit) as Hat.
  revert Hdec. unfold shark_decision. cbv zeta. fold newEnergy.
  set (prey := filter (free Fish current next) (Neighbors current row col)).
  set (room := filter (free Empty current next) (Neighbors current row col)).
  assert (GoInt.int_min < Energy cell <= GoInt.int_max ->
          newEnergy = Energy cell - 1) as Hexact.
  { intros H. apply sub_exact. unfold GoInt.is_int. lia. }
  assert (forall t : Z * Z,
            writes_of row col o =
              [(t.1, t.2, mkCell Shark (GoInt.add (BreedTimer cell) 1) newEnergy)] ->
            cell_at next' t.1 t.2 =
              Some (mkCell Shark (GoInt.add (BreedTimer cell) 1) newEnergy) /\
            (forall r c, (r, c) <> t -> cell_at next' r c = cell_at next r c))
    as Hwritten.
  { intros [t1 t2] Hw. rewrite Hw in Hat. simpl in *. split.
    - rewrite Hat. by rewrite decide_True.
    - intros r c Hne. rewrite Hat. by rewrite decide_False. }
  case_decide as He; [|case_decide as Hp; [|case_decide as Hr]].
  - intros [-> ->]. split_and!; [|lia|done].
    intros _. unfold commit in Hcommit. simpl in Hcommit. injection Hcommit as ->.
    split_and!; try done.
    intros rnd0 final rnd1 events Hrun. destruct Hst as (Hsq & _).
    destruct (starved_shark_absent current cfg rnd0 final rnd1 events row col cell)
      as [Hfree Hev]; done.
  - intros _. split_and!; [lia|done|done].
  - intros [-> ->]. split_and!; [lia| |done].
    intros _ _ Hnb. rewrite decide_False by done.
    destruct (chosen room rnd) as [nr nc] eqn:Hch.
    case_decide; simpl in Hnb; [tauto|].
    destruct (Hwritten (nr, nc) eq_refl) as [Hself Hothers].
    rewrite decide_False by done. done.
  - intros [-> ->]. split_and!; [lia| |done].
    intros _ _ _. rewrite decide_True by done.
    destruct (Hwritten (row, col) eq_refl) as [Hself Hothers].
    rewrite decide_True by done. done.
Qed.

Lemma stepShark_energy_witness :
  let spent := grid 3 [ [zeroCell; zeroCell; zeroCell];
                        [zeroCell; shark 0 1; zeroCell];
                        [zeroCell; zeroCell; zeroCell] ] in
  let roaming := grid 3 [ [zeroCell; zeroCell; zeroCell];
                          [zeroCell; shark 0 3; zeroCell];
                          [zeroCell; zeroCell; zeroCell] ] in
  (exists next' rnd' o,
     stepShark spent (empty_grid 3) 1 1 (cfg_slow 3) (tape []) = Some (next', rnd', o) /\
     o = Dies /\ next' = empty_grid 3) /\
  (exists next' rnd' o,
     stepShark roaming (empty_grid 3) 1 1 (cfg_slow 3) (tape [2]) = Some (next', rnd', o) /\
     cell_at next' 1 0 = Some (shark 1 2) /\
     cell_at next' 1 1 = Some zeroCell).
Proof.
  intros spent roaming. split.
  - assert (staged spent (empty_grid 3) 1 1) as Hst by closed_grid.
    destruct (stepShark_energy spent (empty_grid 3) 1 1 (cfg_slow 3) (tape [])
                (shark 0 1) Hst eq_refl eq_refl)
      as (next' & rnd' & o & Hstep & Hdies & _).
    exists next', rnd', o. split; [exact Hstep|].
    destruct Hdies as (Ho & _ & Hn & _).
    + vm_compute. discriminate.
    + split; [exact Ho|exact Hn].
  - assert (staged roaming (empty_grid 3) 1 1) as Hst by closed_grid.
    destruct (stepShark_energy roaming (empty_grid 3) 1 1 (cfg_slow 3) (tape [2])
                (shark 0 3) Hst eq_refl eq_refl)
      as (next' & rnd' & o & Hstep & _ & Hlives & _).
    exists next', rnd', o. split; [exact Hstep|].
    destruct Hlives as (_ & Hself & Hothers & _).
    + vm_compute. reflexivity.
    + reflexivity.
    + vm_compute in Hstep. injection Hstep as _ _ <-. exact (fun H => H).
    + split; [exact Hself|].
      rewrite (Hothers 1 1); [reflexivity|]. vm_compute. discriminate.
Defined.

(** ** Species of a step *)

Lemma fish_decision_draw current next row col cfg rnd cell o rnd' :
  fish_decision current next row col cfg rnd cell o rnd' ->
  o <> Dies /\ rnd' = drawn o rnd.
Proof.
  unfold fish_decision. cbv zeta. case_decide.
  - by intros [-> ->].
  - intros [-> ->]. destruct (chosen _ rnd) as [nr nc]. by case_decide.
Qed.

Lemma shark_decision_draw current next row col cfg rnd cell o rnd' :
  shark_decision current next row col cfg rnd cell o rnd' ->
  rnd' = drawn o rnd.
Proof.
  unfold shark_decision. cbv zeta.
  case_decide; [by intros [-> ->]|].
  case_decide; [|case_decide; [|by intros [-> ->]]];
    intros [-> ->]; destruct (chosen _ rnd) as [nr nc]; by case_decide.
Qed.

(** Every iteration either leaves the state alone or is [ruled]. *)
Lemma visited_cases (w : World) (cfg : Config) (row col : Z) (st st' : Staging) :
  visited w cfg row col st st' ->
  (st' = st /\ (~ holds st.1.1 Empty (row, col) \/ holds w Empty (row, col))) \/
  exists e o, ruled w row col e st st' o.
Proof.
  intros Hv. destruct Hv as
    [st Hfull|st Hempty
    |next rnd events cell o rnd' next' Hstaged Hguard Hcell Hent Hdec Hcommit
    |next rnd events cell o rnd' next' Hstaged Hguard Hcell Hent Hdec Hcommit].
  - left. auto.
  - left. auto.
  - right. exists Fish, o.
    destruct (fish_decision_lands _ _ _ _ _ _ _ _ _ Hcell Hent Hguard Hdec)
      as [Hlands Hdest].
    destruct (fish_decision_draw _ _ _ _ _ _ _ _ _ Hdec) as [Hnd Hdraw].
    destruct Hstaged as (_ & Hsq & _).
    unfold ruled; simpl. split_and!; try done.
    + by left.
    + by exists cell.
    + intros p Hp. left. by destruct (Hdest p Hp) as [_ [? _]].
  - right. exists Shark, o.
    destruct (shark_decision_lands _ _ _ _ _ _ _ _ _ Hcell Hent Hguard Hdec)
      as [Hlands Hdest].
    pose proof (shark_decision_draw _ _ _ _ _ _ _ _ _ Hdec) as Hdraw.
    destruct Hstaged as (_ & Hsq & _).
    unfold ruled; simpl. split_and!; try done.
    + by right.
    + by exists cell.
    + intros p Hp. destruct (Hdest p Hp) as [_ [[? _]|[? _]]]; auto.
Qed.

Lemma ruled_census (w : World) (row col : Z) (e : Entity) (st st' : Staging)
    (o : Outcome) :
  ruled w row col e st st' o ->
  square st'.1.1 /\ Size st'.1.1 = Size st.1.1 /\
  forall e', e' <> Empty ->
    census st'.1.1 e' =
    (census st.1.1 e' + if decide (e' = e) then length (writes_of row col o) else 0)%nat.
Proof.
  intros (He & _ & _ & Hsq & Hlands & Hcommit & _).
  destruct (commit_lands st.1.1 row col e o Hsq) as
    (next' & Hcommit' & _ & Hsq' & Hsz' & Hcensus & _); [|done|].
  { by destruct He as [-> | ->]. }
  assert (next' = st'.1.1) as -> by congruence. done.
Qed.

(** A rule never writes to the cell of a shark other than its own occupant,
    and the rule of a fish never writes to the cell of another fish. *)
Lemma ruled_elsewhere (w : World) (row col : Z) (e : Entity) (st st' : Staging)
    (o : Outcome) (p : Z * Z) :
  ruled w row col e st st' o ->
  p <> (row, col) ->
  holds w Shark p \/ (holds w Fish p /\ e = Fish) ->
  holds st.1.1 Empty p -> holds st'.1.1 Empty p.
Proof.
  intros (_ & _ & _ & _ & _ & Hcommit & _ & _ & _ & Hdest) Hne Hp (v & Hv & He).
  destruct p as [r c]. exists v. split; [|done]. simpl in *.
  rewrite (commit_cell_at _ _ _ _ _ Hcommit), written_None; [done|].
  apply writes_of_targets; [done|].
  intros Hd. destruct (Hdest _ Hd) as [Hempty|[-> Hfish]].
  - destruct Hp as [Hs|[Hf _]].
    + by pose proof (holds_functional _ _ _ _ Hempty Hs).
    + by pose proof (holds_functional _ _ _ _ Hempty Hf).
  - destruct Hp as [Hs|[_ ?]]; [|done].
    by pose proof (holds_functional _ _ _ _ Hfish Hs).
Qed.

Lemma events_of_app (w : World) (e : Entity) (h1 h2 : list Event) :
  events_of w e (h1 ++ h2) = events_of w e h1 ++ events_of w e h2.
Proof. apply list.filter_app. Qed.

Lemma deaths_app (h1 h2 : list Event) :
  deaths (h1 ++ h2) = (deaths h1 + deaths h2)%nat.
Proof. unfold deaths. by rewrite list.filter_app, length_app. Qed.

Lemma moves_app (h1 h2 : list Event) :
  moves (h1 ++ h2) = (moves h1 + moves h2)%nat.
Proof. unfold moves. by rewrite list.filter_app, length_app. Qed.

Lemma events_of_one (w : World) (e : Entity) (row col : Z) (o : Outcome) :
  events_of w e [(row, col, o)] =
  if decide (holds w e (row, col)) then [(row, col, o)] else [].
Proof. unfold events_of. rewrite filter_cons, filter_nil. done. Qed.

Lemma ruled_ledger (w : World) (row col : Z) (e0 e : Entity) (st st' : Staging)
    (o : Outcome) :
  e <> Empty -> ruled w row col e0 st st' o ->
  ledger w e [(row, col)] st st'.
Proof.
  intros He Hr. destruct (ruled_census _ _ _ _ _ _ _ Hr) as (_ & _ & Hcensus).
  destruct Hr as (He0 & Hw & _ & _ & _ & _ & Hev & Hrnd & Hdies & _).
  exists [(row, col, o)]. split; [done|].
  rewrite (Hcensus e He), writes_of_length, !events_of_one.
  rewrite filter_cons, filter_nil.
  assert (holds w e (row, col) <-> e = e0) as Hiff.
  { split; [intros H; by eapply holds_functional|by intros ->]. }
  split_and!.
  - destruct (decide (holds w e (row, col))) as [Hh|Hh], (decide (e = e0)) as [?|?];
      try tauto; unfold survivors, births; rewrite ?filter_cons, ?filter_nil; simpl;
      destruct o; repeat (case_decide; try done); simpl; lia.
  - destruct (decide (holds w e (row, col))); simpl; lia.
  - rewrite Hrnd. unfold moves, drawn. rewrite filter_cons, filter_nil. simpl.
    destruct (destination o) as [p|]; case_decide as Hsome; simpl; try done.
    destruct Hsome. eauto.
  - apply Forall_singleton. simpl. split.
    + destruct He0 as [-> | ->]; [by left|by right].
    + intros Ho. by rewrite <- (Hdies Ho).
Qed.

Lemma ledger_nothing (w : World) (e : Entity) (ps : list (Z * Z)) (st : Staging) :
  ledger w e ps st st.
Proof.
  exists []. rewrite app_nil_r. unfold survivors, births, moves. simpl.
  split_and!; try done; lia.
Qed.

Lemma run_ledger (w : World) (cfg : Config) (e : Entity) (ps : list (Z * Z))
    (st st' : Staging) :
  e <> Empty -> run w cfg ps st st' -> ledger w e ps st st'.
Proof.
  intros He Hrun. induction Hrun as [st|row col ps st st1 st2 Hv Hrun IH].
  - apply ledger_nothing.
  - assert (ledger w e [(row, col)] st st1) as (new1 & Hev1 & Hc1 & Hl1 & Hr1 & Hd1).
    { destruct (visited_cases _ _ _ _ _ _ Hv) as [[-> _]|(e0 & o & Hr)].
      - apply ledger_nothing.
      - by eapply ruled_ledger. }
    destruct IH as (new2 & Hev2 & Hc2 & Hl2 & Hr2 & Hd2).
    exists (new1 ++ new2).
    rewrite !events_of_app, survivors_app, births_app, moves_app, length_app.
    split_and!.
    + rewrite Hev2, Hev1. by rewrite app_assoc.
    + lia.
    + rewrite filter_cons, filter_nil in Hl1. rewrite filter_cons.
      destruct (decide (holds w e (row, col))); simpl in *; lia.
    + rewrite Hr2, Hr1, Nat.add_comm. symmetry. apply Nat.iter_add.
    + by apply Forall_app.
Qed.

(** When [e] is the sharks, or the fish of a grid without sharks, no cell
    that holds [e] is skipped: every one of them gets its event. *)
Lemma run_everyone (w : World) (cfg : Config) (e : Entity) (ps : list (Z * Z))
    (st st' : Staging) :
  e = Shark \/ (e = Fish /\ forall p, ~ holds w Shark p) ->
  NoDup ps ->
  (forall p, p ∈ ps -> holds w e p -> holds st.1.1 Empty p) ->
  run w cfg ps st st' ->
  exists new : list Event,
    st'.2 = st.2 ++ new /\
    length (events_of w e new) = length (filter (holds w e) ps).
Proof.
  intros He Hnd Hfree Hrun. revert Hnd Hfree.
  induction Hrun as [st|row col ps st st1 st2 Hv Hrun IH]; intros Hnd Hfree.
  - exists []. by rewrite app_nil_r.
  - apply list.NoDup_cons in Hnd as [Hfresh Hnd].
    assert (e <> Empty) as Hne by (destruct He as [->|[-> _]]; done).
    assert (exists new1, st1.2 = st.2 ++ new1 /\
              length (events_of w e new1) =
                length (filter (holds w e) [(row, col)]) /\
              forall p, p ∈ ps -> holds w e p -> holds st1.1.1 Empty p)
      as (new1 & Hev1 & Hl1 & Hfree1).
    { destruct (visited_cases _ _ _ _ _ _ Hv) as [[-> Hskip]|(e0 & o & Hr)].
      - exists []. rewrite app_nil_r. split; [done|]. split.
        + rewrite filter_cons, filter_nil.
          destruct (decide (holds w e (row, col))) as [Hh|Hh]; [|done].
          exfalso. destruct Hskip as [Hfull|Hempty].
          * apply Hfull, Hfree; [left|done].
          * by pose proof (holds_functional _ _ _ _ Hh Hempty).
        + intros p Hp. apply Hfree. by right.
      - exists [(row, col, o)].
        pose proof Hr as (He0 & Hw & _ & _ & _ & _ & Hev & _).
        split; [done|]. split.
        + rewrite events_of_one, filter_cons, filter_nil.
          by destruct (decide (holds w e (row, col))).
        + intros p Hp Hh. apply (ruled_elsewhere _ _ _ _ _ _ _ _ Hr).
          * intros ->. done.
          * destruct He as [->|[-> Hnoshark]]; [by left|right].
            split; [done|]. destruct He0 as [->| ->]; [done|].
            by destruct (Hnoshark _ Hw).
          * apply Hfree; [by right|done]. }
    destruct (IH Hnd Hfree1) as (new2 & Hev2 & Hl2).
    exists (new1 ++ new2). split.
    + rewrite Hev2, Hev1. by rewrite app_assoc.
    + rewrite events_of_app, length_app, Hl1, Hl2.
      rewrite (filter_cons _ (row, col) ps), filter_cons, filter_nil.
      destruct (decide (holds w e (row, col))); simpl; lia.
Qed.

Lemma survivors_deaths (h : list Event) :
  (survivors h + deaths h)%nat = length h.
Proof.
  unfold survivors, deaths. induction h as [|ev h IH]; [done|].
  rewrite !filter_cons. destruct (decide (ev.2 = Dies)) as [Hd|Hd].
  - rewrite decide_False by (intros H; by apply H). simpl. lia.
  - rewrite decide_True by done. simpl. lia.
Qed.

Lemma births_le_length (h : list Event) : (births h <= length h)%nat.
Proof. apply length_filter. Qed.

Lemma census_zero (w : World) (e : Entity) :
  square w -> census w e = 0%nat -> forall p, ~ holds w e p.
Proof.
  intros Hsq Hz p Hp. unfold census in Hz.
  apply length_zero_iff_nil' in Hz.
  assert (p ∈ filter (holds w e) (all_positions (Size w))) as Hin.
  { apply list_elem_of_filter. split; [done|]. apply elem_of_all_positions.
    destruct p as [r c], Hp as (v & Hv & _).
    apply (cell_at_in_grid w r c Hsq). eauto. }
  rewrite Hz in Hin. by apply elem_of_nil in Hin.
Qed.

Lemma newEmptyWorldLike_census (w next0 : World) (e : Entity) :
  shaped w (next0, (fun _ => 0) : Rand, []) ->
  (forall p, in_grid w p -> holds next0 Empty p) ->
  e <> Empty -> census next0 e = 0%nat.
Proof.
  intros [_ Hsz] Hempty He. simpl in Hsz. apply census_nobody.
  intros p Hp Hs. unfold in_grid in Hp. rewrite Hsz in Hp.
  by pose proof (holds_functional _ _ _ _ Hs (Hempty p Hp)).
Qed.

(** The ledger of a whole step, for one species. *)
Lemma StepWorld_run_ledger (w : World) (cfg : Config) (rnd : Rand)
    (next : World) (rnd' : Rand) (events : list Event) (e : Entity) :
  square w -> e <> Empty ->
  StepWorld_run w cfg rnd = Some (next, rnd', events) ->
  census next e =
    (survivors (events_of w e events) + births (events_of w e events))%nat /\
  (length (events_of w e events) <= census w e)%nat /\
  rnd' = Nat.iter (moves events) advance rnd /\
  Forall (fun ev : Event =>
            occupied w (ev.1.1, ev.1.2) /\
            (ev.2 = Dies -> holds w Shark (ev.1.1, ev.1.2))) events.
Proof.
  intros Hw He Hrun.
  destruct (StepWorld_run_total w cfg rnd Hw)
    as (next0 & st & Hnew & Hrun' & _ & Hrel & Hst0 & Hst & Hempty).
  rewrite Hrun in Hrun'. injection Hrun' as <-.
  destruct (run_ledger w cfg e _ _ _ He Hrel) as (new & Hev & Hc & Hl & Hr & Hd).
  simpl in *. subst new.
  rewrite (newEmptyWorldLike_census w next0 e) in Hc; [|split; apply Hst0|done|done].
  done.
Qed.

Lemma StepWorld_run_everyone (w : World) (cfg : Config) (rnd : Rand)
    (next : World) (rnd' : Rand) (events : list Event) (e : Entity) :
  square w ->
  e = Shark \/ (e = Fish /\ forall p, ~ holds w Shark p) ->
  StepWorld_run w cfg rnd = Some (next, rnd', events) ->
  length (events_of w e events) = census w e.
Proof.
  intros Hw He Hrun.
  destruct (StepWorld_run_total w cfg rnd Hw)
    as (next0 & st & Hnew & Hrun' & _ & Hrel & Hst0 & Hst & Hempty).
  rewrite Hrun in Hrun'. injection Hrun' as <-.
  assert (forall p, p ∈ all_positions (Size w) -> holds w e p ->
            holds (next0, rnd, ([] : list Event)).1.1 Empty p) as Hfree.
  { intros p Hp%elem_of_all_positions _. simpl. by apply Hempty. }
  destruct (run_everyone w cfg e _ _ _ He (NoDup_all_positions _) Hfree Hrel)
    as (new & Hev & Hl).
  simpl in *. by subst new.
Qed.

Lemma StepWorld_run_of (w : World) (cfg : Config) (rnd : Rand)
    (next : World) (rnd' : Rand) :
  StepWorld w cfg rnd = Some (next, rnd') ->
  exists events, StepWorld_run w cfg rnd = Some (next, rnd', events).
Proof.
  unfold StepWorld. destruct (StepWorld_run w cfg rnd) as [[[n r] ev]|]; [|done].
  bind_step. intros [= -> ->]. eauto.
Qed.

(** X1. A step at most doubles a species, and an extinct species stays
    extinct: neither rule writes a cell of the other species, and every
    occupant writes at most itself and one offspring. *)
Theorem StepWorld_species_bound (w : World) (cfg : Config) (rnd : Rand)
    (next : World) (rnd' : Rand) (e : Entity) :
  square w -> e <> Empty ->
  StepWorld w cfg rnd = Some (next, rnd') ->
  (census next e <= 2 * census w e)%nat /\
  (census w e = 0%nat -> census next e = 0%nat).
Proof.
  intros Hw He (events & Hrun)%StepWorld_run_of.
  destruct (StepWorld_run_ledger w cfg rnd next rnd' events e Hw He Hrun)
    as (Hc & Hl & _).
  pose proof (survivors_le_length (events_of w e events)).
  pose proof (births_le_length (events_of w e events)).
  split; lia.
Qed.

Lemma StepWorld_species_bound_witness :
  square crowded_pond /\
  exists next rnd',
    StepWorld crowded_pond (cfg_slow 2) (tape []) = Some (next, rnd') /\
    (census next Fish <= 2 * census crowded_pond Fish)%nat /\
    census next Shark = 0%nat.
Proof.
  assert (square crowded_pond) as Hsq by closed_grid.
  split; [exact Hsq|].
  destruct (StepWorld crowded_pond (cfg_slow 2) (tape [])) as [[next rnd']|] eqn:Hstep;
    [|vm_compute in Hstep; discriminate].
  exists next, rnd'. split; [reflexivity|].
  split.
  - exact (proj1 (StepWorld_species_bound crowded_pond (cfg_slow 2) (tape [])
                    next rnd' Fish Hsq ltac:(discriminate) Hstep)).
  - apply (proj2 (StepWorld_species_bound crowded_pond (cfg_slow 2) (tape [])
                    next rnd' Shark Hsq ltac:(discriminate) Hstep)).
    reflexivity.
Defined.

(** X2. No shark is skipped by a step: the sharks of the next generation are
    the sharks of this one, minus those that starve, plus one offspring for
    each shark that breeds. *)
Theorem StepWorld_sharks_accounted (w : World) (cfg : Config) (rnd : Rand)
    (next : World) (rnd' : Rand) (events : list Event) :
  square w ->
  StepWorld_run w cfg rnd = Some (next, rnd', events) ->
  length (events_of w Shark events) = census w Shark /\
  (census next Shark + deaths events)%nat =
    (census w Shark + births (events_of w Shark events))%nat.
Proof.
  intros Hw Hrun.
  destruct (StepWorld_run_ledger w cfg rnd next rnd' events Shark Hw ltac:(done) Hrun)
    as (Hc & _ & _ & Hall).
  pose proof (StepWorld_run_everyone w cfg rnd next rnd' events Shark Hw
                ltac:(by left) Hrun) as Hlen.
  split; [done|].
  assert (deaths events = deaths (events_of w Shark events)) as ->.
  { clear -Hall. unfold deaths, events_of.
    induction Hall as [|ev events [_ Hd] _ IH]; [done|].
    rewrite !filter_cons.
    destruct (decide (ev.2 = Dies)) as [Hdies|Hlives].
    - rewrite (decide_True (P := holds w Shark _)) by auto.
      rewrite filter_cons, decide_True by done. simpl. by rewrite IH.
    - destruct (decide (holds w Shark (ev.1.1, ev.1.2))); [|done].
      by rewrite filter_cons, decide_False. }
  pose proof (survivors_deaths (events_of w Shark events)). lia.
Qed.

Lemma StepWorld_sharks_accounted_witness :
  square hunting_ground /\
  exists next rnd' events,
    StepWorld_run hunting_ground (cfg_slow 3) (tape []) = Some (next, rnd', events) /\
    (census next Shark + deaths events)%nat =
      (census hunting_ground Shark + births (events_of hunting_ground Shark events))%nat.
Proof.
  assert (square hunting_ground) as Hsq by closed_grid.
  split; [exact Hsq|].
  destruct (StepWorld_run hunting_ground (cfg_slow 3) (tape []))
    as [[[next rnd'] events]|] eqn:Hrun; [|vm_compute in Hrun; discriminate].
  exists next, rnd', events. split; [reflexivity|].
  exact (proj2 (StepWorld_sharks_accounted hunting_ground (cfg_slow 3) (tape [])
                  next rnd' events Hsq Hrun)).
Defined.

Lemma step_fish_alone (w : World) (cfg : Config) (rnd : Rand)
    (next : World) (rnd' : Rand) (events : list Event) :
  square w -> census w Shark = 0%nat ->
  StepWorld_run w cfg rnd = Some (next, rnd', events) ->
  census next Shark = 0%nat /\
  deaths events = 0%nat /\
  length events = census w Fish /\
  census next Fish = (census w Fish + births events)%nat.
Proof.
  intros Hw Hnone Hrun.
  pose proof (census_zero w Shark Hw Hnone) as Hnoshark.
  destruct (StepWorld_run_ledger w cfg rnd next rnd' events Shark Hw ltac:(done) Hrun)
    as (Hcs & Hls & _ & Hall).
  destruct (StepWorld_run_ledger w cfg rnd next rnd' events Fish Hw ltac:(done) Hrun)
    as (Hcf & _).
  pose proof (StepWorld_run_everyone w cfg rnd next rnd' events Fish Hw
                ltac:(by right) Hrun) as Hlen.
  assert (events_of w Fish events = events) as Hfish.
  { clear -Hall Hnoshark. unfold events_of.
    induction Hall as [|ev events [[Hf|Hs] _] _ IH]; [done| |by destruct (Hnoshark _ Hs)].
    rewrite filter_cons, decide_True by done. by rewrite IH. }
  assert (deaths events = 0%nat) as Hdeaths.
  { clear -Hall Hnoshark. unfold deaths.
    induction Hall as [|ev events [_ Hd] _ IH]; [done|].
    rewrite filter_cons, decide_False; [done|].
    intros Hdies. by destruct (Hnoshark _ (Hd Hdies)). }
  rewrite Hfish in *.
  pose proof (survivors_deaths events).
  pose proof (survivors_le_length (events_of w Shark events)).
  pose proof (births_le_length (events_of w Shark events)).
  split_and!; try done; lia.
Qed.

(** X3. Without sharks no fish is lost: every fish is written, and the fish
    of the next generation are the fish of this one plus one offspring for
    each breeding. *)
Theorem StepWorld_fish_alone (w : World) (cfg : Config) (rnd : Rand)
    (next : World) (rnd' : Rand) (events : list Event) :
  square w -> census w Shark = 0%nat ->
  StepWorld_run w cfg rnd = Some (next, rnd', events) ->
  census next Shark = 0%nat /\
  deaths events = 0%nat /\
  length events = census w Fish /\
  census next Fish = (census w Fish + births events)%nat.
Proof. exact (step_fish_alone w cfg rnd next rnd' events). Qed.

Lemma StepWorld_fish_alone_witness :
  square crowded_pond /\
  exists next rnd' events,
    StepWorld_run crowded_pond (cfg_slow 2) (tape []) = Some (next, rnd', events) /\
    census next Fish = (census crowded_pond Fish + births events)%nat.
Proof.
  assert (square crowded_pond) as Hsq by closed_grid.
  split; [exact Hsq|].
  destruct (StepWorld_run crowded_pond (cfg_slow 2) (tape []))
    as [[[next rnd'] events]|] eqn:Hrun; [|vm_compute in Hrun; discriminate].
  exists next, rnd', events. split; [reflexivity|].
  destruct (StepWorld_fish_alone crowded_pond (cfg_slow 2) (tape [])
              next rnd' events Hsq eq_refl Hrun) as (_ & _ & _ & H).
  exact H.
Defined.

(** X4. A step draws exactly one value from the random source for every
    occupant that moves, and none for the others. *)
Theorem StepWorld_draws (w : World) (cfg : Config) (rnd : Rand)
    (next : World) (rnd' : Rand) (events : list Event) :
  square w ->
  StepWorld_run w cfg rnd = Some (next, rnd', events) ->
  forall k, rnd' k = rnd (moves events + k)%nat.
Proof.
  intros Hw Hrun.
  destruct (StepWorld_run_ledger w cfg rnd next rnd' events Fish Hw ltac:(done) Hrun)
    as (_ & _ & -> & _).
  generalize (moves events) as n. intros n.
  induction n as [|n IH]; intros k; [done|].
  change (Nat.iter (S n) advance rnd k) with (Nat.iter n advance rnd (S k)).
  rewrite IH. f_equal. lia.
Qed.

Lemma StepWorld_draws_witness :
  square crowded_pond /\
  exists next rnd' events,
    StepWorld_run crowded_pond (cfg_slow 2) (tape [5; 7; 9]) = Some (next, rnd', events) /\
    moves events = 1%nat /\ rnd' 0%nat = 7.
Proof.
  assert (square crowded_pond) as Hsq by closed_grid.
  split; [exact Hsq|].
  destruct (StepWorld_run crowded_pond (cfg_slow 2) (tape [5; 7; 9]))
    as [[[next rnd'] events]|] eqn:Hrun; [|vm_compute in Hrun; discriminate].
  exists next, rnd', events. split; [reflexivity|].
  pose proof (StepWorld_draws crowded_pond (cfg_slow 2) (tape [5; 7; 9])
                next rnd' events Hsq Hrun 0%nat) as Hdraw.
  vm_compute in Hrun. injection Hrun as _ _ <-.
  split; [reflexivity|]. rewrite Hdraw. reflexivity.
Defined.

(** ** The shape of the worlds of a run *)

Lemma commit_params (next next' : World) (row col : Z) (o : Outcome) :
  commit next row col o = Some next' ->
  FishBreed next' = FishBreed next /\ SharkBreed next' = SharkBreed next /\
  Starve next' = Starve next.
Proof.
  unfold commit. generalize (writes_of row col o) as ws. intros ws.
  revert next. induction ws as [|[[r c] v] ws IH]; intros next H.
  - simpl in H. by injection H as <-.
  - cbn [forM] in H. destruct (assign next r c v) as [n1|] eqn:H1; [|done].
    bind_step in H. destruct (IH n1 H) as (-> & -> & ->).
    by destruct (assign_shape _ _ _ _ _ H1) as (_ & -> & -> & -> & _).
Qed.

Lemma run_params (w : World) (cfg : Config) (ps : list (Z * Z)) (st st' : Staging) :
  run w cfg ps st st' ->
  FishBreed st'.1.1 = FishBreed st.1.1 /\ SharkBreed st'.1.1 = SharkBreed st.1.1 /\
  Starve st'.1.1 = Starve st.1.1.
Proof.
  induction 1 as [st|row col ps st st1 st2 Hv Hrun IH]; [done|].
  destruct IH as (-> & -> & ->).
  destruct (visited_cases _ _ _ _ _ _ Hv) as [[-> _]|(e & o & Hr)]; [done|].
  destruct Hr as (_ & _ & _ & _ & _ & Hcommit & _).
  by apply commit_params in Hcommit.
Qed.

Lemma step_shape (w : World) (cfg : Config) (rnd : Rand) :
  square w ->
  exists next rnd',
    StepWorld w cfg rnd = Some (next, rnd') /\
    square next /\ Size next = Size w /\
    FishBreed next = FishBreed w /\ SharkBreed next = SharkBreed w /\
    Starve next = Starve w.
Proof.
  intros Hw.
  destruct (StepWorld_run_total w cfg rnd Hw)
    as (next0 & [[next rnd'] events] & Hnew & _ & Hstep & Hrel & _ & [Hsq Hsz] & _).
  exists next, rnd'. split; [done|]. split; [done|]. split; [done|].
  destruct (run_params _ _ _ _ _ Hrel) as (Hf & Hs & Hst). simpl in Hf, Hs, Hst.
  rewrite Hf, Hs, Hst.
  unfold newEmptyWorldLike in Hnew.
  destruct (makeCells (Size w)); [|done]. by injection Hnew as <-.
Qed.

(** X5. On a square grid a step returns a square grid of the same side, with
    the three rule parameters of the world it started from. *)
Theorem StepWorld_shape (w : World) (cfg : Config) (rnd : Rand) :
  square w ->
  exists next rnd',
    StepWorld w cfg rnd = Some (next, rnd') /\
    square next /\ Size next = Size w /\
    FishBreed next = FishBreed w /\ SharkBreed next = SharkBreed w /\
    Starve next = Starve w.
Proof. exact (step_shape w cfg rnd). Qed.

Lemma StepWorld_shape_witness :
  square hunting_ground /\
  exists next rnd',
    StepWorld hunting_ground (cfg_slow 3) (tape []) = Some (next, rnd') /\
    square next /\ Size next = 3 /\ Starve next = 6.
Proof.
  assert (square hunting_ground) as Hsq by closed_grid.
  split; [exact Hsq|].
  destruct (StepWorld_shape hunting_ground (cfg_slow 3) (tape []) Hsq)
    as (next & rnd' & Hstep & Hsq' & Hsz & _ & _ & Hst).
  exists next, rnd'. split; [exact Hstep|]. split; [exact Hsq'|].
  split; [exact Hsz|exact Hst].
Defined.

Lemma after_reachable (cfg : Config) (n : nat) (w : World) :
  after cfg n w -> reachable cfg w.
Proof.
  induction 1.
  - by eapply reachable_populated.
  - by eapply reachable_stepped.
Qed.

Lemma timer_rule_values (cfg : Config) (cell : Cell) (o : Outcome)
    (ws : list (Z * Z * Cell)) :
  timer_rule cfg cell o ws ->
  Forall (fun '(_, _, v) =>
            BreedTimer v = 0 \/ BreedTimer v = GoInt.add (BreedTimer cell) 1) ws.
Proof.
  unfold timer_rule. cbv zeta. intros H.
  eapply list.Forall_impl; [exact H|]. intros [[r c] v] [_ Hv].
  case_decide; [by left|right; tauto].
Qed.

(** X6. After [n] chronons every breed timer is between 0 and [n], as long
    as [n] is an [int]: [Populate] starts every timer at 0 and a step writes
    0 or the old timer plus one. *)
Theorem timers_bounded (cfg : Config) (n : nat) (w : World) :
  GoInt.is_int (Cfg.GridSize cfg) ->
  Z.of_nat n <= GoInt.int_max ->
  after cfg n w ->
  forall row col cell,
    cell_at w row col = Some cell -> entity cell <> Empty ->
    0 <= BreedTimer cell <= Z.of_nat n.
Proof.
  intros [_ Hmax] Hn Hafter.
  assert (square w /\
          forall row col cell, cell_at w row col = Some cell ->
            entity cell <> Empty -> 0 <= BreedTimer cell <= Z.of_nat n) as [_ H];
    [|exact H].
  induction Hafter as [w0 numFish numShark rnd w rnd' Hnew Hpop
                      |n w rnd w' rnd' Hafter IH Hstep].
  - destruct (NewWorld_empty cfg w0 Hmax Hnew) as (Hsq0 & _ & Hempty).
    destruct (Populate_spec w0 numFish numShark rnd Hsq0 Hempty)
      as (w' & rnd'' & positions & Hpop' & Hperm & Hsq & Hsz & Hst & Hspec).
    rewrite Hpop in Hpop'. injection Hpop' as <- <-. split; [done|].
    cbv zeta in Hspec. destruct Hspec as (Hsharks & Hfish & Hothers).
    set (ks := (Z.to_nat numShark `min` length positions)%nat) in *.
    set (kf := (Z.to_nat numFish `min` (length positions - ks))%nat) in *.
    intros row col cell Hcell Hent.
    destruct (decide ((row, col) ∈ take ks positions)) as [Hs|Hns].
    { pose proof (Hsharks _ Hs) as Hs'. simpl in Hs'. rewrite Hs' in Hcell.
      injection Hcell as <-. simpl. lia. }
    destruct (decide ((row, col) ∈ take kf (drop ks positions))) as [Hf|Hnf].
    { destruct (Hfish _ Hf) as (v & Hv & _ & Hbt). simpl in Hv.
      assert (v = cell) as -> by congruence. lia. }
    exfalso. destruct (Hothers (row, col)) as (v & Hv & Hve).
    + apply in_grid_same_size with (w := w); [done|].
      apply cell_at_in_grid; [done|]. eauto.
    + rewrite <- take_take_drop, elem_of_app. tauto.
    + simpl in Hv. congruence.
  - destruct IH as [Hsq Htimers]; [lia|].
    apply StepWorld_run_of in Hstep as (events & Hrun).
    destruct (StepWorld_run_record w cfg rnd w' rnd' events Hsq Hrun)
      as ([Hsq' _] & Hj & Hrec).
    split; [done|]. intros r c v Hv Hent.
    destruct (Hrec r c v Hv Hent) as (row & col & o & Hev & Hw).
    pose proof (proj1 (list.Forall_forall _ _) Hj _ Hev) as Hjust.
    destruct Hjust as (nxt & r0 & r1 & cell & _ & _ & Hcell & Hdec).
    assert (0 <= BreedTimer cell <= Z.of_nat n) as Hbt.
    { apply (Htimers row col); [done|]. by destruct Hdec as [[-> _]|[-> _]]. }
    assert (timer_rule cfg cell o (writes_of row col o)) as Hrule.
    { destruct Hdec as [[Hf Hdec]|[Hs Hdec]].
      - eapply fish_decision_timer; eauto. lia.
      - eapply shark_decision_timer; eauto. lia. }
    apply timer_rule_values in Hrule.
    pose proof (proj1 (list.Forall_forall _ _) Hrule _ Hw) as Hval. simpl in Hval.
    rewrite add_exact in Hval; [lia|].
    unfold GoInt.is_int, GoInt.int_min, GoInt.int_max in *. lia.
Qed.

Lemma timers_bounded_witness :
  exists w, after (cfg_slow 2) 1 w /\
            forall row col cell,
              cell_at w row col = Some cell -> entity cell <> Empty ->
              0 <= BreedTimer cell <= 1.
Proof.
  destruct (Populate (empty_grid 2) 1 2 (tape [3; 1; 2])) as [[w rnd']|] eqn:Hpop;
    [|vm_compute in Hpop; discriminate].
  destruct (StepWorld w (cfg_slow 2) (tape [1; 0; 2])) as [[w' rnd'']|] eqn:Hstep.
  2: { vm_compute in Hpop. injection Hpop as <- _. vm_compute in Hstep. discriminate. }
  assert (after (cfg_slow 2) 1 w') as Hafter.
  { apply (after_step (cfg_slow 2) 0 w (tape [1; 0; 2]) w' rnd''); [|exact Hstep].
    apply (after_populate (cfg_slow 2) (empty_grid 2) 1 2 (tape [3; 1; 2]) w rnd');
      [reflexivity|exact Hpop]. }
  exists w'. split; [exact Hafter|].
  apply (timers_bounded (cfg_slow 2) 1 w'); [| |exact Hafter].
  - unfold GoInt.is_int, GoInt.int_min, GoInt.int_max. simpl. lia.
  - unfold GoInt.int_max. lia.
Defined.

(** ** Fresh worlds and [countEntities] *)

Lemma forM_count_defined (w : World) (e : Entity) (ps : list (Z * Z)) (count : Z) :
  is_Some (forM (fun p n =>
                   c ← cell_at w p.1 p.2;
                   Some (if decide (entity c = e) then GoInt.add n 1 else n)) ps count)
  <-> Forall (fun p => is_Some (cell_at w p.1 p.2)) ps.
Proof.
  revert count. induction ps as [|p ps IH]; intros count.
  - split; [constructor|by eexists].
  - cbn [forM]. destruct (cell_at w p.1 p.2) as [c|] eqn:Hc; bind_step.
    + rewrite IH. split.
      * intros H. constructor; [by rewrite Hc|done].
      * intros H. exact (Forall_inv_tail H).
    + split; [by intros [? ?]|]. intros H. apply Forall_inv in H.
      rewrite Hc in H. by destruct H.
Qed.

Lemma countEntities_is_Some (w : World) (e : Entity) :
  is_Some (countEntities w e) <->
  forall row col, 0 <= row < Size w -> 0 <= col < Size w ->
                  is_Some (cell_at w row col).
Proof.
  unfold countEntities.
  rewrite (forM_nested (fun row col count =>
             c ← cell_at w row col;
             Some (if decide (entity c = e) then GoInt.add count 1 else count))).
  rewrite forM_count_defined, list.Forall_forall. split.
  - intros H row col Hr Hc. apply (H (row, col)).
    by apply elem_of_all_positions.
  - intros H [row col] Hp%elem_of_all_positions. simpl in *. apply H; lia.
Qed.

(** X7. [countEntities] returns exactly when every cell that its loops index
    exists: it panics on a grid with a missing row or a short row, and on no
    other. *)
Theorem countEntities_defined (w : World) (e : Entity) :
  is_Some (countEntities w e) <->
  forall row col, 0 <= row < Size w -> 0 <= col < Size w ->
                  is_Some (cell_at w row col).
Proof. exact (countEntities_is_Some w e). Qed.

Lemma census_total (w : World) :
  square w ->
  (census w Empty + census w Fish + census w Shark)%nat =
    length (all_positions (Size w)).
Proof.
  intros Hsq. unfold census.
  assert (Forall (in_grid w) (all_positions (Size w))) as Hall.
  { apply list.Forall_forall. intros p Hp%elem_of_all_positions. exact Hp. }
  induction Hall as [|[r c] ps Hp _ IH]; [done|].
  rewrite !filter_cons. simpl length. rewrite <- IH.
  destruct (proj2 (cell_at_in_grid w r c Hsq) Hp) as [v Hv].
  assert (forall e, holds w e (r, c) <-> entity v = e) as Hiff.
  { intros e. split.
    - intros (v' & Hv' & <-). simpl in Hv'. congruence.
    - intros <-. by exists v. }
  destruct (decide (holds w Empty (r, c))) as [H1|H1],
           (decide (holds w Fish (r, c))) as [H2|H2],
           (decide (holds w Shark (r, c))) as [H3|H3];
    rewrite !Hiff in *; simpl; try congruence; try lia.
  destruct (entity v); done.
Qed.

(** X8. On a square grid whose number of cells fits an [int], the three
    counts of [countEntities] add up to the number of cells. *)
Theorem countEntities_partition (w : World) :
  square w -> Size w * Size w <= GoInt.int_max ->
  exists empties fishes sharks,
    countEntities w Empty = Some empties /\
    countEntities w Fish = Some fishes /\
    countEntities w Shark = Some sharks /\
    0 <= empties /\ 0 <= fishes /\ 0 <= sharks /\
    empties + fishes + sharks = Size w * Size w.
Proof.
  intros Hsq Hfit.
  exists (Z.of_nat (census w Empty)), (Z.of_nat (census w Fish)),
         (Z.of_nat (census w Shark)).
  rewrite !countEntities_census by done.
  pose proof (census_total w Hsq) as Htotal.
  rewrite all_positions_length in Htotal.
  destruct Hsq as ([? ?] & _). split_and!; try done; try lia; nia.
Qed.

Lemma countEntities_partition_witness :
  square hunting_ground /\
  exists empties fishes sharks,
    countEntities hunting_ground Empty = Some empties /\
    countEntities hunting_ground Fish = Some fishes /\
    countEntities hunting_ground Shark = Some sharks /\
    empties + fishes + sharks = 9.
Proof.
  assert (square hunting_ground) as Hsq by closed_grid.
  split; [exact Hsq|].
  destruct (countEntities_partition hunting_ground Hsq)
    as (a & b & c & Ha & Hb & Hc & _ & _ & _ & Hsum).
  - unfold GoInt.int_max. simpl. lia.
  - exists a, b, c. split; [exact Ha|]. split; [exact Hb|]. split; [exact Hc|].
    exact Hsum.
Defined.

(** X9. [NewWorld] panics on a negative [GridSize] and [newEmptyWorldLike]
    on a negative [Size].  For a side that is [allocatable] both return, also
    [newEmptyWorldLike] whatever the cells of the world it is given: the
    world built is square, keeps the parameters, holds the zero cell
    everywhere, and [countEntities] finds no fish and no shark in it. *)
Theorem fresh_worlds (cfg : Config) (w : World) :
  (Cfg.GridSize cfg < 0 -> NewWorld cfg = None) /\
  (Size w < 0 -> newEmptyWorldLike w = None) /\
  (allocatable (Cfg.GridSize cfg) ->
   exists w0,
     NewWorld cfg = Some w0 /\
     square w0 /\ Size w0 = Cfg.GridSize cfg /\
     FishBreed w0 = Cfg.FishBreed cfg /\ SharkBreed w0 = Cfg.SharkBreed cfg /\
     Starve w0 = Cfg.Starve cfg /\
     (forall row col, in_grid w0 (row, col) -> cell_at w0 row col = Some zeroCell) /\
     countEntities w0 Fish = Some 0 /\ countEntities w0 Shark = Some 0) /\
  (allocatable (Size w) ->
   exists next,
     newEmptyWorldLike w = Some next /\
     square next /\ Size next = Size w /\
     FishBreed next = FishBreed w /\ SharkBreed next = SharkBreed w /\
     Starve next = Starve w /\
     (forall row col, in_grid next (row, col) -> cell_at next row col = Some zeroCell) /\
     countEntities next Fish = Some 0 /\ countEntities next Shark = Some 0).
Proof.
  assert (forall (base : World),
            allocatable (Size base) ->
            exists cells,
              makeCells (Size base) = Some cells /\
              let built := with_cells base cells in
              square built /\
              (forall row col, in_grid built (row, col) ->
                 cell_at built row col = Some zeroCell) /\
              countEntities built Fish = Some 0 /\
              countEntities built Shark = Some 0) as Hbuilt.
  { intros base [Hpos Hfit].
    assert (Size base <= GoInt.int_max) as Hmax.
    { unfold maxAlloc, GoInt.int_max in *. nia. }
    destruct (makeCells (Size base)) as [cells|] eqn:Hcells.
    2:{ unfold makeCells in Hcells. by rewrite decide_True in Hcells. }
    exists cells. split; [done|]. intros built.
    destruct (makeCells_square base cells ltac:(lia) Hcells) as [Hsq Hempty].
    assert (forall row col, in_grid built (row, col) ->
              cell_at built row col = Some zeroCell) as Hzero.
    { intros row col [Hr Hc]. simpl in Hr, Hc.
      unfold makeCells in Hcells. rewrite decide_True in Hcells by done.
      injection Hcells as <-. apply cell_at_Some.
      exists (replicate (Z.to_nat (Size base)) zeroCell).
      split; apply index_Some; (split; [lia|]); apply lookup_replicate_2; lia. }
    split; [done|]. split; [done|].
    assert (forall row col, 0 <= row < Size built -> 0 <= col < Size built ->
              is_Some (cell_at built row col)) as Hdef.
    { intros row col Hr Hc. rewrite Hzero; [by eexists|done]. }
    assert (forall e, e <> Empty -> countEntities built e = Some 0) as Hcount.
    { intros e He.
      destruct (proj2 (countEntities_is_Some built e) Hdef) as [n Hn].
      rewrite Hn. f_equal.
      unfold countEntities in Hn.
      rewrite (forM_nested (fun row col count =>
                 c ← cell_at built row col;
                 Some (if decide (entity c = e) then GoInt.add count 1 else count)))
        in Hn.
      assert (Forall (in_grid built) (all_positions (Size built))) as Hall.
      { apply list.Forall_forall. intros p Hp%elem_of_all_positions. exact Hp. }
      revert Hn. induction Hall as [|[r c] ps Hp _ IH]; [by intros [= <-]|].
      cbn [forM]. simpl. rewrite (Hzero r c Hp). bind_step.
      rewrite decide_False by (simpl; congruence). exact IH. }
    split; apply Hcount; done. }
  split_and!.
  - intros Hneg. unfold NewWorld, makeCells. by rewrite decide_False by lia.
  - intros Hneg. unfold newEmptyWorldLike, makeCells. by rewrite decide_False by lia.
  - intros Halloc.
    set (base := {| Size := Cfg.GridSize cfg; Cells := []; FishBreed := Cfg.FishBreed cfg;
                    SharkBreed := Cfg.SharkBreed cfg; Starve := Cfg.Starve cfg |}).
    destruct (Hbuilt base Halloc) as (cells & Hcells & Hsq & Hzero & Hf & Hs).
    exists (with_cells base cells). unfold NewWorld.
    change (Size base) with (Cfg.GridSize cfg) in Hcells. rewrite Hcells.
    split_and!; done.
  - intros Halloc.
    destruct (Hbuilt w Halloc) as (cells & Hcells & Hsq & Hzero & Hf & Hs).
    exists (with_cells w cells). unfold newEmptyWorldLike. rewrite Hcells.
    split_and!; done.
Qed.

Lemma fresh_worlds_witness :
  exists w0,
    NewWorld (cfg_slow 3) = Some w0 /\ square w0 /\
    countEntities w0 Fish = Some 0 /\ countEntities w0 Shark = Some 0.
Proof.
  destruct (fresh_worlds (cfg_slow 3) (empty_grid 3)) as (_ & _ & Hnew & _).
  destruct Hnew as (w0 & Hw0 & Hsq & _ & _ & _ & _ & _ & Hf & Hs).
  - unfold allocatable, maxAlloc. simpl. lia.
  - exists w0. split; [exact Hw0|]. split; [exact Hsq|].
    split; [exact Hf|exact Hs].
Defined.

(** ** The neighbourhood relation *)

Lemma mod_step (size i : Z) :
  1 <= size -> 0 <= i < size ->
  (i - 1) `mod` size = (if decide (i = 0) then size - 1 else i - 1) /\
  (i + 1) `mod` size = (if decide (i = size - 1) then 0 else i + 1).
Proof.
  intros Hs Hi. split; case_decide.
  - symmetry. apply Z.mod_unique with (q := -1); lia.
  - apply Z.mod_small. lia.
  - symmetry. apply Z.mod_unique with (q := 1); lia.
  - apply Z.mod_small. lia.
Qed.

(** X10. Being a neighbour is symmetric on the torus. *)
Theorem Neighbors_symmetric (w : World) (p q : Z * Z) :
  1 <= Size w -> GoInt.is_int (Size w) ->
  in_grid w p -> in_grid w q ->
  q ∈ Neighbors w p.1 p.2 <-> p ∈ Neighbors w q.1 q.2.
Proof.
  intros Hs [_ Hmax] [Hp1 Hp2] [Hq1 Hq2].
  destruct p as [r c], q as [r' c']. simpl in *.
  rewrite !Neighbors_mod by lia.
  destruct (mod_step (Size w) r) as [-> ->]; [lia..|].
  destruct (mod_step (Size w) c) as [-> ->]; [lia..|].
  destruct (mod_step (Size w) r') as [-> ->]; [lia..|].
  destruct (mod_step (Size w) c') as [-> ->]; [lia..|].
  rewrite !elem_of_cons, !elem_of_nil.
  repeat case_decide; split; intros Hin;
    repeat (destruct Hin as [Hin|Hin]); try done; injection Hin as ??;
    first [ left; f_equal; lia
          | right; left; f_equal; lia
          | right; right; left; f_equal; lia
          | right; right; right; left; f_equal; lia ].
Qed.

Lemma Neighbors_symmetric_witness :
  (2, 0) ∈ Neighbors (empty_grid 3) 0 0 <-> (0, 0) ∈ Neighbors (empty_grid 3) 2 0.
Proof.
  apply (Neighbors_symmetric (empty_grid 3) (0, 0) (2, 0)).
  - simpl. lia.
  - unfold GoInt.is_int, GoInt.int_min, GoInt.int_max. simpl. lia.
  - unfold in_grid. simpl. lia.
  - unfold in_grid. simpl. lia.
Defined.

(** X11. How many different neighbours a cell has: on a grid of side at
    least three, the four are different from one another and from the cell;
    on a side of two, north is south and west is east; on a side of one, all
    four are the cell itself. *)
Theorem Neighbors_distinct (w : World) (row col : Z) :
  1 <= Size w -> GoInt.is_int (Size w) ->
  in_grid w (row, col) ->
  (3 <= Size w ->
     NoDup (Neighbors w row col) /\ (row, col) ∉ Neighbors w row col) /\
  (Size w = 2 ->
     Neighbors w row col =
       [(1 - row, col); (1 - row, col); (row, 1 - col); (row, 1 - col)]) /\
  (Size w = 1 ->
     Neighbors w row col = [(row, col); (row, col); (row, col); (row, col)]).
Proof.
  intros Hs [_ Hmax] [Hr Hc]. simpl in *.
  rewrite !Neighbors_mod by lia.
  destruct (mod_step (Size w) row) as [-> ->]; [lia..|].
  destruct (mod_step (Size w) col) as [-> ->]; [lia..|].
  split_and!.
  - intros H3. split.
    + rewrite !list.NoDup_cons, !elem_of_cons, !elem_of_nil.
      repeat case_decide; split_and!; try apply NoDup_nil_2;
        intros Hin; repeat (destruct Hin as [Hin|Hin]);
        try done; inversion Hin; lia.
    + rewrite !elem_of_cons, elem_of_nil.
      repeat case_decide; intros Hin; repeat (destruct Hin as [Hin|Hin]);
        try done; inversion Hin; lia.
  - intros H2.
    repeat case_decide;
      repeat (apply (f_equal2 cons); [apply (f_equal2 pair); lia|]); done.
  - intros H1.
    repeat case_decide;
      repeat (apply (f_equal2 cons); [apply (f_equal2 pair); lia|]); done.
Qed.

Lemma Neighbors_distinct_witness :
  NoDup (Neighbors (empty_grid 3) 0 2) /\
  Neighbors (empty_grid 1) 0 0 = [(0, 0); (0, 0); (0, 0); (0, 0)].
Proof.
  split.
  - apply (Neighbors_distinct (empty_grid 3) 0 2).
    + simpl. lia.
    + unfold GoInt.is_int, GoInt.int_min, GoInt.int_max. simpl. lia.
    + unfold in_grid. simpl. lia.
    + simpl. lia.
  - apply (Neighbors_distinct (empty_grid 1) 0 0).
    + simpl. lia.
    + unfold GoInt.is_int, GoInt.int_min, GoInt.int_max. simpl. lia.
    + unfold in_grid. simpl. lia.
    + reflexivity.
Defined.

(** ** Edges of [wrap] and [Populate] *)

(** X12. [wrap] adds or subtracts the side once and no more: its result is
    an index of the grid exactly for the indices at most one side out of
    range. *)
Theorem wrap_range (w : World) (i : Z) :
  1 <= Size w -> GoInt.is_int (Size w) -> GoInt.is_int i ->
  0 <= wrap w i < Size w <-> - Size w <= i < 2 * Size w.
Proof.
  unfold GoInt.is_int, GoInt.int_min, GoInt.int_max. intros Hs Hsize Hi.
  unfold wrap. repeat case_decide.
  - rewrite add_exact; [lia|]. unfold GoInt.is_int, GoInt.int_min, GoInt.int_max. lia.
  - rewrite sub_exact; [lia|]. unfold GoInt.is_int, GoInt.int_min, GoInt.int_max. lia.
  - lia.
Qed.

Lemma wrap_range_witness :
  0 <= wrap (empty_grid 3) (-3) < 3 /\ ~ 0 <= wrap (empty_grid 3) (-4) < 3.
Proof.
  assert (1 <= Size (empty_grid 3)) as Hs by (simpl; lia).
  assert (GoInt.is_int (Size (empty_grid 3))) as Hsize.
  { unfold GoInt.is_int, GoInt.int_min, GoInt.int_max. simpl. lia. }
  assert (GoInt.is_int (-3)) as H3.
  { unfold GoInt.is_int, GoInt.int_min, GoInt.int_max. lia. }
  assert (GoInt.is_int (-4)) as H4.
  { unfold GoInt.is_int, GoInt.int_min, GoInt.int_max. lia. }
  split.
  - apply (proj2 (wrap_range (empty_grid 3) (-3) Hs Hsize H3)). simpl. lia.
  - intros H. apply (proj1 (wrap_range (empty_grid 3) (-4) Hs Hsize H4)) in H.
    simpl in H. lia.
Defined.

(** X13. With counts that are zero or negative [Populate] places nothing,
    on a world whose number of coordinates the allocator accepts as the
    capacity of [positions]: it shuffles the coordinates, which draws from
    the random source, and returns the world as it was, whatever its
    cells. *)
Theorem Populate_nothing (w : World) (numFish numShark : Z) (rnd : Rand) :
  16 * (Size w * Size w) <= maxAlloc ->
  numFish <= 0 -> numShark <= 0 ->
  exists positions rnd',
    Shuffle (all_positions (Size w)) rnd = Some (positions, rnd') /\
    Populate w numFish numShark rnd = Some (w, rnd').
Proof.
  intros _ Hf Hs.
  destruct (Shuffle_Permutation (all_positions (Size w)) rnd)
    as (positions & rnd' & Hshuffle & _).
  exists positions, rnd'. split; [done|].
  unfold Populate. rewrite Hshuffle. bind_step.
  assert (placeSharks w 0 numShark positions = Some (w, positions)) as ->.
  { destruct positions as [|[r c] rest]; [done|].
    cbn [placeSharks]. by rewrite decide_False by lia. }
  bind_step.
  assert (placeFish w 0 numFish positions = Some w) as ->.
  { destruct positions as [|[r c] rest]; [done|].
    cbn [placeFish]. by rewrite decide_False by lia. }
  done.
Qed.

Lemma Populate_nothing_witness :
  exists positions rnd',
    Shuffle (all_positions 3) (tape []) = Some (positions, rnd') /\
    Populate hunting_ground 0 (-1) (tape []) = Some (hunting_ground, rnd').
Proof.
  apply (Populate_nothing hunting_ground 0 (-1) (tape [])).
  - unfold maxAlloc. simpl. lia.
  - lia.
  - lia.
Defined.

(** ** Printing *)

Lemma append_nil_r (s : string) : (s ++ EmptyString)%string = s.
Proof. induction s as [|a s IH]; simpl; [done|by rewrite IH]. Qed.

Lemma append_assoc (s1 s2 s3 : string) :
  ((s1 ++ s2) ++ s3)%string = (s1 ++ (s2 ++ s3))%string.
Proof. induction s1 as [|a s1 IH]; simpl; [done|by rewrite IH]. Qed.

Lemma bind_returns {A B : Type} (m : Proc A) (f : A -> Proc B) out a :
  m = (out, Returns a) ->
  m ≫= f = ((out ++ (f a).1)%string, (f a).2).
Proof. by intros ->. Qed.

Lemma bind_lift {A B : Type} (o : option A) (f : A -> Proc B) a :
  o = Some a -> lift o ≫= f = f a.
Proof. intros ->. unfold mbind, Proc_bind. simpl. by destruct (f a). Qed.

Lemma bind_Print {B : Type} (s : string) (f : unit -> Proc B) :
  Print s ≫= f = ((s ++ (f tt).1)%string, (f tt).2).
Proof. done. Qed.

Lemma bind_Println {B : Type} (s : string) (f : unit -> Proc B) :
  Println s ≫= f = ((s ++ newline ++ (f tt).1)%string, (f tt).2).
Proof. unfold Println, mbind, Proc_bind. simpl. by rewrite append_assoc. Qed.

Lemma Println_empty : Println EmptyString = (newline, Returns tt).
Proof. done. Qed.

(** A loop over the indices of a slice whose body prints a text for each
    element prints the texts in order. *)
Lemma forP_indices {A : Type} (body : Z -> Proc unit) (f : A -> string)
    (l : list A) (k n : Z) :
  n = Z.of_nat (length l) ->
  (forall i x, l !! i = Some x -> body (k + Z.of_nat i) = (f x, Returns tt)) ->
  forP body (seqZ k n) =
    (foldr (fun x s => (f x ++ s)%string) EmptyString l, Returns tt).
Proof.
  intros ->. revert k. induction l as [|x l IH]; intros k Hbody; [done|].
  replace (Z.of_nat (length (x :: l))) with (Z.succ (Z.of_nat (length l)))
    by (simpl; lia).
  rewrite seqZ_cons, Z.pred_succ by lia. cbn [forP].
  rewrite (bind_returns _ _ (f x) tt).
  2:{ rewrite <- (Hbody 0%nat x eq_refl). f_equal. lia. }
  rewrite IH; [done|].
  intros i y Hy. rewrite <- (Hbody (S i) y Hy). f_equal. lia.
Qed.

Lemma drawWorld_prints (w : World) (chronon : Z) :
  square w -> Size w * Size w <= GoInt.int_max ->
  drawWorld w chronon = (frame w chronon, Returns tt).
Proof.
  intros Hsq Hfit. pose proof Hsq as (Hs & Hrows & Hcols).
  unfold drawWorld, frame.
  rewrite bind_Print.
  assert (forP (fun row =>
            _ ← forP (fun col =>
                   cell ← lift (cell_at w row col);
                   Print (glyph (entity cell)))
                 (seqZ 0 (Size w));
            Println EmptyString)
          (seqZ 0 (Size w)) = (picture w, Returns tt)) as Hpic.
  { unfold picture.
    apply (forP_indices _ (fun cells => (row_text cells ++ newline)%string)
             (Cells w) 0); [lia|].
    intros i cells Hcells.
    pose proof (proj1 (list.Forall_forall _ _) Hcols cells
                  (list_elem_of_lookup_2 _ _ _ Hcells)) as Hlen.
    simpl in Hlen.
    rewrite (bind_returns _ _ (row_text cells) tt); [done|].
    apply (forP_indices _ (fun c => glyph (entity c)) cells 0); [lia|].
    intros j c Hc.
    rewrite (bind_lift _ _ c); [done|].
    apply cell_at_Some. exists cells.
    rewrite !index_Some, !Z.add_0_l, !Nat2Z.id. split_and!; [lia|done|lia|done]. }
  rewrite (bind_returns _ _ _ tt Hpic).
  rewrite (bind_lift _ _ _ (countEntities_census w Fish Hsq Hfit)).
  rewrite (bind_lift _ _ _ (countEntities_census w Shark Hsq Hfit)).
  rewrite bind_Print.
  rewrite Println_empty. cbn [fst snd].
  rewrite !append_assoc. done.
Qed.

(** X14. What [drawWorld] prints: the frame of the chronon. The picture is
    the grid row by row, and the counts under it are those of the picture. *)
Theorem drawWorld_frame (w : World) (chronon : Z) :
  square w -> Size w * Size w <= GoInt.int_max ->
  drawWorld w chronon = (frame w chronon, Returns tt).
Proof. exact (drawWorld_prints w chronon). Qed.

Lemma drawWorld_frame_witness :
  drawWorld (empty_grid 2) 1 = (frame (empty_grid 2) 1, Returns tt).
Proof.
  apply (drawWorld_frame (empty_grid 2) 1).
  - unfold square, GoInt.int_max. simpl. repeat constructor; lia.
  - unfold GoInt.int_max. simpl. lia.
Defined.

(** ** The main loop *)

Lemma bind_pending {A B : Type} (m : Proc A) (f : A -> Proc B) out :
  m = (out, Pending) -> m ≫= f = (out, Pending).
Proof. by intros ->. Qed.

Lemma rem_due (cfg : Config) (chronon : Z) :
  0 <= chronon ->
  (Cfg.DrawEvery cfg > 0 /\ Z.rem chronon (Cfg.DrawEvery cfg) = 0) <->
  due cfg chronon.
Proof.
  intros Hc. unfold due. split; intros [Hd Hr]; (split; [lia|]).
  - rewrite <- Hr. symmetry. apply Z.rem_mod_nonneg; lia.
  - rewrite <- Hr. apply Z.rem_mod_nonneg; lia.
Qed.

(** One turn of the loop, on a grid that is square and whose cells an [int]
    can count. *)
Lemma RunSimulation_loop_turn (fuel : nat) (cfg : Config) (w : World)
    (rnd : Rand) (chronon : Z) :
  square w -> Size w * Size w <= GoInt.int_max ->
  0 <= chronon < GoInt.int_max ->
  exists w1 rnd1,
    StepWorld w cfg rnd = Some (w1, rnd1) /\
    square w1 /\ Size w1 = Size w /\
    RunSimulation_loop (S fuel) cfg w rnd chronon =
      let shown := if decide (due cfg (chronon + 1))
                   then frame w1 (chronon + 1) else EmptyString in
      match verdict cfg w1 (chronon + 1) with
      | Some v => ((shown ++ sentence v ++ newline)%string,
                   Returns (w1, chronon + 1))
      | None =>
          let rest := RunSimulation_loop fuel cfg w1 rnd1 (chronon + 1) in
          ((shown ++ rest.1)%string, rest.2)
      end.
Proof.
  intros Hsq Hfit Hc.
  destruct (step_shape w cfg rnd Hsq) as (w1 & rnd1 & Hstep & Hsq1 & Hsz & _).
  exists w1, rnd1. split; [done|]. split; [done|]. split; [done|].
  assert (Size w1 * Size w1 <= GoInt.int_max) as Hfit1 by (by rewrite Hsz).
  cbn [RunSimulation_loop]. cbv zeta.
  rewrite add_exact by (unfold GoInt.is_int, GoInt.int_min, GoInt.int_max in *; lia).
  rewrite (bind_lift _ _ _ Hstep).
  assert ((if decide (Cfg.DrawEvery cfg > 0 /\
                      Z.rem (chronon + 1) (Cfg.DrawEvery cfg) = 0)
           then drawWorld w1 (chronon + 1) else mret tt) =
          (if decide (due cfg (chronon + 1))
           then frame w1 (chronon + 1) else EmptyString, Returns tt)) as Hshow.
  { destruct (decide (due cfg (chronon + 1))) as [Hd|Hd].
    - rewrite decide_True by (apply rem_due; [lia|done]).
      by apply drawWorld_prints.
    - rewrite decide_False; [done|]. intros H. apply Hd. apply rem_due; [lia|done]. }
  rewrite (bind_returns _ _ _ _ Hshow).
  rewrite (bind_lift _ _ _ (countEntities_census w1 Fish Hsq1 Hfit1)).
  unfold verdict.
  destruct (decide (census w1 Fish = 0%nat)) as [Hf|Hf].
  { rewrite (decide_True (P := _ = 0)) by lia. rewrite bind_Println. done. }
  rewrite (decide_False (P := _ = 0)) by lia.
  rewrite (bind_lift _ _ _ (countEntities_census w1 Shark Hsq1 Hfit1)).
  destruct (decide (census w1 Shark = 0%nat)) as [Hs|Hs].
  { rewrite (decide_True (P := _ = 0)) by lia. rewrite bind_Println. done. }
  rewrite (decide_False (P := _ = 0)) by lia.
  destruct (decide (0 < Cfg.Chronons cfg <= chronon + 1)) as [Hl|Hl].
  { rewrite (decide_True (P := _ /\ _ >= _)) by lia. rewrite bind_Println. done. }
  rewrite (decide_False (P := _ /\ _ >= _)) by lia. done.
Qed.

Lemma RunSimulation_loop_limit (fuel : nat) (cfg : Config) (w : World)
    (rnd : Rand) (chronon : Z) :
  square w -> Size w * Size w <= GoInt.int_max ->
  0 <= chronon < Cfg.Chronons cfg -> Cfg.Chronons cfg <= GoInt.int_max ->
  Cfg.Chronons cfg - chronon <= Z.of_nat fuel ->
  exists out w' n,
    RunSimulation_loop fuel cfg w rnd chronon = (out, Returns (w', n)) /\
    chronon < n <= Cfg.Chronons cfg.
Proof.
  revert w rnd chronon.
  induction fuel as [|fuel IH]; intros w rnd chronon Hsq Hfit Hc Hmax Hfuel; [lia|].
  destruct (RunSimulation_loop_turn fuel cfg w rnd chronon Hsq Hfit ltac:(lia))
    as (w1 & rnd1 & _ & Hsq1 & Hsz & ->).
  cbv zeta. destruct (verdict cfg w1 (chronon + 1)) as [v|] eqn:Hv.
  { eexists _, w1, (chronon + 1). split; [done|lia]. }
  assert (chronon + 1 < Cfg.Chronons cfg) as Hnext.
  { unfold verdict in Hv. repeat case_decide; try done. lia. }
  destruct (IH w1 rnd1 (chronon + 1) Hsq1 ltac:(by rewrite Hsz) ltac:(lia) Hmax
              ltac:(lia)) as (out & w' & n & -> & Hn).
  eexists _, w', n. split; [done|lia].
Qed.

(** X15. With a chronon limit the simulation ends: given fuel for
    [cfg.Chronons] chronons the loop is left, in a chronon that is at most
    the limit. *)
Theorem RunSimulation_limit (fuel : nat) (cfg : Config) (w : World) (rnd : Rand) :
  square w -> Size w * Size w <= GoInt.int_max ->
  0 < Cfg.Chronons cfg <= GoInt.int_max ->
  Cfg.Chronons cfg <= Z.of_nat fuel ->
  exists out w' n,
    RunSimulation fuel cfg w rnd = (out, Returns (w', n)) /\
    1 <= n <= Cfg.Chronons cfg.
Proof.
  intros Hsq Hfit Hlimit Hfuel.
  destruct (RunSimulation_loop_limit fuel cfg w rnd 0 Hsq Hfit)
    as (out & w' & n & Hrun & Hn); [lia..|].
  exists out, w', n. split; [done|lia].
Qed.

Lemma RunSimulation_loop_output (fuel : nat) (cfg : Config) (w : World)
    (rnd : Rand) (chronon : Z) (out : string) (w' : World) (n : Z) :
  square w -> Size w * Size w <= GoInt.int_max ->
  0 <= chronon -> chronon + Z.of_nat fuel <= GoInt.int_max ->
  RunSimulation_loop fuel cfg w rnd chronon = (out, Returns (w', n)) ->
  chronon < n <= chronon + Z.of_nat fuel /\
  exists ws v,
    history cfg (Z.to_nat (n - chronon)) w rnd = Some ws /\
    list.last ws = Some w' /\
    (forall (i : nat) wi, ws !! i = Some wi -> (S i < length ws)%nat ->
       verdict cfg wi (chronon + 1 + Z.of_nat i) = None) /\
    verdict cfg w' n = Some v /\
    out = (frames cfg (chronon + 1) ws ++ sentence v ++ newline)%string.
Proof.
  revert w rnd chronon out.
  induction fuel as [|fuel IH]; intros w rnd chronon out Hsq Hfit Hc Hmax Hrun;
    [done|].
  destruct (RunSimulation_loop_turn fuel cfg w rnd chronon Hsq Hfit ltac:(lia))
    as (w1 & rnd1 & Hstep & Hsq1 & Hsz & Hturn).
  rewrite Hturn in Hrun. clear Hturn. cbv zeta in Hrun.
  destruct (verdict cfg w1 (chronon + 1)) as [v|] eqn:Hv.
  - injection Hrun as <- <- <-. split; [lia|].
    exists [w1], v.
    replace (Z.to_nat (chronon + 1 - chronon)) with 1%nat by lia.
    cbn [history]. rewrite Hstep. bind_step.
    split_and!; try done.
    + intros i wi _ Hi. simpl in Hi. lia.
    + cbn [frames]. by rewrite append_nil_r.
  - destruct (RunSimulation_loop fuel cfg w1 rnd1 (chronon + 1))
      as [out1 e1] eqn:Hrest.
    simpl in Hrun. injection Hrun as <- ->.
    destruct (IH w1 rnd1 (chronon + 1) out1 Hsq1 ltac:(by rewrite Hsz)
                ltac:(lia) ltac:(lia) Hrest)
      as (Hn & ws & v & Hhist & Hlast & Hgo & Hstop & ->).
    split; [lia|]. exists (w1 :: ws), v.
    replace (Z.to_nat (n - chronon)) with (S (Z.to_nat (n - (chronon + 1))))
      by lia.
    cbn [history]. rewrite Hstep. bind_step. rewrite Hhist. bind_step.
    assert (ws <> []) as Hne.
    { intros ->. done. }
    split_and!; try done.
    + destruct ws; [done|]. done.
    + intros [|i] wi Hwi Hi.
      * injection Hwi as <-. by rewrite Z.add_0_r.
      * simpl in Hwi, Hi.
        rewrite <- (Hgo i wi Hwi ltac:(lia)). f_equal. lia.
    + cbn [frames]. by rewrite append_assoc.
Qed.

(** X16. What a run that ends has done and printed. It has played as many
    chronons as it says, without panic; all the worlds before the last had
    fish and sharks and were below the chronon limit; the last world gives
    the reason to stop; and the output is the frames that were due, then the
    one sentence of that reason. *)
Theorem RunSimulation_output (fuel : nat) (cfg : Config) (w : World)
    (rnd : Rand) (out : string) (w' : World) (n : Z) :
  square w -> Size w * Size w <= GoInt.int_max ->
  Z.of_nat fuel <= GoInt.int_max ->
  RunSimulation fuel cfg w rnd = (out, Returns (w', n)) ->
  1 <= n <= Z.of_nat fuel /\
  exists ws v,
    history cfg (Z.to_nat n) w rnd = Some ws /\
    list.last ws = Some w' /\
    (forall (i : nat) wi, ws !! i = Some wi -> (S i < length ws)%nat ->
       verdict cfg wi (1 + Z.of_nat i) = None) /\
    verdict cfg w' n = Some v /\
    out = (frames cfg 1 ws ++ sentence v ++ newline)%string.
Proof.
  intros Hsq Hfit Hfuel Hrun.
  destruct (RunSimulation_loop_output fuel cfg w rnd 0 out w' n Hsq Hfit
              ltac:(lia) ltac:(lia) Hrun) as (Hn & ws & v & H).
  split; [lia|]. exists ws, v. by rewrite Z.sub_0_r in H.
Qed.

Lemma RunSimulation_limit_witness :
  exists out w' n,
    RunSimulation 2 (cfg_run 3 2 1) hunting_ground (tape []) =
      (out, Returns (w', n)) /\
    1 <= n <= 2.
Proof.
  apply (RunSimulation_limit 2 (cfg_run 3 2 1) hunting_ground (tape [])).
  - closed_grid.
  - unfold GoInt.int_max. simpl. lia.
  - unfold GoInt.int_max. simpl. lia.
  - simpl. lia.
Defined.

Lemma RunSimulation_output_witness :
  exists out w' n ws,
    RunSimulation 2 (cfg_run 3 2 1) hunting_ground (tape []) =
      (out, Returns (w', n)) /\
    history (cfg_run 3 2 1) (Z.to_nat n) hunting_ground (tape []) = Some ws /\
    list.last ws = Some w'.
Proof.
  assert (square hunting_ground) as Hsq by closed_grid.
  assert (Size hunting_ground * Size hunting_ground <= GoInt.int_max) as Hfit.
  { unfold GoInt.int_max. simpl. lia. }
  destruct (RunSimulation_loop_limit 2 (cfg_run 3 2 1) hunting_ground (tape []) 0
              Hsq Hfit) as (out & w' & n & Hrun & _).
  - simpl. lia.
  - unfold GoInt.int_max. simpl. lia.
  - simpl. lia.
  - destruct (RunSimulation_output 2 (cfg_run 3 2 1) hunting_ground (tape [])
                out w' n Hsq Hfit) as (_ & ws & v & Hhist & Hlast & _).
    + unfold GoInt.int_max. simpl. lia.
    + exact Hrun.
    + exists out, w', n, ws. split; [exact Hrun|]. split; [exact Hhist|exact Hlast].
Defined.

Lemma due_first (cfg : Config) : due cfg 1 <-> Cfg.DrawEvery cfg = 1.
Proof.
  unfold due. split.
  - intros [Hd Hm]. destruct (decide (Cfg.DrawEvery cfg = 1)) as [|Hne]; [done|].
    rewrite Z.mod_small in Hm by lia. done.
  - intros ->. done.
Qed.

Lemma step_extinct (w : World) (cfg : Config) (rnd : Rand) (next : World)
    (rnd' : Rand) (e : Entity) :
  square w -> e <> Empty -> census w e = 0%nat ->
  StepWorld w cfg rnd = Some (next, rnd') ->
  census next e = 0%nat.
Proof.
  intros Hw He Hzero (events & Hrun)%StepWorld_run_of.
  destruct (StepWorld_run_ledger w cfg rnd next rnd' events e Hw He Hrun)
    as (Hc & Hl & _).
  pose proof (survivors_le_length (events_of w e events)).
  pose proof (births_le_length (events_of w e events)).
  lia.
Qed.

(** X17. A world without fish, or without sharks, is simulated for one
    chronon only: the loop is left in chronon 1 with the sentence for the
    missing species (for the fish when both are missing), after the frame of
    that chronon when frames are drawn every chronon. *)
Theorem RunSimulation_extinct (fuel : nat) (cfg : Config) (w : World) (rnd : Rand) :
  square w -> Size w * Size w <= GoInt.int_max ->
  census w Fish = 0%nat \/ census w Shark = 0%nat ->
  exists w' rnd',
    StepWorld w cfg rnd = Some (w', rnd') /\
    RunSimulation (S fuel) cfg w rnd =
      (((if decide (Cfg.DrawEvery cfg = 1) then frame w' 1 else EmptyString) ++
        sentence (if decide (census w Fish = 0%nat)
                  then FishExtinct else SharksExtinct) ++
        newline)%string,
       Returns (w', 1)).
Proof.
  intros Hsq Hfit Hnone.
  destruct (RunSimulation_loop_turn fuel cfg w rnd 0 Hsq Hfit)
    as (w' & rnd' & Hstep & Hsq' & Hsz & Hturn).
  { unfold GoInt.int_max. lia. }
  exists w', rnd'. split; [done|].
  unfold RunSimulation. rewrite Hturn. clear Hturn. cbv zeta.
  change (0 + 1) with 1.
  assert (verdict cfg w' 1 =
          Some (if decide (census w Fish = 0%nat)
                then FishExtinct else SharksExtinct)) as ->.
  { unfold verdict. destruct (decide (census w Fish = 0%nat)) as [Hf|Hf].
    - rewrite decide_True; [done|].
      by apply (step_extinct w cfg rnd w' rnd' Fish).
    - destruct Hnone as [?|Hs]; [done|].
      destruct (StepWorld_run_of _ _ _ _ _ Hstep) as (events & Hrun).
      destruct (step_fish_alone w cfg rnd w' rnd' events Hsq Hs Hrun)
        as (Hs' & _ & _ & Hf').
      rewrite decide_False by lia. by rewrite decide_True. }
  destruct (decide (due cfg 1)) as [Hd|Hd], (decide (Cfg.DrawEvery cfg = 1)) as [H1|H1];
    try done.
  - by apply due_first in Hd.
  - by apply due_first in H1.
Qed.

Lemma RunSimulation_extinct_witness :
  exists w' rnd',
    StepWorld crowded_pond (cfg_run 2 0 1) (tape []) = Some (w', rnd') /\
    RunSimulation 1 (cfg_run 2 0 1) crowded_pond (tape []) =
      ((frame w' 1 ++ "All sharks extinct. Simulation ending." ++ newline)%string,
       Returns (w', 1)).
Proof.
  apply (RunSimulation_extinct 0 (cfg_run 2 0 1) crowded_pond (tape [])).
  - closed_grid.
  - unfold GoInt.int_max. simpl. lia.
  - right. reflexivity.
Defined.

(** ** The command line *)

Lemma bind_mret {A B : Type} (a : A) (f : A -> Proc B) : mret a ≫= f = f a.
Proof. unfold mbind, Proc_bind, mret, Proc_ret. simpl. by destruct (f a). Qed.

Lemma bind_die {A B : Type} (msg : string) (f : A -> Proc B) :
  die msg ≫= f = ((msg ++ newline)%string, Exits 1).
Proof.
  unfold die, Exit, Println, mbind, Proc_bind. simpl. by rewrite append_nil_r.
Qed.

Lemma bind_check {B : Type} (bad : Prop) `{Decision bad} (msg : string)
    (f : unit -> Proc B) :
  check bad msg ≫= f =
    if decide bad then ((msg ++ newline)%string, Exits 1) else f tt.
Proof.
  unfold check. case_decide; [apply bind_die|apply bind_mret].
Qed.

Lemma bind_argument {B : Type} (Atoi : string -> option Z) (args : list string)
    (i : nat) (msg s : string) (f : Z -> Proc B) :
  args !! i = Some s ->
  argument Atoi args i msg ≫= f =
    match Atoi s with
    | Some n => f n
    | None => ((msg ++ newline)%string, Exits 1)
    end.
Proof.
  intros Hs. unfold argument. rewrite Hs.
  change (lift (Some s)) with (mret s : Proc string). rewrite bind_mret.
  destruct (Atoi s); [apply bind_mret|apply bind_die].
Qed.

(** X18. Unless seven integers within the bounds are given, [main] prints
    one complaint and exits with status 1: no world is built and nothing
    else is printed. *)
Theorem main_rejects (Atoi : string -> option Z) (chrononsFlag drawFlag : Z)
    (benchFlag : string) (args : list string) (global rnd : Rand) (fuel : nat) :
  ~ accepted Atoi args ->
  exists msg,
    msg ∈ complaints /\
    main Atoi chrononsFlag drawFlag benchFlag args global rnd fuel =
      ((msg ++ newline)%string, Exits 1).
Proof.
  intros Hrej. unfold main. rewrite bind_check.
  case_decide as Hlen; [complain|].
  destruct args as [|s0 [|s1 [|s2 [|s3 [|s4 [|s5 [|s6 rest]]]]]]];
    try (simpl in Hlen; lia).
  clear Hlen.
  rewrite (bind_argument Atoi _ 0 _ s0) by done.
  destruct (Atoi s0) as [numShark|] eqn:H0; [|complain].
  rewrite (bind_argument Atoi _ 1 _ s1) by done.
  destruct (Atoi s1) as [numFish|] eqn:H1; [|complain].
  rewrite (bind_argument Atoi _ 2 _ s2) by done.
  destruct (Atoi s2) as [fishBreed|] eqn:H2; [|complain].
  rewrite (bind_argument Atoi _ 3 _ s3) by done.
  destruct (Atoi s3) as [sharkBreed|] eqn:H3; [|complain].
  rewrite (bind_argument Atoi _ 4 _ s4) by done.
  destruct (Atoi s4) as [starve|] eqn:H4; [|complain].
  rewrite (bind_argument Atoi _ 5 _ s5) by done.
  destruct (Atoi s5) as [gridSize|] eqn:H5; [|complain].
  rewrite (bind_argument Atoi _ 6 _ s6) by done.
  destruct (Atoi s6) as [threads|] eqn:H6; [|complain].
  rewrite bind_check. case_decide; [complain|].
  rewrite bind_check. case_decide; [complain|].
  rewrite bind_check. case_decide; [complain|].
  rewrite bind_check. case_decide; [complain|].
  rewrite bind_check. case_decide; [complain|].
  rewrite bind_check. case_decide; [complain|].
  rewrite bind_check. case_decide; [complain|].
  destruct Hrej.
  exists [numShark; numFish; fishBreed; sharkBreed; starve; gridSize; threads].
  split.
  - cbn [take mapM]. rewrite H0, H1, H2, H3, H4, H5, H6. done.
  - unfold within_bounds. lia.
Qed.

Lemma main_rejects_witness :
  exists msg,
    msg ∈ complaints /\
    main read_decimal 0 1 EmptyString ["3"; "10"; "4"; "5"; "6"; "1"; "1"]%string
         (tape []) (tape []) 0 =
      ((msg ++ newline)%string, Exits 1).
Proof.
  apply (main_rejects read_decimal 0 1 EmptyString
           ["3"; "10"; "4"; "5"; "6"; "1"; "1"]%string (tape []) (tape []) 0).
  intros (l & Hl & Hb). vm_compute in Hl. injection Hl as <-.
  unfold within_bounds in Hb. lia.
Defined.




(** ** The variant with goroutines *)

Lemma spans_closed (m : nat) (k q r : Z) :
  0 <= k -> 0 <= q -> 0 <= r ->
  (k + Z.of_nat m) * q + r <= GoInt.int_max ->
  Goroutines.spans (seqZ k (Z.of_nat m)) (k * q + Z.min k r) q r =
    (fun t => (t * q + Z.min t r, (t + 1) * q + Z.min (t + 1) r))
      <$> seqZ k (Z.of_nat m).
Proof.
  revert k. induction m as [|m IH]; intros k Hk Hq Hr Hmax; [done|].
  rewrite seqZ_cons by lia.
  replace (Z.pred (Z.of_nat (S m))) with (Z.of_nat m) by lia.
  cbn [Goroutines.spans fmap list_fmap]. cbv zeta.
  assert (GoInt.int_max = 2 ^ 63 - 1) as Hval by reflexivity.
  assert (GoInt.add (GoInt.add (k * q + Z.min k r) q)
            (if decide (k < r) then 1 else 0) =
          Z.succ k * q + Z.min (Z.succ k) r) as ->.
  { rewrite (add_exact (k * q + Z.min k r) q)
      by (unfold GoInt.is_int, GoInt.int_min; nia).
    rewrite add_exact by (unfold GoInt.is_int, GoInt.int_min; case_decide; nia).
    case_decide; nia. }
  replace (k + 1) with (Z.succ k) by lia.
  f_equal. apply IH; nia.
Qed.

Lemma spans_cover (g : Z -> Z) (m : nat) (k : Z) :
  (forall t, k <= t < k + Z.of_nat m -> g t <= g (t + 1)) ->
  concat ((fun t => seqZ (g t) (g (t + 1) - g t)) <$> seqZ k (Z.of_nat m)) =
    seqZ (g k) (g (k + Z.of_nat m) - g k).
Proof.
  revert k. induction m as [|m IH]; intros k Hmono.
  - simpl. by rewrite Z.add_0_r, Z.sub_diag.
  - rewrite seqZ_cons by lia.
    replace (Z.pred (Z.of_nat (S m))) with (Z.of_nat m) by lia.
    cbn [fmap list_fmap concat]. rewrite IH by (intros t Ht; apply Hmono; lia).
    replace (Z.succ k) with (k + 1) by lia.
    assert (g (k + 1) <= g (k + 1 + Z.of_nat m)) as Hle.
    { clear -Hmono. induction m as [|m IHm].
      - rewrite Z.add_0_r. lia.
      - etrans; [apply IHm; intros t Ht; apply Hmono; lia|].
        replace (k + 1 + Z.of_nat (S m)) with (k + 1 + Z.of_nat m + 1) by lia.
        apply Hmono. lia. }
    pose proof (Hmono k ltac:(lia)).
    replace (g (k + Z.of_nat (S m)) - g k)
      with ((g (k + 1) - g k) + (g (k + 1 + Z.of_nat m) - g (k + 1))).
    2:{ replace (k + Z.of_nat (S m)) with (k + 1 + Z.of_nat m) by lia. lia. }
    rewrite seqZ_app by lia. do 2 f_equal. lia.
Qed.

Lemma rowRanges_closed (size threads : Z) :
  1 <= size <= GoInt.int_max ->
  let n := Goroutines.threads_of size threads in
  let g := fun t => t * (size `div` n) + Z.min t (size `mod` n) in
  1 <= n <= size /\
  Goroutines.rowRanges size threads =
    Some ((fun t => (g t, g (t + 1))) <$> seqZ 0 n) /\
  g 0 = 0 /\ g n = size /\
  (forall t, 0 <= t < n -> g t <= g (t + 1) <= g t + 1 + size `div` n /\
                           size `div` n <= g (t + 1) - g t) /\
  (forall t, 0 <= t < n -> 0 <= g t /\ g (t + 1) <= size).
Proof.
  intros Hsize n g.
  assert (1 <= n <= size) as Hn.
  { unfold n, Goroutines.threads_of. repeat case_decide; lia. }
  pose proof (Z.div_mod size n ltac:(lia)) as Hdm.
  pose proof (Z.mod_pos_bound size n ltac:(lia)) as Hmod.
  assert (0 <= size `div` n) as Hq by (apply Z.div_pos; lia).
  split; [done|]. split; [|split_and!].
  - unfold Goroutines.rowRanges. fold n. rewrite decide_False by lia.
    rewrite Z.quot_div_nonneg, Z.rem_mod_nonneg by lia.
    pose proof (spans_closed (Z.to_nat n) 0 (size `div` n) (size `mod` n)) as Hclosed.
    rewrite Z2Nat.id in Hclosed by lia.
    replace (0 * (size `div` n) + Z.min 0 (size `mod` n)) with 0 in Hclosed by lia.
    rewrite Hclosed by nia. done.
  - unfold g. lia.
  - unfold g. lia.
  - intros t Ht. unfold g. lia.
  - intros t Ht. unfold g. nia.
Qed.

(** X20. The goroutines share the rows of a grid of side at least one
    exactly: there are as many goroutines as [cfg.Threads] says, at least
    one and at most one per row; their ranges follow one another from row 0
    to the last row, so every row is the row of one goroutine; and a range
    has the quotient of the rows by the goroutines, or one row more. On a
    grid of side 0 the division by the number of goroutines panics. *)
Theorem rowRanges_partition (size threads : Z) :
  1 <= size <= GoInt.int_max ->
  let n := Goroutines.threads_of size threads in
  1 <= n <= size /\
  (1 <= threads <= size -> n = threads) /\
  Goroutines.rowRanges 0 threads = None /\
  exists ranges,
    Goroutines.rowRanges size threads = Some ranges /\
    Z.of_nat (length ranges) = n /\
    concat ((fun range => seqZ range.1 (range.2 - range.1)) <$> ranges) =
      seqZ 0 size /\
    Forall (fun range => size `div` n <= range.2 - range.1 <= size `div` n + 1)
           ranges.
Proof.
  intros Hsize n.
  destruct (rowRanges_closed size threads Hsize)
    as (Hn & Hranges & Hg0 & Hgn & Hstep & Hin).
  fold n in Hn, Hranges, Hg0, Hgn, Hstep, Hin. cbv zeta in *.
  split; [done|]. split.
  { intros Ht. unfold n, Goroutines.threads_of. repeat case_decide; lia. }
  split.
  { unfold Goroutines.rowRanges, Goroutines.threads_of.
    repeat case_decide; try done; lia. }
  eexists. split; [exact Hranges|]. split_and!.
  - rewrite length_fmap, length_seqZ. lia.
  - rewrite <- list_fmap_compose. unfold compose. cbn [fst snd].
    pose proof (spans_cover
                  (fun t => t * (size `div` n) + Z.min t (size `mod` n))
                  (Z.to_nat n) 0) as Hcover.
    rewrite Z2Nat.id in Hcover by lia. cbv beta in Hcover.
    rewrite Hcover by (intros t Ht; apply Hstep; lia).
    f_equal; lia.
  - apply Forall_fmap, list.Forall_forall. intros t Ht%elem_of_seqZ. simpl.
    pose proof (Hstep t ltac:(lia)). lia.
Qed.

Lemma rowRanges_partition_witness :
  Goroutines.threads_of 10 4 = 4 /\
  exists ranges,
    Goroutines.rowRanges 10 4 = Some ranges /\
    Z.of_nat (length ranges) = 4 /\
    concat ((fun range => seqZ range.1 (range.2 - range.1)) <$> ranges) =
      seqZ 0 10.
Proof.
  destruct (rowRanges_partition 10 4) as (_ & Hn & _ & ranges & Hr & Hlen & Hcat & _).
  - unfold GoInt.int_max. lia.
  - split; [apply Hn; lia|].
    exists ranges. split; [exact Hr|]. split; [exact Hlen|exact Hcat].
Defined.

Lemma spots_candidates (want : Entity) (current next : World)
    (neighbors : list (Z * Z)) :
  Forall (holds next Empty) neighbors ->
  Goroutines.spots want current neighbors =
    candidates want current next neighbors.
Proof.
  induction 1 as [|[nr nc] rest (n & Hn & He) _ IH]; [done|].
  cbn [Goroutines.spots candidates]. simpl in Hn.
  destruct (cell_at current nr nc) as [c|]; [|done]. bind_step.
  rewrite IH. destruct (decide (entity c = want)) as [Hw|Hw].
  - rewrite Hn. bind_step. rewrite bool_decide_eq_true_2 by done.
    bind_step. by destruct (candidates want current next rest).
  - bind_step. by destruct (candidates want current next rest).
Qed.

Lemma rules_fresh (current next : World) (row col : Z)
    (cfg : Config) (rnd : Rand) :
  Forall (holds next Empty) (Neighbors current row col) ->
  Goroutines.fishRule current row col cfg rnd =
    fishRule current next row col cfg rnd /\
  Goroutines.sharkRule current row col cfg rnd =
    (fun r : Outcome * Rand => (halved r.1, r.2)) <$>
      sharkRule current next row col cfg rnd.
Proof.
  intros Hfresh. split.
  - unfold Goroutines.fishRule, fishRule.
    destruct (cell_at current row col) as [cell|]; [|done]. bind_step. cbv zeta.
    by rewrite (spots_candidates Empty current next _ Hfresh).
  - unfold Goroutines.sharkRule, sharkRule.
    destruct (cell_at current row col) as [cell|]; [|done]. bind_step. cbv zeta.
    case_decide; [done|].
    rewrite (spots_candidates Fish current next _ Hfresh).
    rewrite (spots_candidates Empty current next _ Hfresh).
    destruct (candidates Fish current next _) as [prey|]; [|done]. bind_step.
    case_decide.
    + destruct (pick prey rnd) as [[[nr nc] rnd']|]; [|done]. bind_step.
      by case_decide.
    + destruct (candidates Empty current next _) as [room|]; [|done]. bind_step.
      case_decide; [|done].
      destruct (pick room rnd) as [[[nr nc] rnd']|]; [|done]. bind_step.
      by case_decide.
Qed.

(** X21. The rules of the variant decide as the single-threaded rules do
    against a grid [next] in which the four neighbours are still [Empty]:
    the fish rule is the same, and the shark rule differs in the energy of
    the offspring, which is half the energy of the parent. *)
Theorem Goroutines_rules_fresh (current next : World) (row col : Z)
    (cfg : Config) (rnd : Rand) :
  Forall (holds next Empty) (Neighbors current row col) ->
  Goroutines.fishRule current row col cfg rnd =
    fishRule current next row col cfg rnd /\
  Goroutines.sharkRule current row col cfg rnd =
    (fun r : Outcome * Rand => (halved r.1, r.2)) <$>
      sharkRule current next row col cfg rnd.
Proof. exact (rules_fresh current next row col cfg rnd). Qed.

Lemma Goroutines_rules_fresh_witness :
  Goroutines.fishRule hunting_ground 0 1 (cfg_slow 3) (tape []) =
    fishRule hunting_ground (empty_grid 3) 0 1 (cfg_slow 3) (tape []) /\
  Goroutines.sharkRule hunting_ground 1 1 (cfg_slow 3) (tape []) =
    Some (Breeds 0 1 (shark 0 3) (shark 0 6), advance (tape [])).
Proof.
  split.
  - apply (Goroutines_rules_fresh hunting_ground (empty_grid 3) 0 1
             (cfg_slow 3) (tape [])).
    repeat constructor; by exists zeroCell.
  - etrans.
    + apply (Goroutines_rules_fresh hunting_ground (empty_grid 3) 1 1
               (cfg_slow 3) (tape [])).
      repeat constructor; by exists zeroCell.
    + reflexivity.
Defined.

(** X22. In the variant a shark that breeds leaves an offspring with half of
    the energy it keeps itself, rounded towards zero: a parent that is left
    with one unit of energy has an offspring with none. *)
Theorem Goroutines_offspring_energy (current : World) (row col : Z)
    (cfg : Config) (rnd rnd' : Rand) (nr nc : Z) (child parent : Cell) :
  Goroutines.sharkRule current row col cfg rnd =
    Some (Breeds nr nc child parent, rnd') ->
  entity child = Shark /\ BreedTimer child = 0 /\
  Energy child = Z.quot (Energy parent) 2 /\
  (0 < Energy parent -> 0 <= Energy child < Energy parent) /\
  (Energy parent = 1 -> Energy child = 0).
Proof.
  unfold Goroutines.sharkRule. intros H.
  assert (0 < Energy parent -> 0 <= Z.quot (Energy parent) 2 < Energy parent) as Hhalf.
  { intros Hp. rewrite Z.quot_div_nonneg by lia.
    pose proof (Z.div_pos (Energy parent) 2 ltac:(lia) ltac:(lia)).
    pose proof (Z.div_lt (Energy parent) 2 ltac:(lia) ltac:(lia)). lia. }
  assert (entity child = Shark /\ BreedTimer child = 0 /\
          Energy child = Z.quot (Energy parent) 2) as (He & Ht & Hen).
  { destruct (cell_at current row col) as [cell|]; [|done]. bind_step in H.
    cbv zeta in H. case_decide; [done|].
    destruct (Goroutines.spots Fish current _) as [prey|]; [|done].
    bind_step in H. case_decide.
    - destruct (pick prey rnd) as [[[r c] r']|]; [|done]. bind_step in H.
      case_decide; [|done]. by injection H as <- <- <- <- _.
    - destruct (Goroutines.spots Empty current _) as [room|]; [|done].
      bind_step in H. case_decide; [|done].
      destruct (pick room rnd) as [[[r c] r']|]; [|done]. bind_step in H.
      case_decide; [|done]. by injection H as <- <- <- <- _. }
  split_and!; try done.
  - rewrite Hen. exact Hhalf.
  - rewrite Hen. by intros ->.
Qed.

Lemma Goroutines_offspring_energy_witness :
  Energy (shark 0 2) = Z.quot (Energy (shark 0 4)) 2.
Proof.
  apply (Goroutines_offspring_energy open_water 1 1 (cfg_slow 3) (tape [])
           (advance (tape [])) 0 1 (shark 0 2) (shark 0 4)).
  reflexivity.
Defined.

(** *** Assignments in any order *)

Lemma cell_at_nat (w : World) (i j : nat) :
  cell_at w (Z.of_nat i) (Z.of_nat j) = Cells w !! i ≫= (.!! j).
Proof.
  unfold cell_at, index. rewrite !Nat2Z.id.
  destruct (decide (0 <= Z.of_nat i)); [|lia].
  destruct (decide (0 <= Z.of_nat j)); [|lia]. done.
Qed.

Lemma world_ext (w1 w2 : World) :
  Size w1 = Size w2 -> FishBreed w1 = FishBreed w2 ->
  SharkBreed w1 = SharkBreed w2 -> Starve w1 = Starve w2 ->
  length <$> Cells w1 = length <$> Cells w2 ->
  (forall r c, cell_at w1 r c = cell_at w2 r c) ->
  w1 = w2.
Proof.
  destruct w1 as [s1 c1 f1 b1 t1], w2 as [s2 c2 f2 b2 t2]. simpl.
  intros -> -> -> -> Hlen Hcell. f_equal.
  apply list_eq. intros i.
  pose proof (f_equal (fun l => l !! i) Hlen) as Hi. simpl in Hi.
  rewrite !list_lookup_fmap in Hi.
  pose proof (fun j => Hcell (Z.of_nat i) (Z.of_nat j)) as Hrow.
  setoid_rewrite cell_at_nat in Hrow. simpl in Hrow.
  destruct (c1 !! i) as [row1|], (c2 !! i) as [row2|]; simpl in *; try done.
  f_equal. by apply list_eq.
Qed.

Lemma assign_rows (w w' : World) (row col : Z) (v : Cell) :
  assign w row col v = Some w' ->
  length <$> Cells w' = length <$> Cells w.
Proof.
  unfold assign. intros H.
  destruct (index (Cells w) row) as [cells|] eqn:Hr; simpl in H; [|done].
  destruct (index cells col) as [old|] eqn:Hc; simpl in H; [|done].
  injection H as <-. simpl. apply index_Some in Hr as [_ Hr].
  rewrite list_fmap_insert, length_insert. apply list_insert_id.
  by rewrite list_lookup_fmap, Hr.
Qed.

Lemma assign_Some_iff (w : World) (row col : Z) (v : Cell) :
  is_Some (assign w row col v) <-> is_Some (cell_at w row col).
Proof.
  split; [|apply assign_is_Some].
  unfold assign, cell_at. destruct (index (Cells w) row) as [cells|]; simpl.
  - destruct (index cells col); simpl; [eauto|by intros [? ?]].
  - by intros [? ?].
Qed.

Lemma assign_defined (w w' : World) (row col : Z) (v : Cell) (r c : Z) :
  assign w row col v = Some w' ->
  is_Some (cell_at w' r c) <-> is_Some (cell_at w r c).
Proof.
  intros H. destruct (cell_at_assign w w' row col v H) as [Hat Helse].
  destruct (decide ((r, c) = (row, col))) as [[= -> ->]|Hne].
  - rewrite Hat. split; [|eauto]. intros _. apply assign_Some_iff with v. eauto.
  - by rewrite Helse.
Qed.

Lemma forM_assign_is_Some (ws : list (Z * Z * Cell)) (next : World) :
  is_Some (forM (fun '(r, c, v) nxt => assign nxt r c v) ws next) <->
  Forall (fun x : Z * Z * Cell => is_Some (cell_at next x.1.1 x.1.2)) ws.
Proof.
  revert next. induction ws as [|[[r c] v] ws IH]; intros next.
  - split; [constructor|by eexists].
  - cbn [forM]. rewrite list.Forall_cons. simpl.
    destruct (assign next r c v) as [n1|] eqn:H1; bind_step.
    + rewrite IH. split.
      * intros Hall. split; [apply assign_Some_iff with v; eauto|].
        eapply list.Forall_impl; [exact Hall|]. intros x.
        by rewrite (assign_defined next n1 r c v).
      * intros [_ Hall]. eapply list.Forall_impl; [exact Hall|]. intros x.
        by rewrite (assign_defined next n1 r c v).
    + split; [by intros [? ?]|]. intros [Hd _].
      apply (assign_Some_iff next r c v) in Hd. rewrite H1 in Hd. by destruct Hd.
Qed.

Lemma forM_assign_frame (ws : list (Z * Z * Cell)) (next next' : World) :
  forM (fun '(r, c, v) nxt => assign nxt r c v) ws next = Some next' ->
  Size next' = Size next /\ FishBreed next' = FishBreed next /\
  SharkBreed next' = SharkBreed next /\ Starve next' = Starve next /\
  length <$> Cells next' = length <$> Cells next /\
  (square next -> square next').
Proof.
  revert next. induction ws as [|[[r c] v] ws IH]; intros next H.
  - injection H as <-. done.
  - cbn [forM] in H. destruct (assign next r c v) as [n1|] eqn:H1; [|done].
    bind_step in H. destruct (IH n1 H) as (-> & -> & -> & -> & -> & Hsq).
    destruct (assign_shape _ _ _ _ _ H1) as (-> & -> & -> & -> & Hsq1).
    rewrite (assign_rows _ _ _ _ _ H1). split_and!; try done. tauto.
Qed.

Lemma written_NoDup (ws : list (Z * Z * Cell)) (p : Z * Z) (v : Cell) :
  NoDup (ws.*1) -> (p.1, p.2, v) ∈ ws -> written ws p = Some v.
Proof.
  induction ws as [|[[r c] v0] ws IH]; intros Hnd Hin; [by inversion Hin|].
  cbn [written]. rewrite fmap_cons in Hnd.
  apply list.NoDup_cons in Hnd as [Hnotin Hnd].
  apply elem_of_cons in Hin as [Heq|Hin].
  - injection Heq as Hr Hc ->.
    destruct (written ws p) as [v'|] eqn:Hw.
    + destruct Hnotin. apply written_elem in Hw.
      apply (list_elem_of_fmap_2 fst) in Hw. simpl in *. by rewrite <- Hr, <- Hc.
    + rewrite decide_True; [done|]. destruct p. simpl in *. congruence.
  - by rewrite (IH Hnd Hin).
Qed.

Lemma written_Permutation (ws1 ws2 : list (Z * Z * Cell)) (p : Z * Z) :
  ws1 ≡ₚ ws2 -> NoDup (ws1.*1) -> written ws1 p = written ws2 p.
Proof.
  intros Hperm Hnd.
  assert (NoDup (ws2.*1)) as Hnd2 by (by rewrite <- Hperm).
  destruct (written ws1 p) as [v|] eqn:H1.
  - apply written_elem in H1. rewrite Hperm in H1.
    symmetry. by apply written_NoDup.
  - destruct (written ws2 p) as [v|] eqn:H2; [|done].
    apply written_elem in H2. rewrite <- Hperm in H2.
    apply written_NoDup in H2; [congruence|done].
Qed.

Lemma forM_assign_Permutation (ws1 ws2 : list (Z * Z * Cell)) (next : World) :
  ws1 ≡ₚ ws2 -> NoDup (ws1.*1) ->
  forM (fun '(r, c, v) nxt => assign nxt r c v) ws1 next =
  forM (fun '(r, c, v) nxt => assign nxt r c v) ws2 next.
Proof.
  intros Hperm Hnd.
  pose proof (forM_assign_is_Some ws1 next) as Hd1.
  pose proof (forM_assign_is_Some ws2 next) as Hd2.
  assert (Forall (fun x : Z * Z * Cell => is_Some (cell_at next x.1.1 x.1.2)) ws1 <->
          Forall (fun x : Z * Z * Cell => is_Some (cell_at next x.1.1 x.1.2)) ws2)
    as Hboth by (by rewrite Hperm).
  destruct (forM _ ws1 next) as [n1|] eqn:H1, (forM _ ws2 next) as [n2|] eqn:H2.
  - f_equal.
    destruct (forM_assign_frame _ _ _ H1) as (Hs1 & Hf1 & Hb1 & Ht1 & Hl1 & _).
    destruct (forM_assign_frame _ _ _ H2) as (Hs2 & Hf2 & Hb2 & Ht2 & Hl2 & _).
    apply world_ext; try congruence.
    intros r c. rewrite (forM_assign_cell_at _ _ _ H1), (forM_assign_cell_at _ _ _ H2).
    by rewrite (written_Permutation ws1 ws2).
  - assert (is_Some (@None World)) as [? ?]; [|done]. apply Hd2, Hboth, Hd1. eauto.
  - assert (is_Some (@None World)) as [? ?]; [|done]. apply Hd1, Hboth, Hd2. eauto.
  - done.
Qed.

Lemma write_all_flat (merged : list Event) (next : World) :
  Goroutines.write_all next merged =
  forM (fun '(r, c, v) nxt => assign nxt r c v)
       (ev ← merged; writes_of ev.1.1 ev.1.2 ev.2) next.
Proof.
  unfold Goroutines.write_all. revert next.
  induction merged as [|[[row col] o] merged IH]; intros next; [done|].
  rewrite bind_cons, forM_app. cbn [forM]. simpl.
  unfold commit. destruct (forM _ (writes_of row col o) next); simpl; [apply IH|done].
Qed.

Lemma targets_writes (events : list Event) :
  (ev ← events; writes_of ev.1.1 ev.1.2 ev.2).*1 = targets events.
Proof.
  unfold targets. induction events as [|ev events IH]; [done|].
  rewrite !bind_cons, fmap_app, IH. done.
Qed.

Lemma concat_insert_Permutation {A : Type} (logs : list (list A)) (t : nat)
    (x : A) (log : list A) :
  logs !! t = Some (x :: log) ->
  concat logs ≡ₚ x :: concat (<[t := log]> logs).
Proof.
  revert t. induction logs as [|l logs IH]; intros [|t] H; simpl in *; try done.
  - by injection H as ->.
  - rewrite (IH t H). by rewrite Permutation_middle.
Qed.

Lemma interleaving_Permutation {A : Type} (logs : list (list A)) (merged : list A) :
  Goroutines.interleaving logs merged -> merged ≡ₚ concat logs.
Proof.
  induction 1 as [logs Hall|logs t x log merged Hlog _ IH].
  - induction Hall as [|l logs -> _ IHl]; [done|]. simpl. exact IHl.
  - rewrite IH. symmetry. by apply concat_insert_Permutation.
Qed.

(** X23. The mutex makes the order of the goroutines immaterial as long as
    no cell is assigned twice in the step: all the orders in which the
    goroutines can take the mutex then end in the same grid. *)
Theorem StepWorld_schedule_free (w : World) (cfg : Config)
    (sources : nat -> Rand) (next : World) (logs : list (list Event))
    (result1 result2 : option World) :
  Goroutines.logs_of w cfg sources = Some (next, logs) ->
  NoDup (targets (concat logs)) ->
  Goroutines.StepWorld w cfg sources result1 ->
  Goroutines.StepWorld w cfg sources result2 ->
  result1 = result2.
Proof.
  intros Hlogs Hnd H1 H2.
  assert (forall result, Goroutines.StepWorld w cfg sources result ->
            result = Goroutines.write_all next (concat logs)) as Hall.
  { intros result [Hp|next' logs' merged Hl Hi]; [congruence|].
    rewrite Hlogs in Hl. injection Hl as <- <-.
    apply interleaving_Permutation in Hi.
    rewrite !write_all_flat. apply forM_assign_Permutation.
    - by rewrite Hi.
    - rewrite targets_writes. unfold targets in *. by rewrite Hi. }
  by rewrite (Hall _ H1), (Hall _ H2).
Qed.

(** *** A step of the variant never panics *)

Lemma forM_total {S A : Type} (body : A -> S -> option S) (I : S -> Prop)
    (P : A -> Prop) (l : list A) (s : S) :
  (forall x s, P x -> I s -> exists s', body x s = Some s' /\ I s') ->
  Forall P l -> I s ->
  exists s', forM body l s = Some s' /\ I s'.
Proof.
  intros Hbody Hl. revert s. induction Hl as [|x l Hx _ IH]; intros s Hs.
  - by exists s.
  - destruct (Hbody x s Hx Hs) as (s1 & H1 & Hs1).
    destruct (IH s1 Hs1) as (s2 & H2 & Hs2).
    exists s2. cbn [forM]. rewrite H1. by bind_step.
Qed.

Lemma newEmptyWorldLike_fresh (w next0 : World) :
  square w -> newEmptyWorldLike w = Some next0 ->
  square next0 /\ Size next0 = Size w /\
  FishBreed next0 = FishBreed w /\ SharkBreed next0 = SharkBreed w /\
  Starve next0 = Starve w /\
  (forall p, in_grid w p -> holds next0 Empty p).
Proof.
  intros (Hs & _) Hnew. unfold newEmptyWorldLike in Hnew.
  destruct (makeCells (Size w)) as [cells|] eqn:Hcells; [|done].
  bind_step in Hnew. injection Hnew as <-.
  destruct (makeCells_square w cells Hs Hcells) as [Hsq Hempty]. done.
Qed.

Lemma outcome_grounded (w : World) (row col : Z) (o : Outcome) :
  in_grid w (row, col) ->
  (forall p, destination o = Some p -> in_grid w p) ->
  Forall (in_grid w) ((fun x : Z * Z * Cell => x.1) <$> writes_of row col o).
Proof.
  intros Hin Hdest. destruct o as [|v|nr nc v|nr nc v1 v2]; simpl;
    repeat (apply list.Forall_cons; split); try apply Forall_nil; try done;
    by apply Hdest.
Qed.

Lemma targets_app (h1 h2 : list Event) :
  targets (h1 ++ h2) = targets h1 ++ targets h2.
Proof. unfold targets. apply bind_app. Qed.

Lemma Goroutines_visit_total (w next0 : World) (cfg : Config) (row col : Z)
    (st : Rand * list Event) :
  square w -> newEmptyWorldLike w = Some next0 ->
  in_grid w (row, col) -> Forall (in_grid w) (targets st.2) ->
  exists st', Goroutines.visit w cfg row col st = Some st' /\
              Forall (in_grid w) (targets st'.2).
Proof.
  intros Hsq Hnew Hin Hlog.
  destruct (newEmptyWorldLike_fresh w next0 Hsq Hnew)
    as (Hsq0 & Hsz0 & _ & _ & _ & Hempty).
  assert (staged w next0 row col) as Hst by done.
  pose proof (staged_neighbors _ _ _ _ Hst) as Hnb.
  assert (Forall (holds next0 Empty) (Neighbors w row col)) as Hfresh.
  { eapply list.Forall_impl; [exact Hnb|]. exact Hempty. }
  destruct (rules_fresh w next0 row col cfg st.1 Hfresh) as [Hfish Hshark].
  destruct (proj2 (cell_at_in_grid w row col Hsq) Hin) as [cell Hcell].
  destruct st as [rnd log]. simpl in *.
  unfold Goroutines.visit. rewrite Hcell. bind_step.
  assert (forall o, (forall p, destination o = Some p -> p ∈ Neighbors w row col) ->
            Forall (in_grid w) (targets (log ++ [(row, col, o)]))) as Hground.
  { intros o Hdest. rewrite targets_app. apply Forall_app. split; [done|].
    unfold targets. rewrite bind_cons. cbn [mbind list_bind]. rewrite app_nil_r. simpl.
    apply outcome_grounded; [done|]. intros p Hp.
    exact (proj1 (list.Forall_forall _ _) Hnb p (Hdest p Hp)). }
  destruct (entity cell) eqn:Hent.
  - exists (rnd, log). done.
  - rewrite Hfish.
    destruct (fishRule_decision w next0 row col cfg rnd cell Hst Hcell)
      as (o & rnd' & -> & Hdec). bind_step.
    eexists. split; [done|]. simpl. apply Hground. intros p Hp.
    destruct (fish_decision_lands w next0 row col cfg rnd cell o rnd' Hcell Hent
                (Hempty _ Hin) Hdec) as [_ Hd].
    by destruct (Hd p Hp).
  - rewrite Hshark.
    destruct (sharkRule_decision w next0 row col cfg rnd cell Hst Hcell)
      as (o & rnd' & -> & Hdec). simpl.
    eexists. split; [done|]. simpl.
    destruct (shark_decision_lands w next0 row col cfg rnd cell o rnd' Hcell Hent
                (Hempty _ Hin) Hdec) as [_ Hd].
    assert (forall p, destination (halved o) = Some p -> p ∈ Neighbors w row col)
      as Hdest.
    { intros p Hp. apply Hd. by destruct o. }
    exact (Hground (halved o) Hdest).
Qed.

Lemma goroutine_total (w next0 : World) (cfg : Config) (rnd : Rand)
    (range : Z * Z) :
  square w -> newEmptyWorldLike w = Some next0 ->
  0 <= range.1 -> range.2 <= Size w ->
  exists log, Goroutines.goroutine w cfg rnd range = Some log /\
              Forall (in_grid w) (targets log).
Proof.
  intros Hsq Hnew Hlo Hhi. unfold Goroutines.goroutine.
  rewrite (forM_product (fun row col => Goroutines.visit w cfg row col)).
  destruct (forM_total (fun p => Goroutines.visit w cfg p.1 p.2)
              (fun st => Forall (in_grid w) (targets st.2)) (in_grid w)
              (row ← seqZ range.1 (range.2 - range.1);
               col ← seqZ 0 (Size w); [(row, col)])
              (rnd, [])) as (st & -> & Hst).
  - intros [row col] st Hp Hlog.
    by apply (Goroutines_visit_total w next0 cfg row col st).
  - apply list.Forall_forall. intros p.
    rewrite list_elem_of_bind.
    intros (r & (c & Hp & Hc%elem_of_seqZ)%list_elem_of_bind & Hr%elem_of_seqZ).
    apply list_elem_of_singleton in Hp as ->. unfold in_grid. simpl. lia.
  - constructor.
  - bind_step. by exists st.2.
Qed.

Lemma mapM_total {A B : Type} (f : A -> option B) (Q : B -> Prop) (l : list A) :
  Forall (fun x => exists y, f x = Some y /\ Q y) l ->
  exists k, mapM f l = Some k /\ Forall Q k.
Proof.
  induction 1 as [|x l (y & Hy & HQ) _ (k & Hk & HQk)].
  - by exists [].
  - exists (y :: k). simpl. rewrite Hy, Hk. split; [done|]. by constructor.
Qed.

Lemma targets_concat (w : World) (logs : list (list Event)) :
  Forall (fun log => Forall (in_grid w) (targets log)) logs ->
  Forall (in_grid w) (targets (concat logs)).
Proof.
  induction 1 as [|log logs Hlog _ IH]; [constructor|].
  simpl. rewrite targets_app. by apply Forall_app.
Qed.

Lemma logs_of_total (w : World) (cfg : Config) (sources : nat -> Rand) :
  square w -> 1 <= Size w ->
  exists next0 logs,
    Goroutines.logs_of w cfg sources = Some (next0, logs) /\
    newEmptyWorldLike w = Some next0 /\
    Forall (in_grid w) (targets (concat logs)).
Proof.
  intros Hsq Hsize. pose proof Hsq as ([_ Hmax] & _).
  destruct (newEmptyWorldLike w) as [next0|] eqn:Hnew.
  2:{ unfold newEmptyWorldLike, makeCells in Hnew.
      rewrite decide_True in Hnew by lia. done. }
  destruct (rowRanges_closed (Size w) (Cfg.Threads cfg) ltac:(lia))
    as (Hn & Hranges & _ & _ & _ & Hin).
  cbv zeta in Hranges, Hin.
  set (n := Goroutines.threads_of (Size w) (Cfg.Threads cfg)) in *.
  destruct (mapM_total
              (fun '(t, range) => Goroutines.goroutine w cfg (sources t) range)
              (fun log => Forall (in_grid w) (targets log))
              (imap (fun t range => (t, range))
                 ((fun t => (t * (Size w `div` n) + Z.min t (Size w `mod` n),
                             (t + 1) * (Size w `div` n) +
                             Z.min (t + 1) (Size w `mod` n))) <$> seqZ 0 n)))
    as (logs & Hlogs & Hall).
  { apply list.Forall_forall. intros [t range] Ht.
    apply list_elem_of_lookup in Ht as [i Ht].
    rewrite list_lookup_imap in Ht.
    destruct (_ !! i) as [range'|] eqn:Hr; [|done]. simpl in Ht.
    injection Ht as <- <-.
    rewrite list_lookup_fmap in Hr.
    destruct (seqZ 0 n !! i) as [k|] eqn:Hk; [|done]. simpl in Hr.
    injection Hr as <-.
    apply lookup_seqZ in Hk as [-> Hk].
    destruct (Hin (0 + Z.of_nat i) ltac:(lia)) as [Hlo Hhi].
    by apply (goroutine_total w next0). }
  exists next0, logs. split; [|split; [done|by apply targets_concat]].
  unfold Goroutines.logs_of. rewrite Hnew. bind_step.
  rewrite Hranges. bind_step. rewrite Hlogs. done.
Qed.

Lemma interleaving_in_turn {A : Type} (k : nat) (logs : list (list A)) :
  Goroutines.interleaving (replicate k [] ++ logs) (concat logs).
Proof.
  revert k. induction logs as [|log logs IH]; intros k.
  - apply Goroutines.interleaving_done. rewrite app_nil_r.
    by apply Forall_replicate.
  - induction log as [|x log IHlog].
    + replace (replicate k [] ++ [] :: logs)
        with (replicate (S k) ([] : list A) ++ logs); [apply IH|].
      rewrite replicate_S_end, <- app_assoc. done.
    + simpl. apply (Goroutines.interleaving_next _ k x log).
      * rewrite lookup_app_r by (by rewrite length_replicate).
        by rewrite length_replicate, Nat.sub_diag.
      * rewrite insert_app_r_alt by (by rewrite length_replicate).
        rewrite length_replicate, Nat.sub_diag. exact IHlog.
Qed.

(** X24. On a square grid of side at least one a step of the variant never
    panics, whatever the number of threads asked for and the order of the
    goroutines: it has a result, and every result is a square grid of the
    same side with the same rule parameters. *)
Theorem Goroutines_StepWorld_safe (w : World) (cfg : Config)
    (sources : nat -> Rand) :
  square w -> 1 <= Size w ->
  (exists result, Goroutines.StepWorld w cfg sources result) /\
  (forall result, Goroutines.StepWorld w cfg sources result ->
     exists next, result = Some next /\ square next /\ Size next = Size w /\
                  FishBreed next = FishBreed w /\
                  SharkBreed next = SharkBreed w /\ Starve next = Starve w).
Proof.
  intros Hsq Hsize.
  destruct (logs_of_total w cfg sources Hsq Hsize)
    as (next0 & logs & Hlogs & Hnew & Hground).
  destruct (newEmptyWorldLike_fresh w next0 Hsq Hnew)
    as (Hsq0 & Hsz0 & Hf0 & Hb0 & Ht0 & _).
  split.
  - eexists. apply (Goroutines.StepWorld_merges w cfg sources next0 logs
                      (concat logs) Hlogs).
    apply (interleaving_in_turn 0 logs).
  - intros result [Hp|next' logs' merged Hl Hi]; [congruence|].
    rewrite Hlogs in Hl. injection Hl as <- <-.
    apply interleaving_Permutation in Hi.
    assert (is_Some (Goroutines.write_all next0 merged)) as [next Hnext].
    { rewrite write_all_flat. apply forM_assign_is_Some.
      apply list.Forall_forall. intros x Hx.
      apply (cell_at_in_grid next0 _ _ Hsq0). unfold in_grid. rewrite Hsz0.
      assert (x.1 ∈ targets (concat logs)) as Hin.
      { unfold targets. rewrite <- Hi. fold (targets merged).
        rewrite <- targets_writes. by apply list_elem_of_fmap_2. }
      pose proof (proj1 (list.Forall_forall _ _) Hground _ Hin) as Hg.
      by destruct x as [[r c] v]. }
    exists next. split; [done|].
    rewrite write_all_flat in Hnext.
    destruct (forM_assign_frame _ _ _ Hnext) as (-> & -> & -> & -> & _ & Hsq').
    split_and!; try done. by apply Hsq'.
Qed.

Lemma StepWorld_schedule_free_witness :
  Goroutines.write_all (empty_grid 3)
    [(0, 1, Moves 2 1 (fish 1)); (1, 1, Breeds 0 1 (shark 0 3) (shark 0 6))] =
  Goroutines.write_all (empty_grid 3)
    [(1, 1, Breeds 0 1 (shark 0 3) (shark 0 6)); (0, 1, Moves 2 1 (fish 1))].
Proof.
  apply (StepWorld_schedule_free hunting_ground (cfg_threads 3 3)
           (fun _ => tape []) (empty_grid 3)
           [[(0, 1, Moves 2 1 (fish 1))];
            [(1, 1, Breeds 0 1 (shark 0 3) (shark 0 6))]; []]).
  - reflexivity.
  - apply (bool_decide_unpack _). vm_compute. exact I.
  - apply (Goroutines.StepWorld_merges hunting_ground (cfg_threads 3 3)
             (fun _ => tape []) (empty_grid 3)
             [[(0, 1, Moves 2 1 (fish 1))];
              [(1, 1, Breeds 0 1 (shark 0 3) (shark 0 6))]; []]).
    + reflexivity.
    + apply (Goroutines.interleaving_next _ 0%nat _ []); [reflexivity|].
      apply (Goroutines.interleaving_next _ 1%nat _ []); [reflexivity|].
      apply Goroutines.interleaving_done. repeat constructor.
  - apply (Goroutines.StepWorld_merges hunting_ground (cfg_threads 3 3)
             (fun _ => tape []) (empty_grid 3)
             [[(0, 1, Moves 2 1 (fish 1))];
              [(1, 1, Breeds 0 1 (shark 0 3) (shark 0 6))]; []]).
    + reflexivity.
    + apply (Goroutines.interleaving_next _ 1%nat _ []); [reflexivity|].
      apply (Goroutines.interleaving_next _ 0%nat _ []); [reflexivity|].
      apply Goroutines.interleaving_done. repeat constructor.
Defined.

Lemma Goroutines_StepWorld_safe_witness :
  exists result, Goroutines.StepWorld hunting_ground (cfg_threads 3 2)
                   (fun _ => tape []) result.
Proof.
  apply (Goroutines_StepWorld_safe hunting_ground (cfg_threads 3 2)
           (fun _ => tape [])).
  - closed_grid.
  - simpl. lia.
Defined.

(** X25. On a grid of side 0 the two variants part: the single-threaded step
    returns the empty grid, and the step with goroutines panics, for it
    divides by the number of goroutines, which is 0. *)
Theorem Goroutines_empty_world (w : World) (cfg : Config)
    (sources : nat -> Rand) (rnd : Rand) :
  Size w = 0 ->
  StepWorld w cfg rnd = Some (with_cells w [], rnd) /\
  Goroutines.StepWorld w cfg sources None /\
  (forall result, Goroutines.StepWorld w cfg sources result -> result = None).
Proof.
  intros Hsize.
  assert (Goroutines.logs_of w cfg sources = None) as Hlogs.
  { unfold Goroutines.logs_of, newEmptyWorldLike, makeCells. rewrite Hsize.
    simpl. unfold Goroutines.rowRanges, Goroutines.threads_of.
    repeat case_decide; try done; lia. }
  split_and!.
  - unfold StepWorld, StepWorld_run, newEmptyWorldLike, makeCells.
    rewrite Hsize. done.
  - by constructor.
  - intros result [Hp|next logs merged Hl _]; [done|congruence].
Qed.

Lemma Goroutines_empty_world_witness :
  StepWorld (empty_grid 0) (cfg_threads 0 4) (tape []) =
    Some (empty_grid 0, tape []) /\
  Goroutines.StepWorld (empty_grid 0) (cfg_threads 0 4) (fun _ => tape []) None.
Proof.
  destruct (Goroutines_empty_world (empty_grid 0) (cfg_threads 0 4)
              (fun _ => tape []) (tape [])) as (Hone & Hmany & _).
  - reflexivity.
  - split; [exact Hone|exact Hmany].
Defined.
